(** * reading-lamp: the segmentation and conversion pipeline of [index.js]

    A shallow embedding of the chunker ([chunkText]), the segment converter
    ([convertSingleChunk]), the merger ([mergeAudioFiles]) and the
    orchestrator ([convertTextToSpeech]) of the command-line tool, and the
    properties of them that its specification states; then of its front
    end ([getConfiguration], [validateConfiguration], [getTextContent],
    [main]), with more properties of the whole.

    JavaScript strings are sequences of UTF-16 code units; a string is
    modelled as a list of code units, each a number in [N].  Arrays are
    lists, [push] appends at the end. *)

From Stdlib Require Import Strings.String Strings.Ascii Numbers.DecimalString.
From Stdlib Require Import List Arith Lia NArith Bool.
From Stdlib Require DecimalNat.
Import ListNotations.

Set Implicit Arguments.
Set Warnings "-abstract-large-number".

(** * Part 1: the program *)

(** ** Strings *)

Module Js.

Definition char := N.
Definition jsstring := list char.

(** A literal of the source, code unit by code unit. *)
Fixpoint lit (s : string) : jsstring :=
  match s with
  | EmptyString => []
  | String a s' => N_of_ascii a :: lit s'
  end.

Arguments lit _%_string.

(** Template-literal rendering of a non-negative integer. *)
Definition showNat (n : nat) : jsstring :=
  match n with
  | O => lit "0"
  | _ => lit (NilEmpty.string_of_uint (Nat.to_uint n))
  end.

Definition SPACE : char := 32%N.
Definition NEWLINE : char := 10%N.
Definition DQUOTE : char := 34%N.

(** The characters matched by [\s] in a regular expression, which are also
    the ones [String.prototype.trim] strips: WhiteSpace and LineTerminator
    of ECMAScript. *)
Definition isWhiteSpace (c : char) : bool :=
  ((9 <=? c) && (c <=? 13) || (c =? 32) || (c =? 160) || (c =? 5760)
   || (8192 <=? c) && (c <=? 8202) || (c =? 8232) || (c =? 8233)
   || (c =? 8239) || (c =? 8287) || (c =? 12288) || (c =? 65279))%N.

(** The class [[.!?]]. *)
Definition isTerminator (c : char) : bool :=
  ((c =? 46) || (c =? 33) || (c =? 63))%N.

(** Truthiness of a string: it is not empty. *)
Definition truthy (s : jsstring) : bool :=
  match s with [] => false | _ :: _ => true end.

Fixpoint dropWhile (p : char -> bool) (s : jsstring) : jsstring :=
  match s with
  | [] => []
  | c :: s' => if p c then dropWhile p s' else s
  end.

Definition trimStart (s : jsstring) : jsstring := dropWhile isWhiteSpace s.
Definition trimEnd (s : jsstring) : jsstring := rev (dropWhile isWhiteSpace (rev s)).
Definition trim (s : jsstring) : jsstring := trimEnd (trimStart s).

(** [s.substring(0, n)] and [s.substring(n)] for [0 <= n]. *)
Definition substringTo (n : nat) (s : jsstring) : jsstring := firstn n s.
Definition substringFrom (n : nat) (s : jsstring) : jsstring := skipn n s.

(** Put [c] in front of the first piece of a split. *)
Definition consHead (c : char) (l : list jsstring) : list jsstring :=
  match l with
  | [] => [[c]]
  | w :: ws => (c :: w) :: ws
  end.

(** [s.split(' ')]: the pieces between the occurrences of the separator;
    the empty string gives one empty piece. *)
Fixpoint splitSpace (s : jsstring) : list jsstring :=
  match s with
  | [] => [[]]
  | c :: s' => if (c =? SPACE)%N then [] :: splitSpace s'
               else consHead c (splitSpace s')
  end.

(** [s.split(/(?<=[.!?])\s+/)].  A separator is a maximal run of white
    space whose first character follows one of [.!?]; the run is dropped
    and the pieces between the separators are returned.  [inSep] tells that
    the previous character belonged to a separator, [afterTerm] that it was
    one of [.!?].  A separator that ends the string leaves a last, empty
    piece.  [regexpSplit] below is the algorithm of the language itself,
    and gives the same pieces (lemma [regexpSplit_splitSentences]). *)
Fixpoint splitSentencesFrom (inSep afterTerm : bool) (s : jsstring)
  : list jsstring :=
  match s with
  | [] => [[]]
  | c :: s' =>
      if isWhiteSpace c then
        if inSep then splitSentencesFrom true false s'
        else if afterTerm then [] :: splitSentencesFrom true false s'
        else consHead c (splitSentencesFrom false false s')
      else consHead c (splitSentencesFrom false (isTerminator c) s')
  end.

Definition splitSentences (s : jsstring) : list jsstring :=
  splitSentencesFrom false false s.

(** The same split as ECMAScript defines it for a regular expression
    ([RegExp.prototype[Symbol.split]]), by positions: [p] is where the
    current piece starts and [q] where a match is tried; the matcher must
    match at [q] exactly. *)

(** The length of the longest run of white space that [s] starts with. *)
Fixpoint blankPrefix (s : jsstring) : nat :=
  match s with
  | [] => 0
  | c :: s' => if isWhiteSpace c then S (blankPrefix s') else 0
  end.

(** The character before position [q] is one of [.!?]: the lookbehind. *)
Definition terminatorBefore (s : jsstring) (q : nat) : bool :=
  match q with
  | O => false
  | S q' => match nth_error s q' with
            | Some c => isTerminator c
            | None => false
            end
  end.

(** The match of [/(?<=[.!?])\s+/] at [q]: the position where it ends. *)
Definition matchSeparatorAt (s : jsstring) (q : nat) : option nat :=
  if terminatorBefore s q then
    let run := blankPrefix (skipn q s) in
    if 0 <? run then Some (q + run) else None
  else None.

(** The loop of the split; [fuel] bounds its turns, and the length of [s]
    is enough of it as [q] grows at each turn. *)
Fixpoint splitLoop (fuel : nat) (s : jsstring) (p q : nat) : list jsstring :=
  match fuel with
  | O => [skipn p s]
  | S fuel' =>
      if q <? length s then
        match matchSeparatorAt s q with
        | None => splitLoop fuel' s p (q + 1)
        | Some e =>
            if e =? p then splitLoop fuel' s p (q + 1)
            else firstn (q - p) (skipn p s) :: splitLoop fuel' s e e
        end
      else [skipn p s]
  end.

Definition regexpSplit (s : jsstring) : list jsstring :=
  match s with
  | [] => [[]]
  | _ => splitLoop (length s) s 0 0
  end.

(** [a === b] on strings. *)
Fixpoint eqbString (a b : jsstring) : bool :=
  match a, b with
  | [], [] => true
  | x :: a', y :: b' => (x =? y)%N && eqbString a' b'
  | _, _ => false
  end.

(** [hay.includes(needle)] *)
Fixpoint startsWith (needle hay : jsstring) : bool :=
  match needle, hay with
  | [], _ => true
  | _ :: _, [] => false
  | a :: n', b :: h' => (a =? b)%N && startsWith n' h'
  end.

Fixpoint includes (needle hay : jsstring) : bool :=
  startsWith needle hay ||
  match hay with
  | [] => false
  | _ :: h' => includes needle h'
  end.

(** [parts.join(sep)]; also used for lists of calls. *)
Fixpoint join {A : Type} (sep : list A) (parts : list (list A)) : list A :=
  match parts with
  | [] => []
  | [p] => p
  | p :: rest => p ++ sep ++ join sep rest
  end.

End Js.
Import Js.

(** ** The chunker *)

Definition MAX_CHUNK_SIZE : nat := 4000.

(** One turn of the loop over the words of a sentence that is too long:
    the state is the array [chunks] and the buffer [wordChunk]. *)
Definition wordStep (st : list jsstring * jsstring) (word : jsstring)
  : list jsstring * jsstring :=
  let '(chunks, wordChunk) := st in
  if MAX_CHUNK_SIZE <? length (wordChunk ++ [SPACE] ++ word) then
    if truthy wordChunk then (chunks ++ [trim wordChunk], word)
    else (chunks ++ [substringTo MAX_CHUNK_SIZE word],
          substringFrom MAX_CHUNK_SIZE word)
  else
    (chunks, if truthy wordChunk then wordChunk ++ [SPACE] ++ word else word).

(** One turn of the loop over the sentences: the state is the array
    [chunks] and the buffer [currentChunk]. *)
Definition sentenceStep (st : list jsstring * jsstring) (sentence : jsstring)
  : list jsstring * jsstring :=
  let '(chunks, currentChunk) := st in
  if MAX_CHUNK_SIZE <? length sentence then
    let '(chunks1, currentChunk1) :=
      if truthy currentChunk then (chunks ++ [trim currentChunk], [])
      else (chunks, currentChunk) in
    let '(chunks2, wordChunk) :=
      fold_left wordStep (splitSpace sentence) (chunks1, []) in
    (chunks2, if truthy wordChunk then wordChunk else currentChunk1)
  else
    if MAX_CHUNK_SIZE <? length (currentChunk ++ [SPACE] ++ sentence) then
      (if truthy currentChunk then chunks ++ [trim currentChunk] else chunks,
       sentence)
    else
      (chunks,
       if truthy currentChunk then currentChunk ++ [SPACE] ++ sentence
       else sentence).

Definition chunkText (text : jsstring) : list jsstring :=
  if length text <=? MAX_CHUNK_SIZE then [text]
  else
    let '(chunks, currentChunk) :=
      fold_left sentenceStep (splitSentences text) ([], []) in
    let chunks' :=
      if truthy currentChunk then chunks ++ [trim currentChunk] else chunks in
    filter (fun chunk => 0 <? length chunk) chunks'.

(** ** The outside world and the programs that talk to it *)

(** What a [catch] clause receives: an [Error] object, with the [code]
    property the service sets on some of its errors and the [message]; or
    [undefined], which [convertSingleChunk] throws when it is given no
    attempt to make. *)
Inductive exn :=
| Undefined
| Err (code : option jsstring) (message : jsstring).

Inductive outcome (A : Type) :=
| Returned (a : A)
| Threw (e : exn).

Arguments Returned {A} a.
Arguments Threw {A} e.

(** The lines written on the console. *)
Inductive notice :=
| ChunkInfo (chunkIndex : nat) (truncatedText : jsstring) (textLength : nat)
| RetryWarning (chunkIndex attempt maxRetries : nat)
| SplittingInfo (textLength nChunks : nat)
| FileSize (bytes : N)
| VoiceInfo (voice : jsstring)
| FormatInfo (audioFormat : jsstring)
| ChunksProcessed (nChunks : nat).

Inductive spinnerOp := Start | Text | Succeed | Fail.

(** The calls a run makes to its collaborators, in the order it makes
    them.  [SpeechCreate] is [openai.audio.speech.create] together with
    the reading of the response body. *)
Inductive call :=
| SpeechCreate (model voice input response_format : jsstring)
| WriteFile (path data : jsstring)
| Unlink (path : jsstring)
| Stat (path : jsstring)
| Exec (command : jsstring)
| SetTimeout (ms : N)
| ConsoleLog (line : notice)
| Spinner (op : spinnerOp) (text : jsstring).

(** The collaborators answer a call knowing all the calls made before. *)
Record World := {
  speech_create : list call -> jsstring -> jsstring -> jsstring -> jsstring
                  -> outcome jsstring;
  fs_writeFile : list call -> jsstring -> jsstring -> outcome unit;
  fs_unlink : list call -> jsstring -> outcome unit;
  fs_stat : list call -> jsstring -> outcome N;
  execAsync : list call -> jsstring -> outcome unit
}.

(** A program is run after the calls [h] and gives its outcome and the
    calls it made. *)
Definition prog (A : Type) : Type := list call -> outcome A * list call.

Definition ret {A} (a : A) : prog A := fun _ => (Returned a, []).

Definition throw {A} (e : exn) : prog A := fun _ => (Threw e, []).

Definition bind {A B} (m : prog A) (k : A -> prog B) : prog B :=
  fun h =>
    match m h with
    | (Returned a, ev) =>
        let '(r, ev') := k a (h ++ ev) in (r, ev ++ ev')
    | (Threw e, ev) => (Threw e, ev)
    end.

(** [try { m } catch (error) { handler }] *)
Definition tryCatch {A} (m : prog A) (handler : exn -> prog A) : prog A :=
  fun h =>
    match m h with
    | (Returned a, ev) => (Returned a, ev)
    | (Threw e, ev) =>
        let '(r, ev') := handler e (h ++ ev) in (r, ev ++ ev')
    end.

Notation "x <- m ;; k" := (bind m (fun x => k))
  (at level 61, m at next level, right associativity).
Notation "m ;; k" := (bind m (fun _ => k))
  (at level 61, right associativity).

(** A call that cannot fail. *)
Definition emit (c : call) : prog unit := fun _ => (Returned tt, [c]).

Section Pipeline.

Variable w : World.

Definition speechCreate (model voice input response_format : jsstring)
  : prog jsstring :=
  fun h => (speech_create w h model voice input response_format,
            [SpeechCreate model voice input response_format]).

Definition writeFile (path data : jsstring) : prog unit :=
  fun h => (fs_writeFile w h path data, [WriteFile path data]).

Definition unlink (path : jsstring) : prog unit :=
  fun h => (fs_unlink w h path, [Unlink path]).

Definition stat (path : jsstring) : prog N :=
  fun h => (fs_stat w h path, [Stat path]).

Definition exec (command : jsstring) : prog unit :=
  fun h => (execAsync w h command, [Exec command]).

(** [for (const x of xs) { await f(x) }] *)
Fixpoint forEach {A} (f : A -> prog unit) (xs : list A) : prog unit :=
  match xs with
  | [] => ret tt
  | x :: xs' => f x ;; forEach f xs'
  end.

Record Config := {
  apiKey : jsstring;
  voice : jsstring;
  audioFormat : jsstring;
  output : jsstring
}.

Variable config : Config.

(** *** The segment converter *)

Definition truncatedText (text : jsstring) : jsstring :=
  if 50 <? length text
  then substringTo 20 text ++ lit "..." ++ substringFrom (length text - 20) text
  else text.

Definition tempPath (chunkIndex : nat) : jsstring :=
  output config ++ lit "_chunk_" ++ showNat chunkIndex ++ lit "."
  ++ audioFormat config.

(** The body of the [try] block: one attempt. *)
Definition attemptConversion (text : jsstring) (chunkIndex : nat)
  : prog jsstring :=
  buffer <- speechCreate (lit "tts-1") (voice config) text (audioFormat config) ;;
  writeFile (tempPath chunkIndex) buffer ;;
  ret (tempPath chunkIndex).

(** The loop [for (attempt = 1; attempt <= maxRetries; attempt++)] from
    [attempt] on, with [remaining] turns to go; after it [throw lastError]. *)
Fixpoint retryLoop (text : jsstring) (chunkIndex maxRetries : nat)
    (remaining attempt : nat) (lastError : exn) : prog jsstring :=
  match remaining with
  | O => throw lastError
  | S remaining' =>
      tryCatch (attemptConversion text chunkIndex)
        (fun error =>
           (if attempt <? maxRetries then
              emit (ConsoleLog (RetryWarning chunkIndex attempt maxRetries)) ;;
              emit (SetTimeout (1000 * N.of_nat attempt))
            else ret tt) ;;
           retryLoop text chunkIndex maxRetries remaining' (S attempt) error)
  end.

Definition convertSingleChunkWith (maxRetries : nat) (text : jsstring)
    (chunkIndex : nat) : prog jsstring :=
  emit (ConsoleLog (ChunkInfo chunkIndex (truncatedText text) (length text))) ;;
  retryLoop text chunkIndex maxRetries maxRetries 1 Undefined.

(** [maxRetries = 3] is the default, and no caller gives another. *)
Definition convertSingleChunk : jsstring -> nat -> prog jsstring :=
  convertSingleChunkWith 3.

(** *** The merger *)

Definition listPath : jsstring := lit "chunks_list.txt".

Definition listContent (chunkPaths : list jsstring) : jsstring :=
  join [NEWLINE] (map (fun path => lit "file '" ++ path ++ lit "'") chunkPaths).

Definition ffmpegCmd (outputPath : jsstring) : jsstring :=
  lit "ffmpeg -f concat -safe 0 -i " ++ [DQUOTE] ++ listPath ++ [DQUOTE]
  ++ lit " -c copy " ++ [DQUOTE] ++ outputPath ++ [DQUOTE] ++ lit " -y".

Definition mergeFailed : exn :=
  Err None (lit "Failed to merge audio files. Please ensure ffmpeg is installed on your system.").

Definition mergeAudioFiles (chunkPaths : list jsstring)
    (outputPath audioFormat : jsstring) : prog unit :=
  writeFile listPath (listContent chunkPaths) ;;
  tryCatch
    (exec (ffmpegCmd outputPath) ;;
     unlink listPath ;;
     forEach unlink chunkPaths)
    (fun _ => throw mergeFailed).

(** *** The orchestrator *)

(** [spinner.text = `Converting chunk ${i + 1}/${chunks.length}...`] *)
Definition convertingNotice (nChunks i : nat) : call :=
  Spinner Text (lit "Converting chunk " ++ showNat (i + 1) ++ lit "/"
                ++ showNat nChunks ++ lit "...").

(** The loop [for (let i = 0; i < chunks.length; i++)] from [i] on, over
    the chunks that remain; [nChunks] is [chunks.length]. *)
Fixpoint convertChunks (nChunks i : nat) (remaining chunkPaths : list jsstring)
  : prog (list jsstring) :=
  match remaining with
  | [] => ret chunkPaths
  | chunk :: remaining' =>
      emit (convertingNotice nChunks i) ;;
      chunkPath <- convertSingleChunk chunk (i + 1) ;;
      (if i <? nChunks - 1 then emit (SetTimeout 1000) else ret tt) ;;
      convertChunks nChunks (S i) remaining' (chunkPaths ++ [chunkPath])
  end.

(** [error.code === s]; an error may have no [code]. *)
Definition codeIs (code : option jsstring) (s : jsstring) : bool :=
  match code with
  | Some c => eqbString c s
  | None => false
  end.

(** What the [catch] clause of [convertTextToSpeech] throws for what it
    caught.  Reading [error.code] of [undefined] is a [TypeError]. *)
Definition dispatchError (error : exn) : exn :=
  match error with
  | Undefined =>
      Err None (lit "Cannot read properties of undefined (reading 'code')")
  | Err code message =>
      if codeIs code (lit "invalid_api_key") then
        Err None (lit "Invalid OpenAI API key")
      else if codeIs code (lit "insufficient_quota") then
        Err None (lit "OpenAI API quota exceeded")
      else if includes (lit "rate limit") message then
        Err None (lit "OpenAI API rate limit exceeded. Please try again later.")
      else if includes (lit "ffmpeg") message then
        error
      else
        Err None (lit "OpenAI API error: " ++ message)
  end.

Definition outputPathOf : jsstring :=
  output config ++ lit "." ++ audioFormat config.

(** The branch [chunks.length === 1]: it sends [text] itself. *)
Definition convertDirect (text outputPath : jsstring) : prog unit :=
  emit (Spinner Text (lit "Converting text to speech...")) ;;
  buffer <- speechCreate (lit "tts-1") (voice config) text
              (audioFormat config) ;;
  emit (Spinner Text (lit "Saving audio file...")) ;;
  writeFile outputPath buffer.

(** The other branch. *)
Definition convertInChunks (text : jsstring) (chunks : list jsstring)
    (outputPath : jsstring) : prog unit :=
  emit (Spinner Text (lit "Processing " ++ showNat (length chunks)
                      ++ lit " chunks...")) ;;
  emit (ConsoleLog (SplittingInfo (length text) (length chunks))) ;;
  chunkPaths <- convertChunks (length chunks) 0 chunks [] ;;
  emit (Spinner Text (lit "Merging audio files...")) ;;
  mergeAudioFiles chunkPaths outputPath (audioFormat config).

(** The end of the [try] block, after the two branches. *)
Definition reportSuccess (chunks : list jsstring) (outputPath : jsstring)
  : prog unit :=
  emit (Spinner Succeed (lit "Audio saved to: " ++ outputPath)) ;;
  size <- stat outputPath ;;
  emit (ConsoleLog (FileSize size)) ;;
  emit (ConsoleLog (VoiceInfo (voice config))) ;;
  emit (ConsoleLog (FormatInfo (audioFormat config))) ;;
  (if 1 <? length chunks
   then emit (ConsoleLog (ChunksProcessed (length chunks)))
   else ret tt).

(** The [try] block.  The client object made first, [new OpenAI], makes no
    call. *)
Definition tryBlock (text : jsstring) : prog unit :=
  let chunks := chunkText text in
  let outputPath := outputPathOf in
  (if length chunks =? 1 then convertDirect text outputPath
   else convertInChunks text chunks outputPath) ;;
  reportSuccess chunks outputPath.

Definition convertTextToSpeech (text : jsstring) : prog unit :=
  emit (Spinner Start (lit "Analyzing text...")) ;;
  tryCatch (tryBlock text)
    (fun error =>
       emit (Spinner Fail (lit "Conversion failed")) ;;
       throw (dispatchError error)).

End Pipeline.

(** ** The front end: the command line, the questions, the text *)

Definition VOICES : list jsstring :=
  [lit "alloy"; lit "echo"; lit "fable"; lit "onyx"; lit "nova"; lit "shimmer"].

Definition AUDIO_FORMATS : list jsstring :=
  [lit "mp3"; lit "opus"; lit "aac"; lit "flac"; lit "wav"; lit "pcm"].

Definition SUPPORTED_FORMATS : list (jsstring * jsstring) :=
  [(lit ".txt", lit "text/plain");
   (lit ".md", lit "text/markdown");
   (lit ".json", lit "application/json");
   (lit ".js", lit "text/javascript");
   (lit ".ts", lit "text/typescript");
   (lit ".html", lit "text/html");
   (lit ".css", lit "text/css");
   (lit ".xml", lit "text/xml");
   (lit ".csv", lit "text/csv")].

(** [array.includes(s)] on an array of strings. *)
Definition arrayIncludes (array : list jsstring) (s : jsstring) : bool :=
  existsb (eqbString s) array.

(** [object[key]] on an object literal; the keys asked for are file
    extensions, empty or starting with a dot, which name no inherited
    property. *)
Fixpoint property (object : list (jsstring * jsstring)) (key : jsstring)
  : option jsstring :=
  match object with
  | [] => None
  | (k, v) :: object' =>
      if eqbString k key then Some v else property object' key
  end.

(** Truthiness of a value that is a string or [undefined]. *)
Definition truthyValue (v : option jsstring) : bool :=
  match v with
  | Some s => truthy s
  | None => false
  end.

(** [a || b] *)
Definition orElse (a b : option jsstring) : option jsstring :=
  if truthyValue a then a else b.

(** Template-literal rendering of a string or [undefined]. *)
Definition showValue (v : option jsstring) : jsstring :=
  match v with
  | Some s => s
  | None => lit "undefined"
  end.

(** The flags of the command line, each given or not. *)
Module argv.
Record t := {
  apiKey : option jsstring;
  text : option jsstring;
  file : option jsstring;
  voice : option jsstring;
  audioFormat : option jsstring;
  output : option jsstring
}.
End argv.

(** [program.opts()]: a flag that is not given is [undefined], but for
    [--output], declared with the default value ['output']. *)
Module options.
Record t := {
  apiKey : option jsstring;
  text : option jsstring;
  file : option jsstring;
  voice : option jsstring;
  audioFormat : option jsstring;
  output : jsstring
}.
End options.

Definition opts (flags : argv.t) : options.t :=
  {| options.apiKey := argv.apiKey flags;
     options.text := argv.text flags;
     options.file := argv.file flags;
     options.voice := argv.voice flags;
     options.audioFormat := argv.audioFormat flags;
     options.output := match argv.output flags with
                       | Some filename => filename
                       | None => lit "output"
                       end |}.

(** The variables of [process.env] that the program reads. *)
Record Env := {
  OPENAI_API_KEY : option jsstring;
  READING_LAMP_API_KEY : option jsstring;
  READING_LAMP_VOICE : option jsstring;
  READING_LAMP_AUDIO_FORMAT : option jsstring;
  READING_LAMP_OUTPUT : option jsstring
}.

(** The object that [getConfiguration] builds: the four properties that
    the pipeline reads, the source of the text, and [text] or [filePath],
    the other one being left [undefined]. *)
Module Configuration.
Record t := {
  settings : Config;
  textSource : jsstring;
  text : option jsstring;
  filePath : option jsstring
}.
End Configuration.

(** The questions of [inquirer.prompt], by the [name] of the answer. *)
Inductive question :=
| AskApiKey | AskTextSource | AskText | AskFilePath | AskVoice
| AskAudioFormat.

(** What is done to the spinner of [getTextContent]. *)
Inductive readingOp :=
| ReadingStart | ReadingWarn | ReadingSucceed | ReadingFail.

(** What the front end does, in order; [Conversion] is a call of the
    pipeline. *)
Inductive step :=
| Banner
| Prompt (q : question)
| Access (path : option jsstring)
| ReadFile (path : jsstring)
| Reading (op : readingOp) (text : jsstring)
| Conversion (c : call)
| Completed
| ErrorLine (message : jsstring)
| UnexpectedErrorLine (message : jsstring)
| Exit (code : nat).

(** The collaborators of the front end.  Each is asked once at most in
    a run.  [path.resolve] and [fs.access] are given what the
    configuration holds, be it [undefined], which they refuse. *)
Record Host := {
  inquirer_prompt : question -> outcome jsstring;
  fs_access : option jsstring -> outcome unit;
  fs_readFile : jsstring -> outcome jsstring;
  path_resolve : option jsstring -> outcome jsstring;
  path_extname : jsstring -> jsstring;
  toLowerCase : jsstring -> jsstring
}.

(** A program of the front end gives its outcome and the steps it made. *)
Module Front.

Definition t (A : Type) : Type := (outcome A * list step)%type.

Definition ret {A} (a : A) : t A := (Returned a, []).

Definition throw {A} (e : exn) : t A := (Threw e, []).

Definition bind {A B} (m : t A) (k : A -> t B) : t B :=
  match m with
  | (Returned a, ev) => let '(r, ev') := k a in (r, ev ++ ev')
  | (Threw e, ev) => (Threw e, ev)
  end.

Definition tryCatch {A} (m : t A) (handler : exn -> t A) : t A :=
  match m with
  | (Returned a, ev) => (Returned a, ev)
  | (Threw e, ev) => let '(r, ev') := handler e in (r, ev ++ ev')
  end.

Definition emit (s : step) : t unit := (Returned tt, [s]).

End Front.

Declare Scope front_scope.
Notation "x <- m ;; k" := (Front.bind m (fun x => k))
  (at level 61, m at next level, right associativity) : front_scope.
Notation "m ;; k" := (Front.bind m (fun _ => k))
  (at level 61, right associativity) : front_scope.

Section FrontEnd.

Local Open Scope front_scope.

Variable host : Host.
Variable options : options.t.
Variable env : Env.

Definition prompt (q : question) : Front.t jsstring :=
  (inquirer_prompt host q, [Prompt q]).

Definition access (path : option jsstring) : Front.t unit :=
  (fs_access host path, [Access path]).

Definition readFile (path : jsstring) : Front.t jsstring :=
  (fs_readFile host path, [ReadFile path]).

(** [config.x = value; if (!config.x) { config.x = (await prompt(q)).x }] *)
Definition orAsk (value : option jsstring) (q : question)
  : Front.t jsstring :=
  match value with
  | Some s => if truthy s then Front.ret s else prompt q
  | None => prompt q
  end.

(** The block [// Text or File] of [getConfiguration]: the source, the
    text and the file path it leaves in the configuration. *)
Definition textOrFile
  : Front.t (jsstring * option jsstring * option jsstring) :=
  if truthyValue (options.text options) then
    Front.ret (lit "direct", options.text options, None)
  else if truthyValue (options.file options) then
    Front.ret (lit "file", None, options.file options)
  else
    textSource <- prompt AskTextSource ;;
    if eqbString textSource (lit "direct") then
      text <- prompt AskText ;;
      Front.ret (textSource, Some text, None)
    else
      filePath <- prompt AskFilePath ;;
      Front.ret (textSource, None, Some filePath).

Definition getConfiguration : Front.t Configuration.t :=
  apiKey <- orAsk (orElse (options.apiKey options)
                     (orElse (OPENAI_API_KEY env) (READING_LAMP_API_KEY env)))
              AskApiKey ;;
  source <- textOrFile ;;
  voice <- orAsk (orElse (options.voice options) (READING_LAMP_VOICE env))
             AskVoice ;;
  audioFormat <- orAsk (orElse (options.audioFormat options)
                          (READING_LAMP_AUDIO_FORMAT env))
                   AskAudioFormat ;;
  let output :=
    showValue (orElse (Some (options.output options))
                 (orElse (READING_LAMP_OUTPUT env) (Some (lit "output")))) in
  let '(textSource, text, filePath) := source in
  Front.ret {| Configuration.settings :=
                 {| apiKey := apiKey; voice := voice;
                    audioFormat := audioFormat; output := output |};
               Configuration.textSource := textSource;
               Configuration.text := text;
               Configuration.filePath := filePath |}.

Definition invalidKey : exn := Err None (lit "Invalid OpenAI API key format").

Definition invalidVoice : exn :=
  Err None (lit "Invalid voice. Supported voices: " ++ join (lit ", ") VOICES).

Definition invalidFormat : exn :=
  Err None (lit "Invalid audio format. Supported formats: "
            ++ join (lit ", ") AUDIO_FORMATS).

Definition fileNotFound (filePath : option jsstring) : exn :=
  Err None (lit "File not found: " ++ showValue filePath).

Definition validateConfiguration (config : Configuration.t) : Front.t unit :=
  let s := Configuration.settings config in
  (if negb (truthy (apiKey s)) || negb (startsWith (lit "sk-") (apiKey s))
   then Front.throw invalidKey else Front.ret tt) ;;
  (if negb (arrayIncludes VOICES (voice s))
   then Front.throw invalidVoice else Front.ret tt) ;;
  (if negb (arrayIncludes AUDIO_FORMATS (audioFormat s))
   then Front.throw invalidFormat else Front.ret tt) ;;
  if eqbString (Configuration.textSource config) (lit "file") then
    Front.tryCatch (access (Configuration.filePath config))
      (fun _ => Front.throw (fileNotFound (Configuration.filePath config)))
  else Front.ret tt.

Definition fileIsEmpty : exn := Err None (lit "File is empty").

Definition getTextContent (config : Configuration.t)
  : Front.t (option jsstring) :=
  if eqbString (Configuration.textSource config) (lit "direct") then
    Front.ret (Configuration.text config)
  else
    Front.emit (Reading ReadingStart (lit "Reading file...")) ;;
    Front.tryCatch
      (filePath <- (path_resolve host (Configuration.filePath config), []) ;;
       let ext := toLowerCase host (path_extname host filePath) in
       (if negb (truthyValue (property SUPPORTED_FORMATS ext)) then
          Front.emit (Reading ReadingWarn
                        (lit "Unknown file type: " ++ ext
                         ++ lit ". Attempting to read as plain text."))
        else Front.ret tt) ;;
       content <- readFile filePath ;;
       (if negb (truthy (trim content)) then Front.throw fileIsEmpty
        else Front.ret tt) ;;
       Front.emit (Reading ReadingSucceed
                     (lit "File read successfully ("
                      ++ showNat (length content) ++ lit " characters)")) ;;
       Front.ret (Some content))
      (fun error =>
         Front.emit (Reading ReadingFail (lit "Failed to read file")) ;;
         Front.throw error).

Variable w : World.

(** [convertTextToSpeech(config, text)] as [main] calls it.  Were [text]
    [undefined], [chunkText] would fail on [text.length] inside the [try]
    block, and the [catch] clause would dispatch that error. *)
Definition convert (config : Config) (text : option jsstring)
  : Front.t unit :=
  match text with
  | Some text =>
      let '(r, ev) := convertTextToSpeech w config text [] in
      (r, map Conversion ev)
  | None =>
      (Threw (dispatchError
                (Err None (lit "Cannot read properties of undefined (reading 'length')"))),
       map Conversion [Spinner Start (lit "Analyzing text...");
                       Spinner Fail (lit "Conversion failed")])
  end.

(** The [try] block of [main]. *)
Definition mainBody : Front.t unit :=
  Front.emit Banner ;;
  config <- getConfiguration ;;
  validateConfiguration config ;;
  text <- getTextContent config ;;
  convert (Configuration.settings config) text ;;
  Front.emit Completed.

(** [main]: what is thrown is reported and ends the process with the
    status 1.  Reading [error.message] of [undefined] fails in the [catch]
    clause, which the handler of [unhandledRejection] reports. *)
Definition main : list step :=
  match mainBody with
  | (Returned _, ev) => ev
  | (Threw (Err _ message), ev) => ev ++ [ErrorLine message; Exit 1]
  | (Threw Undefined, ev) =>
      ev ++ [UnexpectedErrorLine
               (lit "Cannot read properties of undefined (reading 'message')");
             Exit 1]
  end.

End FrontEnd.

(** * Part 2: the vocabulary of the properties *)

(** ** Of strings and of the chunker *)

(** The characters of a string that are not white space, in order: what a
    whitespace normalization may not change. *)
Definition content (s : jsstring) : jsstring :=
  filter (fun c => negb (isWhiteSpace c)) s.

(** What a state of one of the two loops holds: the chunks pushed so far,
    then the buffer. *)
Definition held (st : list jsstring * jsstring) : jsstring :=
  content (concat (fst st)) ++ content (snd st).

(** [s] is empty or starts with white space. *)
Definition startsBlank (s : jsstring) : bool :=
  match s with [] => true | c :: _ => isWhiteSpace c end.

(** The words of a string: its maximal runs of characters that are not
    white space, as [s.split(/\s+/).filter(w => w)] gives them. *)
Fixpoint wordsOf (s : jsstring) : list jsstring :=
  match s with
  | [] => []
  | c :: s' =>
      if isWhiteSpace c then wordsOf s'
      else if startsBlank s' then [c] :: wordsOf s'
      else consHead c (wordsOf s')
  end.

Definition blank (z : jsstring) : Prop := Forall (fun c => isWhiteSpace c = true) z.

(** A string cut in pieces at runs of white space: the pieces, and between
    two of them a run that is not empty. *)
Inductive Pieces : jsstring -> list jsstring -> Prop :=
| Pieces_last p : Pieces p [p]
| Pieces_more p z s ps :
    z <> [] -> blank z -> Pieces s ps -> Pieces (p ++ z ++ s) (p :: ps).

(** No run of [s] without a space is longer than the limit: then the
    chunker never has to cut inside a word. *)
Definition shortTokens (s : jsstring) : bool :=
  forallb (fun w => length w <=? MAX_CHUNK_SIZE) (splitSpace s).

Definition Short (n : nat) (s : jsstring) : Prop :=
  Forall (fun w => length w <= n) (splitSpace s).

Definition heldWords (st : list jsstring * jsstring) : list jsstring :=
  concat (map wordsOf (fst st)) ++ wordsOf (snd st).

(** The forced split of the word loop (lines 244-247) takes [word] as a
    single word and cuts it after [MAX_CHUNK_SIZE] characters.  The cut
    falls inside a word when the character before it and the character
    after it are both not white space. *)
Definition cutsWord (word : jsstring) : bool :=
  negb (startsBlank (rev (substringTo MAX_CHUNK_SIZE word)))
  && negb (startsBlank (substringFrom MAX_CHUNK_SIZE word)).

(** The pieces that the word loop, entered with the buffer [wordChunk],
    splits by force: those that do not fit while the buffer is empty (the
    [else] of line 244). *)
Fixpoint forceSplits (words : list jsstring) (wordChunk : jsstring)
  : list jsstring :=
  match words with
  | [] => []
  | word :: words' =>
      (if (MAX_CHUNK_SIZE <? length (wordChunk ++ [SPACE] ++ word))
          && negb (truthy wordChunk)
       then [word] else [])
      ++ forceSplits words' (snd (wordStep ([], wordChunk) word))
  end.

(** The pieces of a sentence that the chunker splits by force: those of
    its word loop, which a sentence that is too long enters with an empty
    buffer. *)
Definition forceSplitsIn (sentence : jsstring) : list jsstring :=
  if MAX_CHUNK_SIZE <? length sentence
  then forceSplits (splitSpace sentence) [] else [].

(** The pieces of a text that the chunker splits by force. *)
Definition forceSplitsOf (text : jsstring) : list jsstring :=
  if length text <=? MAX_CHUNK_SIZE then []
  else flat_map forceSplitsIn (splitSentences text).

(** No forced split of the text falls inside a word. *)
Definition wordsWhole (text : jsstring) : bool :=
  forallb (fun word => negb (cutsWord word)) (forceSplitsOf text).

(** The number of forced splits that fall inside a word. *)
Definition cuts (words : list jsstring) : nat := length (filter cutsWord words).

(** A tidy string starts and ends with a character that is not white
    space and has no two white-space characters in a row. *)
Inductive Tidy : jsstring -> Prop :=
| Tidy_one c : isWhiteSpace c = false -> Tidy [c]
| Tidy_char c t : isWhiteSpace c = false -> Tidy t -> Tidy (c :: t)
| Tidy_gap c d t :
    isWhiteSpace c = false -> isWhiteSpace d = true -> Tidy t ->
    Tidy (c :: d :: t).

Fixpoint tidy (s : jsstring) : bool :=
  match s with
  | [] => false
  | c :: s' =>
      negb (isWhiteSpace c) &&
      match s' with
      | [] => true
      | d :: s'' => if isWhiteSpace d then tidy s'' else tidy s'
      end
  end.

(** The characters of the pieces, and one more for each piece. *)
Definition weight (ps : list jsstring) : nat :=
  list_sum (map (fun p => S (length p)) ps).

(** The step that the two loops of the chunker share when the piece is
    short: flush the buffer if the piece does not fit, else append. *)
Definition accStep (st : list jsstring * jsstring) (piece : jsstring)
  : list jsstring * jsstring :=
  let '(chunks, buffer) := st in
  if truthy buffer then
    if MAX_CHUNK_SIZE <? length (buffer ++ [SPACE] ++ piece)
    then (chunks ++ [trim buffer], piece)
    else (chunks, buffer ++ [SPACE] ++ piece)
  else (chunks, piece).

(** What holds of the state of the shared step once a piece was taken, the
    pieces taken so far weighing [n]: the chunks and the buffer are tidy,
    the buffer fits, and as long as nothing was flushed the buffer holds
    all the pieces. *)
Definition Accumulated (st : list jsstring * jsstring) (n : nat) : Prop :=
  Forall Tidy (fst st) /\ Tidy (snd st) /\ length (snd st) <= MAX_CHUNK_SIZE /\
  (fst st = [] -> S (length (snd st)) = n).

(** Put [pre] in front of the first piece. *)
Definition prepend (pre : jsstring) (l : list jsstring) : list jsstring :=
  match l with
  | [] => [pre]
  | x :: xs => (pre ++ x) :: xs
  end.

(** The chunks pushed and the buffer are within the limit. *)
Definition Fits (st : list jsstring * jsstring) : Prop :=
  Forall (fun chunk => length chunk <= MAX_CHUNK_SIZE) (fst st) /\
  length (snd st) <= MAX_CHUNK_SIZE.

(** ** Of the calls of a run *)

Definition isSpeechCreate (c : call) : bool :=
  match c with SpeechCreate _ _ _ _ => true | _ => false end.

(** The number of synthesis requests. *)
Definition speechCalls (ev : list call) : nat :=
  length (filter isSpeechCreate ev).

(** The delays waited for, in order. *)
Definition delays (ev : list call) : list N :=
  flat_map (fun c => match c with SetTimeout ms => [ms] | _ => [] end) ev.

(** The chunks whose conversion was started, in order. *)
Definition startedChunks (ev : list call) : list nat :=
  flat_map (fun c => match c with
                     | ConsoleLog (ChunkInfo i _ _) => [i]
                     | _ => []
                     end) ev.

(** The backoff before the attempt after [attempt]. *)
Definition backoff (attempt : nat) : N := (1000 * N.of_nat attempt)%N.

(** The calls of an attempt that failed and of the wait after it. *)
Definition retryEvent (config : Config) (text : jsstring) (chunkIndex : nat) (c : call) : Prop :=
  match c with
  | SpeechCreate model v input format =>
      model = lit "tts-1" /\ v = voice config /\ input = text
      /\ format = audioFormat config
  | WriteFile path _ => path = tempPath config chunkIndex
  | ConsoleLog (RetryWarning i _ _) => i = chunkIndex
  | SetTimeout _ => True
  | _ => False
  end.

(** A conversion that succeeds ends with the request that was answered
    and the writing of the fragment. *)
Definition successfulEnd (config : Config) (text : jsstring) (chunkIndex : nat) (data : jsstring)
  : list call :=
  [SpeechCreate (lit "tts-1") (voice config) text (audioFormat config);
   WriteFile (tempPath config chunkIndex) data].

(** The delay after the conversion of the chunk at [i], when it is not the
    last one. *)
Definition pacing (nChunks i : nat) : list call :=
  if i <? nChunks - 1 then [SetTimeout 1000] else [].

Definition analyzing : call := Spinner Start (lit "Analyzing text...").
Definition conversionFailed : call := Spinner Fail (lit "Conversion failed").
Definition processing (nChunks : nat) : call :=
  Spinner Text (lit "Processing " ++ showNat nChunks ++ lit " chunks...").
Definition merging : call := Spinner Text (lit "Merging audio files...").

(** The classes of errors that the [catch] clause of [convertTextToSpeech]
    tells apart, in the order it tests them. *)
Inductive category := InvalidCredential | QuotaExceeded | RateLimited.

Definition categoryOf (error : exn) : option category :=
  match error with
  | Undefined => None
  | Err code message =>
      if codeIs code (lit "invalid_api_key") then Some InvalidCredential
      else if codeIs code (lit "insufficient_quota") then Some QuotaExceeded
      else if includes (lit "rate limit") message then Some RateLimited
      else None
  end.

Definition categoryMessage (c : category) : jsstring :=
  match c with
  | InvalidCredential => lit "Invalid OpenAI API key"
  | QuotaExceeded => lit "OpenAI API quota exceeded"
  | RateLimited => lit "OpenAI API rate limit exceeded. Please try again later."
  end.

(** The end of the [try] block makes no request, writes and deletes
    nothing and runs no command. *)
Definition quiet (c : call) : Prop :=
  match c with
  | SpeechCreate _ _ _ _ | WriteFile _ _ | Unlink _ | Exec _ | SetTimeout _ => False
  | _ => True
  end.

(** The calls of the conversion of the chunk at [i] when it succeeds: the
    notice of the spinner, the line on the console, the attempts that
    failed and their waits, then the request that was answered and the
    writing of the fragment. *)
Definition conversionSegment (config : Config) (nChunks : nat)
    (ic : nat * jsstring) (segment : list call) : Prop :=
  let '(i, chunk) := ic in
  exists failed data,
    segment = convertingNotice nChunks i
              :: ConsoleLog (ChunkInfo (i + 1) (truncatedText chunk) (length chunk))
              :: failed ++ successfulEnd config chunk (i + 1) data /\
    Forall (retryEvent config chunk (i + 1)) failed.

(** ** Worlds to run the pipeline in *)

Definition sampleConfig : Config :=
  {| apiKey := lit "sk-test"; voice := lit "alloy";
     audioFormat := lit "mp3"; output := lit "output" |}.

(** Every collaborator does what it is asked. *)
Definition obligingWorld : World :=
  {| speech_create := fun _ _ _ _ _ => Returned (lit "audio");
     fs_writeFile := fun _ _ _ => Returned tt;
     fs_unlink := fun _ _ => Returned tt;
     fs_stat := fun _ _ => Returned 5%N;
     execAsync := fun _ _ => Returned tt |}.

(** The synthesis service refuses the inputs in [refused] with [e]. *)
Definition refusingWorld (refused : jsstring -> bool) (e : exn) : World :=
  {| speech_create := fun _ _ _ input _ =>
       if refused input then Threw e else Returned (lit "audio");
     fs_writeFile := fun _ _ _ => Returned tt;
     fs_unlink := fun _ _ => Returned tt;
     fs_stat := fun _ _ => Returned 5%N;
     execAsync := fun _ _ => Returned tt |}.

(** The merge tool is not installed. *)
Definition noMergeToolWorld : World :=
  {| speech_create := fun _ _ _ _ _ => Returned (lit "audio");
     fs_writeFile := fun _ _ _ => Returned tt;
     fs_unlink := fun _ _ => Returned tt;
     fs_stat := fun _ _ => Returned 5%N;
     execAsync := fun _ _ =>
       Threw (Err (Some (lit "127")) (lit "Command failed: ffmpeg: not found")) |}.

Definition notPermitted : exn :=
  Err (Some (lit "EPERM"))
      (lit "EPERM: operation not permitted, unlink 'chunks_list.txt'").

(** The merge tool works, but the manifest cannot be deleted. *)
Definition lockedManifestWorld : World :=
  {| speech_create := fun _ _ _ _ _ => Returned (lit "audio");
     fs_writeFile := fun _ _ _ => Returned tt;
     fs_unlink := fun _ path =>
       if eqbString path listPath then Threw notPermitted else Returned tt;
     fs_stat := fun _ _ => Returned 5%N;
     execAsync := fun _ _ => Returned tt |}.

Definition twoFragments : list jsstring :=
  [lit "output_chunk_1.mp3"; lit "output_chunk_2.mp3"].

Definition quotaError : exn :=
  Err (Some (lit "insufficient_quota")) (lit "You exceeded your current quota.").

Definition rateLimitError : exn :=
  Err (Some (lit "rate_limit_exceeded")) (lit "You hit the rate limit.").

(** Three sentences that make three chunks. *)
Definition threeSentences : jsstring :=
  lit "a. " ++ repeat 98%N 3999 ++ lit ". c".

Definition secondSentence : jsstring := repeat 98%N 3999 ++ lit ".".

(** 1667 lines, each the word [ab]: 5001 characters, none of them a
    space. *)
Definition linesOfAb : jsstring :=
  concat (repeat (lit "ab" ++ [NEWLINE]) 1667).

(** A word of [MAX_CHUNK_SIZE] characters, a line feed, one letter. *)
Definition wordAndLetter : jsstring :=
  repeat 97%N 4000 ++ [NEWLINE] ++ lit "b".


(** Three short chunks, and a service that refuses the second each
    time. *)
Definition threeChunks : list jsstring := [lit "One."; lit "Two."; lit "Three."].

Definition refusingTwo : World :=
  refusingWorld (eqbString (lit "Two.")) rateLimitError.




(** ** Of the chunker, the paths and the manifest *)

(** No character of [s] is white space. *)
Definition solid (s : jsstring) : bool :=
  forallb (fun c => negb (isWhiteSpace c)) s.

(** [s.split(sep)] for a separator of one character. *)
Fixpoint splitOn (sep : char) (s : jsstring) : list jsstring :=
  match s with
  | [] => [[]]
  | c :: s' => if (c =? sep)%N then [] :: splitOn sep s'
               else consHead c (splitOn sep s')
  end.

(** The line of the manifest for a fragment. *)
Definition manifestLine (path : jsstring) : jsstring :=
  lit "file '" ++ path ++ lit "'".

(** No character of [p] is [sep]. *)
Definition free (sep : char) (p : jsstring) : Prop := ~ In sep p.

(** ** Of the calls of a run, by kind *)

(** The paths deleted, in order. *)
Definition unlinked (ev : list call) : list jsstring :=
  flat_map (fun c => match c with Unlink p => [p] | _ => [] end) ev.

(** The deletions of [files], asked one after the other after the calls
    [h], are all carried out. *)
Definition deleted (w : World) (h : list call) (files : list jsstring) : Prop :=
  forall k path,
    nth_error files k = Some path ->
    fs_unlink w (h ++ map Unlink (firstn k files)) path = Returned tt.

(** The inputs of the synthesis requests, in order. *)
Definition requestInputs (ev : list call) : list jsstring :=
  flat_map (fun c => match c with
                     | SpeechCreate _ _ input _ => [input]
                     | _ => []
                     end) ev.

(** What the calls of the conversion of the chunks in [chunks] may be: a
    request for one of them with the settings of the run, the writing of
    a fragment, a wait, a line or a notice. *)
Definition conversionCall (config : Config) (chunks : list jsstring)
    (c : call) : Prop :=
  match c with
  | SpeechCreate model v input format =>
      model = lit "tts-1" /\ v = voice config /\ format = audioFormat config
      /\ In input chunks
  | WriteFile path _ => exists chunkIndex, path = tempPath config chunkIndex
  | Unlink _ | Exec _ | Stat _ => False
  | SetTimeout _ | ConsoleLog _ | Spinner _ _ => True
  end.

(** A call of the run that asks for one of [inputs] with the model, the
    voice and the format of the run, or writes one of [files], or does
    neither. *)
Definition callOf (config : Config) (inputs : list jsstring)
    (files : jsstring -> Prop) (c : call) : Prop :=
  match c with
  | SpeechCreate model v input format =>
      model = lit "tts-1" /\ v = voice config /\ format = audioFormat config
      /\ In input inputs
  | WriteFile path _ => files path
  | _ => True
  end.

(** The files that a run of [n] chunks writes: the audio file when
    [n = 1], else the manifest and the fragments. *)
Definition filesOf (config : Config) (n : nat) (path : jsstring) : Prop :=
  if n =? 1 then path = outputPathOf config
  else path = listPath \/ exists chunkIndex, path = tempPath config chunkIndex.

(** ** Of the front end *)

(** A step of [getConfiguration]: a question. *)
Definition isPrompt (s : step) : Prop :=
  match s with Prompt _ => True | _ => False end.

(** A step before the conversion that is no report of [main]. *)
Definition preparing (s : step) : Prop :=
  match s with
  | Banner | Prompt _ | Access _ | ReadFile _ | Reading _ _ => True
  | _ => False
  end.

(** The key, the voice and the format are given, and the text or a file,
    on the command line or in the environment. *)
Definition keyGiven (options : options.t) (env : Env) : bool :=
  truthyValue (options.apiKey options) || truthyValue (OPENAI_API_KEY env)
  || truthyValue (READING_LAMP_API_KEY env).

Definition sourceGiven (options : options.t) : bool :=
  truthyValue (options.text options) || truthyValue (options.file options).

Definition voiceGiven (options : options.t) (env : Env) : bool :=
  truthyValue (options.voice options) || truthyValue (READING_LAMP_VOICE env).

Definition formatGiven (options : options.t) (env : Env) : bool :=
  truthyValue (options.audioFormat options)
  || truthyValue (READING_LAMP_AUDIO_FORMAT env).

(** A step of the work of [main], which is no report of its end. *)
Definition working (s : step) : Prop :=
  match s with
  | Completed | ErrorLine _ | UnexpectedErrorLine _ | Exit _ => False
  | _ => True
  end.

(** A step that looks at a file or reads one. *)
Definition fileStep (s : step) : Prop :=
  match s with
  | Access _ | ReadFile _ | Reading _ _ => True
  | _ => False
  end.

(** The first and the last step of a reading that fails. *)
Definition readingStart : step := Reading ReadingStart (lit "Reading file...").
Definition readingFailed : step :=
  Reading ReadingFail (lit "Failed to read file").

(** The warning for an extension that is not one of the supported ones. *)
Definition unknownType (ext : jsstring) : list step :=
  if negb (truthyValue (property SUPPORTED_FORMATS ext)) then
    [Reading ReadingWarn
       (lit "Unknown file type: " ++ ext
        ++ lit ". Attempting to read as plain text.")]
  else [].

(** The questions for what is missing, in the order of the source. *)
Definition missing (options : options.t) (env : Env) (textSource : jsstring)
  : list question :=
  (if keyGiven options env then [] else [AskApiKey])
  ++ (if sourceGiven options then []
      else [AskTextSource;
            if eqbString textSource (lit "direct") then AskText
            else AskFilePath])
  ++ (if voiceGiven options env then [] else [AskVoice])
  ++ (if formatGiven options env then [] else [AskAudioFormat]).

(** A host and a command line to run the front end with. *)
Definition sampleHost : Host :=
  {| inquirer_prompt := fun q =>
       match q with
       | AskApiKey => Returned (lit "sk-asked")
       | AskTextSource => Returned (lit "file")
       | AskText => Returned (lit "Hello.")
       | AskFilePath => Returned (lit "story.txt")
       | AskVoice => Returned (lit "nova")
       | AskAudioFormat => Returned (lit "wav")
       end;
     fs_access := fun path =>
       match path with
       | Some _ => Returned tt
       | None => Threw (Err (Some (lit "ERR_INVALID_ARG_TYPE"))
                          (lit "The path argument must be of type string"))
       end;
     fs_readFile := fun _ => Returned (lit "Once upon a time.");
     path_resolve := fun path =>
       match path with
       | Some p => Returned (lit "/home/" ++ p)
       | None => Threw (Err (Some (lit "ERR_INVALID_ARG_TYPE"))
                          (lit "The paths[0] argument must be of type string"))
       end;
     path_extname := fun _ => lit ".txt";
     toLowerCase := fun s => s |}.

Definition noFlags : argv.t :=
  {| argv.apiKey := None; argv.text := None; argv.file := None;
     argv.voice := None; argv.audioFormat := None; argv.output := None |}.

Definition allFlags : argv.t :=
  {| argv.apiKey := Some (lit "sk-flag"); argv.text := Some (lit "Hi there.");
     argv.file := Some (lit "story.txt"); argv.voice := Some (lit "echo");
     argv.audioFormat := Some (lit "mp3"); argv.output := Some (lit "speech") |}.

Definition fileFlags : argv.t :=
  {| argv.apiKey := Some (lit "sk-flag"); argv.text := None;
     argv.file := Some (lit "story.txt"); argv.voice := Some (lit "echo");
     argv.audioFormat := Some (lit "mp3"); argv.output := None |}.

Definition emptyEnv : Env :=
  {| OPENAI_API_KEY := None; READING_LAMP_API_KEY := None;
     READING_LAMP_VOICE := None; READING_LAMP_AUDIO_FORMAT := None;
     READING_LAMP_OUTPUT := None |}.

Definition outputEnv : Env :=
  {| OPENAI_API_KEY := Some (lit "sk-env"); READING_LAMP_API_KEY := None;
     READING_LAMP_VOICE := None; READING_LAMP_AUDIO_FORMAT := None;
     READING_LAMP_OUTPUT := Some (lit "fromEnv") |}.

(** The voice and the format only. *)
Definition voiceFlags : argv.t :=
  {| argv.apiKey := None; argv.text := None; argv.file := None;
     argv.voice := Some (lit "echo"); argv.audioFormat := Some (lit "mp3");
     argv.output := None |}.

(** What [getConfiguration] returns for [allFlags], for [fileFlags] in
    [outputEnv], and for [voiceFlags], the host giving what is missing. *)
Definition allFlagsConfiguration : Configuration.t :=
  {| Configuration.settings :=
       {| apiKey := lit "sk-flag"; voice := lit "echo";
          audioFormat := lit "mp3"; output := lit "speech" |};
     Configuration.textSource := lit "direct";
     Configuration.text := Some (lit "Hi there.");
     Configuration.filePath := None |}.

Definition fileFlagsConfiguration : Configuration.t :=
  {| Configuration.settings :=
       {| apiKey := lit "sk-flag"; voice := lit "echo";
          audioFormat := lit "mp3"; output := lit "output" |};
     Configuration.textSource := lit "file";
     Configuration.text := None;
     Configuration.filePath := Some (lit "story.txt") |}.

Definition voiceFlagsConfiguration : Configuration.t :=
  {| Configuration.settings :=
       {| apiKey := lit "sk-asked"; voice := lit "echo";
          audioFormat := lit "mp3"; output := lit "output" |};
     Configuration.textSource := lit "file";
     Configuration.text := None;
     Configuration.filePath := Some (lit "story.txt") |}.

(** * Part 3: the properties *)

Lemma MAX_CHUNK_SIZE_pos : 0 < MAX_CHUNK_SIZE.
Proof. apply Nat.ltb_lt. vm_compute. reflexivity. Qed.

(** The proofs below hold for any positive limit: the constant is never
    unfolded in them. *)
#[global] Opaque MAX_CHUNK_SIZE.

(** ** Properties of the string operations *)

Section StringFacts.

Lemma content_app a b : content (a ++ b) = content a ++ content b.
Proof. apply filter_app. Qed.

Lemma content_dropWhile s : content (dropWhile isWhiteSpace s) = content s.
Proof.
  induction s as [|c s IH]; simpl; [reflexivity|].
  destruct (isWhiteSpace c) eqn:E; simpl; rewrite ?E; simpl; auto.
Qed.

Lemma content_rev s : content (rev s) = rev (content s).
Proof.
  induction s as [|c s IH]; simpl; [reflexivity|].
  rewrite content_app, IH. simpl.
  destruct (isWhiteSpace c); simpl; [apply app_nil_r | reflexivity].
Qed.

Lemma content_trim s : content (trim s) = content s.
Proof.
  unfold trim, trimEnd, trimStart.
  rewrite content_rev, content_dropWhile, content_rev, rev_involutive.
  apply content_dropWhile.
Qed.

Lemma space_isWhiteSpace : isWhiteSpace SPACE = true.
Proof. reflexivity. Qed.

Lemma eqb_space_isWhiteSpace c : (c =? SPACE)%N = true -> isWhiteSpace c = true.
Proof. intros H. apply N.eqb_eq in H. subst c. reflexivity. Qed.

Lemma concat_consHead c l : concat (consHead c l) = c :: concat l.
Proof. destruct l; reflexivity. Qed.

Lemma content_splitSpace s : content (concat (splitSpace s)) = content s.
Proof.
  induction s as [|c s IH]; simpl; [reflexivity|].
  destruct (c =? SPACE)%N eqn:E.
  - rewrite (eqb_space_isWhiteSpace _ E). simpl. exact IH.
  - rewrite concat_consHead. simpl. rewrite IH. reflexivity.
Qed.

Lemma content_splitSentencesFrom s : forall inSep afterTerm,
  content (concat (splitSentencesFrom inSep afterTerm s)) = content s.
Proof.
  induction s as [|c s IH]; intros inSep afterTerm; simpl; [reflexivity|].
  destruct (isWhiteSpace c) eqn:E; simpl.
  - destruct inSep; [apply IH|].
    destruct afterTerm; simpl; [apply IH|].
    rewrite concat_consHead. simpl. rewrite E. simpl. apply IH.
  - rewrite concat_consHead. simpl. rewrite E. simpl. f_equal. apply IH.
Qed.

Lemma content_join_space l : content (join [SPACE] l) = content (concat l).
Proof.
  induction l as [|p l IH]; [reflexivity|].
  destruct l as [|q l].
  - simpl. rewrite app_nil_r. reflexivity.
  - change (join [SPACE] (p :: q :: l)) with (p ++ [SPACE] ++ join [SPACE] (q :: l)).
    change (concat (p :: q :: l)) with (p ++ concat (q :: l)).
    rewrite !content_app, IH. reflexivity.
Qed.

Lemma concat_snoc (l : list jsstring) x : concat (l ++ [x]) = concat l ++ x.
Proof. rewrite concat_app. simpl. rewrite app_nil_r. reflexivity. Qed.

Lemma concat_filter_nonempty (l : list jsstring) :
  concat (filter (fun chunk => 0 <? length chunk) l) = concat l.
Proof.
  induction l as [|x l IH]; [reflexivity|].
  simpl. destruct x; simpl; [exact IH | rewrite IH; reflexivity].
Qed.

Lemma truthy_false s : truthy s = false -> s = [].
Proof. destruct s; [reflexivity | discriminate]. Qed.

Lemma truthy_true s : truthy s = true -> s <> [].
Proof. destruct s; [discriminate | discriminate]. Qed.

End StringFacts.

(** ** The chunker keeps the content of the text *)

Section ChunkerContent.

Lemma wordStep_held st word : held (wordStep st word) = held st ++ content word.
Proof.
  destruct st as [chunks wordChunk]. unfold wordStep, held.
  destruct (MAX_CHUNK_SIZE <? length (wordChunk ++ [SPACE] ++ word)).
  - destruct (truthy wordChunk) eqn:T; simpl.
    + rewrite concat_snoc, content_app, content_trim. reflexivity.
    + apply truthy_false in T. subst wordChunk.
      rewrite concat_snoc, content_app. simpl. rewrite app_nil_r.
      rewrite <- !app_assoc. f_equal. rewrite <- content_app.
      unfold substringTo, substringFrom. rewrite firstn_skipn. reflexivity.
  - destruct (truthy wordChunk) eqn:T; simpl.
    + rewrite !content_app. simpl. rewrite app_assoc. reflexivity.
    + apply truthy_false in T. subst wordChunk. simpl.
      rewrite app_nil_r. reflexivity.
Qed.

Lemma fold_wordStep_held ws : forall st,
  held (fold_left wordStep ws st) = held st ++ content (concat ws).
Proof.
  induction ws as [|w ws IH]; intros st; simpl.
  - rewrite app_nil_r. reflexivity.
  - rewrite IH, wordStep_held, content_app, app_assoc. reflexivity.
Qed.

Lemma sentenceStep_held st sentence :
  held (sentenceStep st sentence) = held st ++ content sentence.
Proof.
  destruct st as [chunks currentChunk]. unfold sentenceStep.
  destruct (MAX_CHUNK_SIZE <? length sentence).
  - assert (F : forall chunks1,
               held (let '(chunks2, wordChunk) :=
                       fold_left wordStep (splitSpace sentence) (chunks1, []) in
                     (chunks2, if truthy wordChunk then wordChunk else []))
               = content (concat chunks1) ++ content sentence).
    { intros chunks1.
      pose proof (fold_wordStep_held (splitSpace sentence) (chunks1, [])) as F.
      destruct (fold_left wordStep (splitSpace sentence) (chunks1, []))
        as [chunks2 wordChunk].
      rewrite content_splitSpace in F. unfold held in *. simpl in *.
      rewrite app_nil_r in F. rewrite <- F.
      destruct (truthy wordChunk) eqn:T2; [reflexivity|].
      apply truthy_false in T2. subst. reflexivity. }
    destruct (truthy currentChunk) eqn:T.
    + rewrite F. unfold held. simpl.
      rewrite concat_snoc, content_app, content_trim. reflexivity.
    + apply truthy_false in T. subst currentChunk.
      rewrite F. unfold held. simpl. rewrite app_nil_r. reflexivity.
  - destruct (MAX_CHUNK_SIZE <? length (currentChunk ++ [SPACE] ++ sentence)).
    + destruct (truthy currentChunk) eqn:T; unfold held; simpl.
      * rewrite concat_snoc, content_app, content_trim. reflexivity.
      * apply truthy_false in T. subst. rewrite !app_nil_r. reflexivity.
    + destruct (truthy currentChunk) eqn:T; unfold held; simpl.
      * rewrite !content_app. simpl. rewrite app_assoc. reflexivity.
      * apply truthy_false in T. subst. rewrite !app_nil_r. reflexivity.
Qed.

Lemma fold_sentenceStep_held sentences : forall st,
  held (fold_left sentenceStep sentences st)
  = held st ++ content (concat sentences).
Proof.
  induction sentences as [|x sentences IH]; intros st; simpl.
  - rewrite app_nil_r. reflexivity.
  - rewrite IH, sentenceStep_held, content_app, app_assoc. reflexivity.
Qed.

(** The chunks of a text hold exactly its content. *)
Lemma chunkText_content text :
  content (concat (chunkText text)) = content text.
Proof.
  unfold chunkText. destruct (length text <=? MAX_CHUNK_SIZE).
  - simpl. rewrite app_nil_r. reflexivity.
  - pose proof (fold_sentenceStep_held (splitSentences text) ([], [])) as F.
    destruct (fold_left sentenceStep (splitSentences text) ([], []))
      as [chunks currentChunk].
    unfold splitSentences in F. rewrite content_splitSentencesFrom in F.
    unfold held in F. simpl in F. rewrite <- F.
    rewrite concat_filter_nonempty.
    destruct (truthy currentChunk) eqn:T.
    + rewrite concat_snoc, content_app, content_trim. reflexivity.
    + apply truthy_false in T. subst. rewrite app_nil_r. reflexivity.
Qed.

End ChunkerContent.

(** ** Words *)

Section Words.

Lemma words_nonempty s : startsBlank s = false -> wordsOf s <> [].
Proof.
  destruct s as [|c s]; simpl; [discriminate|].
  intros ->. destruct (startsBlank s); [discriminate|].
  destruct (wordsOf s); discriminate.
Qed.

Lemma consHead_app c l r : l <> [] -> consHead c (l ++ r) = consHead c l ++ r.
Proof. destruct l; [congruence | reflexivity]. Qed.

Lemma words_blank z : blank z -> wordsOf z = [].
Proof.
  induction 1 as [|c z Hc _ IH]; simpl; [reflexivity|]. rewrite Hc. exact IH.
Qed.

(** Words do not run across a position where white space starts. *)
Lemma words_app_blank a b :
  startsBlank b = true -> wordsOf (a ++ b) = wordsOf a ++ wordsOf b.
Proof.
  intros Hb. induction a as [|c a IH]; [reflexivity|].
  simpl. destruct (isWhiteSpace c); [exact IH|].
  assert (E : startsBlank (a ++ b) = startsBlank a)
    by (destruct a; [exact Hb | reflexivity]).
  rewrite E, IH. destruct (startsBlank a) eqn:Ha; [reflexivity|].
  apply consHead_app, words_nonempty, Ha.
Qed.

Lemma words_skip_blank z s : blank z -> wordsOf (z ++ s) = wordsOf s.
Proof.
  induction 1 as [|c z Hc _ IH]; simpl; [reflexivity|]. rewrite Hc. exact IH.
Qed.

Lemma words_sep a z b :
  z <> [] -> blank z -> wordsOf (a ++ z ++ b) = wordsOf a ++ wordsOf b.
Proof.
  intros Hz Bz. rewrite words_app_blank.
  - rewrite words_skip_blank by exact Bz. reflexivity.
  - destruct z as [|c z]; [congruence|]. simpl. inversion Bz; assumption.
Qed.

Lemma words_app_space a b : wordsOf (a ++ SPACE :: b) = wordsOf a ++ wordsOf b.
Proof.
  apply (words_sep a (z := [SPACE]) b); [discriminate|].
  constructor; [reflexivity | constructor].
Qed.

(** What [dropWhile] removes. *)
Lemma dropWhile_split s :
  exists z, blank z /\ s = z ++ dropWhile isWhiteSpace s.
Proof.
  induction s as [|c s [z [Bz E]]]; simpl.
  - exists []. split; [constructor | reflexivity].
  - destruct (isWhiteSpace c) eqn:Hc.
    + exists (c :: z). split; [constructor; assumption|].
      simpl. rewrite <- E. reflexivity.
    + exists []. split; [constructor | reflexivity].
Qed.

Lemma blank_rev z : blank z -> blank (rev z).
Proof. intros B. apply Forall_rev. exact B. Qed.

Lemma trimEnd_split s : exists z, blank z /\ s = trimEnd s ++ z.
Proof.
  unfold trimEnd. destruct (dropWhile_split (rev s)) as [z [Bz E]].
  exists (rev z). split; [apply blank_rev, Bz|].
  rewrite <- rev_app_distr, <- E, rev_involutive. reflexivity.
Qed.

Lemma words_trim s : wordsOf (trim s) = wordsOf s.
Proof.
  unfold trim.
  destruct (trimEnd_split (trimStart s)) as [z [Bz E]].
  destruct (dropWhile_split s) as [z' [Bz' E']].
  fold (trimStart s) in E'.
  rewrite E' at 2. rewrite words_skip_blank by exact Bz'.
  rewrite E at 2.
  destruct z as [|c z].
  - rewrite app_nil_r. reflexivity.
  - rewrite words_app_blank, (words_blank Bz), app_nil_r; [reflexivity|].
    simpl. inversion Bz; assumption.
Qed.

Lemma Pieces_consHead c s ps : Pieces s ps -> Pieces (c :: s) (consHead c ps).
Proof.
  destruct 1 as [p | p z s ps Hz Bz P]; simpl.
  - constructor.
  - change (c :: p ++ z ++ s) with ((c :: p) ++ z ++ s).
    constructor; assumption.
Qed.

Lemma Pieces_words s ps : Pieces s ps -> wordsOf s = concat (map wordsOf ps).
Proof.
  induction 1 as [p | p z s ps Hz Bz P IH]; simpl.
  - rewrite app_nil_r. reflexivity.
  - rewrite words_sep by assumption. rewrite IH. reflexivity.
Qed.

Lemma Pieces_splitSpace s : Pieces s (splitSpace s).
Proof.
  induction s as [|c s IH]; simpl; [constructor|].
  destruct (c =? SPACE)%N eqn:E.
  - change (c :: s) with ([] ++ [c] ++ s).
    constructor; [discriminate | | exact IH].
    constructor; [apply eqb_space_isWhiteSpace, E | constructor].
  - apply Pieces_consHead, IH.
Qed.

(** Inside a separator the rest of the run is dropped first. *)
Lemma Pieces_splitSentencesFrom s : forall afterTerm,
  Pieces s (splitSentencesFrom false afterTerm s) /\
  exists z s', s = z ++ s' /\ blank z /\
               Pieces s' (splitSentencesFrom true afterTerm s).
Proof.
  induction s as [|c s IH]; intros afterTerm; simpl.
  - split; [constructor|].
    exists [], []. repeat split; constructor.
  - destruct (isWhiteSpace c) eqn:Hc.
    + destruct (IH false) as [P [z [s' [E [Bz P']]]]].
      split.
      * destruct afterTerm.
        -- subst s. change (c :: z ++ s') with ([] ++ (c :: z) ++ s').
           constructor; [discriminate | constructor; assumption | exact P'].
        -- apply Pieces_consHead, P.
      * exists (c :: z), s'. subst s. repeat split; [|exact P'].
        constructor; assumption.
    + destruct (IH (isTerminator c)) as [P _].
      split; [apply Pieces_consHead, P|].
      exists [], (c :: s). repeat split; [constructor|].
      apply Pieces_consHead, P.
Qed.

Lemma Pieces_splitSentences s : Pieces s (splitSentences s).
Proof. apply Pieces_splitSentencesFrom. Qed.

Lemma words_join_space l : wordsOf (join [SPACE] l) = concat (map wordsOf l).
Proof.
  induction l as [|p l IH]; [reflexivity|].
  destruct l as [|q l].
  - simpl. rewrite app_nil_r. reflexivity.
  - change (join [SPACE] (p :: q :: l)) with (p ++ SPACE :: join [SPACE] (q :: l)).
    rewrite words_app_space, IH. reflexivity.
Qed.

Lemma words_filter_nonempty (l : list jsstring) :
  concat (map wordsOf (filter (fun chunk => 0 <? length chunk) l))
  = concat (map wordsOf l).
Proof.
  induction l as [|x l IH]; [reflexivity|].
  simpl. destruct x; simpl; [exact IH | rewrite IH; reflexivity].
Qed.

End Words.

(** ** Tokens: the runs between two spaces *)

Section Tokens.

Variable n : nat.

Lemma Short_consHead c l :
  Forall (fun w : jsstring => length w <= n) (consHead c l) ->
  Forall (fun w : jsstring => length w <= n) l.
Proof.
  destruct l as [|w l]; simpl; [constructor|].
  intros H. inversion H; subst. constructor; [simpl in *; lia | assumption].
Qed.

Lemma Short_app_r a b : Short n (a ++ b) -> Short n b.
Proof.
  unfold Short. induction a as [|c a IH]; simpl; [auto|].
  destruct (c =? SPACE)%N; intros H.
  - inversion H; subst. auto.
  - apply IH. eapply Short_consHead. exact H.
Qed.

Lemma splitSpace_head_app a b :
  length (hd [] (splitSpace a)) <= length (hd [] (splitSpace (a ++ b))).
Proof.
  induction a as [|c a IH]; simpl; [lia|].
  destruct (c =? SPACE)%N; simpl; [lia|].
  destruct (splitSpace a) as [|w l], (splitSpace (a ++ b)) as [|w' l'];
    simpl in *; lia.
Qed.

Lemma splitSpace_not_nil s : splitSpace s <> [].
Proof.
  induction s as [|c s IH]; simpl; [discriminate|].
  destruct (c =? SPACE)%N; [discriminate|].
  destruct (splitSpace s); discriminate.
Qed.

Lemma Short_app_l a b : Short n (a ++ b) -> Short n a.
Proof.
  unfold Short. induction a as [|c a IH]; simpl.
  - intros _. constructor; [simpl; lia | constructor].
  - destruct (c =? SPACE)%N; intros H.
    + inversion H; subst. constructor; auto.
    + pose proof (splitSpace_head_app a b) as L.
      pose proof (splitSpace_not_nil a) as Na.
      pose proof (IH (Short_consHead _ _ H)) as IH'.
      destruct (splitSpace a) as [|w l]; [congruence|].
      pose proof (splitSpace_not_nil (a ++ b)) as Nab.
      destruct (splitSpace (a ++ b)) as [|w' l']; [congruence|].
      simpl in *. inversion H; subst. inversion IH'; subst.
      constructor; [simpl in *; lia | assumption].
Qed.

Lemma Short_Pieces s ps : Pieces s ps -> Short n s -> Forall (Short n) ps.
Proof.
  induction 1 as [p | p z s ps Hz Bz P IH]; intros H.
  - constructor; [exact H | constructor].
  - constructor.
    + eapply Short_app_l. exact H.
    + apply IH. eapply Short_app_r, Short_app_r. exact H.
Qed.

End Tokens.

Lemma shortTokens_Short s : shortTokens s = true -> Short MAX_CHUNK_SIZE s.
Proof.
  unfold shortTokens, Short. rewrite forallb_forall, Forall_forall.
  intros H w Hw. apply Nat.leb_le, H, Hw.
Qed.

(** ** The chunker keeps the words when no forced split is inside a word *)

Section ChunkerWords.

Lemma map_words_snoc l x :
  concat (map wordsOf (l ++ [x])) = concat (map wordsOf l) ++ wordsOf x.
Proof. rewrite map_app, concat_app. simpl. rewrite app_nil_r. reflexivity. Qed.

(** A string cut where white space ends or begins has the words of its
    two parts. *)
Lemma words_cut n s :
  startsBlank (rev (firstn n s)) = true \/ startsBlank (skipn n s) = true ->
  wordsOf (firstn n s) ++ wordsOf (skipn n s) = wordsOf s.
Proof.
  intros H. rewrite <- (firstn_skipn n s) at 3.
  destruct H as [H|H].
  - destruct (rev (firstn n s)) as [|z a] eqn:E.
    + apply (f_equal (@rev _)) in E. rewrite rev_involutive in E.
      rewrite E. reflexivity.
    + apply (f_equal (@rev _)) in E. rewrite rev_involutive in E.
      simpl in E, H. rewrite E.
      rewrite <- app_assoc.
      rewrite (@words_sep (rev a) [z] (skipn n s));
        [| discriminate | constructor; [exact H | constructor]].
      rewrite (@words_app_blank (rev a) [z]) by (simpl; exact H).
      simpl. rewrite H. rewrite app_nil_r. reflexivity.
  - symmetry. apply words_app_blank, H.
Qed.

Lemma cutsWord_false word :
  cutsWord word = false ->
  wordsOf (substringTo MAX_CHUNK_SIZE word)
  ++ wordsOf (substringFrom MAX_CHUNK_SIZE word) = wordsOf word.
Proof.
  unfold cutsWord, substringTo, substringFrom. intros H.
  apply words_cut. apply andb_false_iff in H.
  destruct H as [H|H]; apply negb_false_iff in H; auto.
Qed.

(** The buffer after a turn of the word loop does not depend on the
    chunks pushed before. *)
Lemma wordStep_buffer chunks wordChunk word :
  snd (wordStep (chunks, wordChunk) word) = snd (wordStep ([], wordChunk) word).
Proof.
  unfold wordStep.
  destruct (MAX_CHUNK_SIZE <? length (wordChunk ++ [SPACE] ++ word));
    destruct (truthy wordChunk); reflexivity.
Qed.

Lemma wordStep_heldWords st word :
  forallb (fun word => negb (cutsWord word)) (forceSplits [word] (snd st)) = true ->
  heldWords (wordStep st word) = heldWords st ++ wordsOf word.
Proof.
  destruct st as [chunks wordChunk]. cbn [forceSplits snd]. rewrite app_nil_r.
  unfold wordStep, heldWords.
  destruct (MAX_CHUNK_SIZE <? length (wordChunk ++ [SPACE] ++ word)).
  - destruct (truthy wordChunk) eqn:T; cbn [andb negb forallb fst snd].
    + intros _. rewrite map_words_snoc, words_trim. reflexivity.
    + intros H. apply andb_true_iff in H. destruct H as [H _].
      apply negb_true_iff in H.
      apply truthy_false in T. subst wordChunk.
      rewrite map_words_snoc. cbn [wordsOf]. rewrite app_nil_r.
      rewrite <- app_assoc. rewrite cutsWord_false by exact H. reflexivity.
  - intros _. destruct (truthy wordChunk) eqn:T; cbn [fst snd].
    + change (wordChunk ++ [SPACE] ++ word) with (wordChunk ++ SPACE :: word).
      rewrite words_app_space, app_assoc. reflexivity.
    + apply truthy_false in T. subst wordChunk. cbn [wordsOf].
      rewrite app_nil_r. reflexivity.
Qed.

Lemma fold_wordStep_heldWords ws : forall st,
  forallb (fun word => negb (cutsWord word)) (forceSplits ws (snd st)) = true ->
  heldWords (fold_left wordStep ws st) = heldWords st ++ concat (map wordsOf ws).
Proof.
  induction ws as [|w ws IH]; intros st H.
  - cbn. rewrite app_nil_r. reflexivity.
  - cbn [fold_left map concat]. cbn [forceSplits] in H.
    rewrite forallb_app in H. apply andb_true_iff in H. destruct H as [H1 H2].
    rewrite IH.
    + rewrite wordStep_heldWords, app_assoc; [reflexivity|].
      cbn [forceSplits]. rewrite app_nil_r. exact H1.
    + destruct st as [chunks wordChunk]. rewrite wordStep_buffer. exact H2.
Qed.

Lemma sentenceStep_heldWords st sentence :
  forallb (fun word => negb (cutsWord word)) (forceSplitsIn sentence) = true ->
  heldWords (sentenceStep st sentence) = heldWords st ++ wordsOf sentence.
Proof.
  unfold forceSplitsIn.
  intros HS. destruct st as [chunks currentChunk]. unfold sentenceStep.
  destruct (MAX_CHUNK_SIZE <? length sentence).
  - 
    assert (F : forall chunks1,
               heldWords (let '(chunks2, wordChunk) :=
                       fold_left wordStep (splitSpace sentence) (chunks1, []) in
                     (chunks2, if truthy wordChunk then wordChunk else []))
               = concat (map wordsOf chunks1) ++ wordsOf sentence).
    { intros chunks1.
      pose proof (@fold_wordStep_heldWords (splitSpace sentence)
                    (chunks1, []) HS) as F.
      destruct (fold_left wordStep (splitSpace sentence) (chunks1, []))
        as [chunks2 wordChunk].
      rewrite <- (Pieces_words (Pieces_splitSpace sentence)) in F.
      unfold heldWords in *. simpl in *.
      rewrite app_nil_r in F. rewrite <- F.
      destruct (truthy wordChunk) eqn:T2; [reflexivity|].
      apply truthy_false in T2. subst. reflexivity. }
    destruct (truthy currentChunk) eqn:T.
    + rewrite F. unfold heldWords. simpl.
      rewrite map_words_snoc, words_trim. reflexivity.
    + apply truthy_false in T. subst currentChunk.
      rewrite F. unfold heldWords. simpl. rewrite app_nil_r. reflexivity.
  - clear HS.
    destruct (MAX_CHUNK_SIZE <? length (currentChunk ++ [SPACE] ++ sentence)).
    + destruct (truthy currentChunk) eqn:T; unfold heldWords; simpl.
      * rewrite map_words_snoc, words_trim. reflexivity.
      * apply truthy_false in T. subst. rewrite !app_nil_r. reflexivity.
    + destruct (truthy currentChunk) eqn:T; unfold heldWords; simpl.
      * rewrite words_app_space, app_assoc. reflexivity.
      * apply truthy_false in T. subst. rewrite !app_nil_r. reflexivity.
Qed.

Lemma fold_sentenceStep_heldWords sentences : forall st,
  forallb (fun word => negb (cutsWord word))
    (flat_map forceSplitsIn sentences) = true ->
  heldWords (fold_left sentenceStep sentences st)
  = heldWords st ++ concat (map wordsOf sentences).
Proof.
  induction sentences as [|x sentences IH]; intros st H.
  - cbn. rewrite app_nil_r. reflexivity.
  - cbn [fold_left map concat]. cbn [flat_map] in H.
    rewrite forallb_app in H. apply andb_true_iff in H. destruct H as [H1 H2].
    rewrite IH by exact H2.
    rewrite sentenceStep_heldWords, app_assoc; [reflexivity | exact H1].
Qed.

Lemma chunkText_words text :
  wordsWhole text = true ->
  concat (map wordsOf (chunkText text)) = wordsOf text.
Proof.
  unfold wordsWhole, forceSplitsOf, chunkText.
  destruct (length text <=? MAX_CHUNK_SIZE).
  - intros _. simpl. rewrite app_nil_r. reflexivity.
  - intros HS.
    pose proof (Pieces_splitSentences text) as P.
    pose proof (@fold_sentenceStep_heldWords (splitSentences text)
                  ([], []) HS) as F.
    destruct (fold_left sentenceStep (splitSentences text) ([], []))
      as [chunks currentChunk].
    rewrite <- (Pieces_words P) in F.
    unfold heldWords in F. simpl in F. rewrite <- F.
    rewrite words_filter_nonempty.
    destruct (truthy currentChunk) eqn:T.
    + rewrite map_words_snoc, words_trim. reflexivity.
    + apply truthy_false in T. subst. rewrite app_nil_r. reflexivity.
Qed.

(** A piece that fits the limit is not cut inside a word, and the pieces
    split by force are pieces of the sentence. *)
Lemma cutsWord_short word :
  length word <= MAX_CHUNK_SIZE -> cutsWord word = false.
Proof.
  intros H. unfold cutsWord, substringFrom.
  rewrite skipn_all2 by exact H. cbn [startsBlank negb]. apply andb_false_r.
Qed.

Lemma forceSplits_incl ws : forall wordChunk word,
  In word (forceSplits ws wordChunk) -> In word ws.
Proof.
  induction ws as [|w ws IH]; intros wordChunk word H; [exact H|].
  cbn [forceSplits] in H. apply in_app_or in H. destruct H as [H|H].
  - destruct (_ && _); [|contradiction]. destruct H as [<-|[]]. left. reflexivity.
  - right. exact (IH _ _ H).
Qed.

(** When no sentence has a run without space that is too long, no forced
    split falls inside a word; so it is when the text has no such run. *)
Lemma Short_wordsWhole text :
  Forall (Short MAX_CHUNK_SIZE) (splitSentences text) -> wordsWhole text = true.
Proof.
  intros H. unfold wordsWhole, forceSplitsOf.
  destruct (length text <=? MAX_CHUNK_SIZE); [reflexivity|].
  apply forallb_forall. intros word Hin. apply in_flat_map in Hin.
  destruct Hin as [sentence [Hs Hw]].
  rewrite Forall_forall in H. specialize (H _ Hs). unfold forceSplitsIn in Hw.
  destruct (MAX_CHUNK_SIZE <? length sentence); [|contradiction].
  apply forceSplits_incl in Hw. unfold Short in H. rewrite Forall_forall in H.
  rewrite cutsWord_short by (apply H, Hw). reflexivity.
Qed.

Lemma shortTokens_wordsWhole text :
  shortTokens text = true -> wordsWhole text = true.
Proof.
  intros H. apply Short_wordsWhole.
  exact (Short_Pieces (Pieces_splitSentences text) (shortTokens_Short _ H)).
Qed.

(** ** Each forced split inside a word makes one word more *)

Lemma length_consHead c l : l <> [] -> length (consHead c l) = length l.
Proof. destruct l; [congruence | reflexivity]. Qed.

(** A string cut between two characters that are not white space has one
    word less than its two parts. *)
Lemma words_cut_inside a : forall b,
  startsBlank (rev a) = false -> startsBlank b = false ->
  length (wordsOf a) + length (wordsOf b) = S (length (wordsOf (a ++ b))).
Proof.
  induction a as [|c a IH]; intros b Ha Hb; [discriminate Ha|].
  destruct a as [|d a].
  - cbn [rev app startsBlank] in Ha. cbn [app wordsOf]. rewrite Ha, Hb.
    cbn [startsBlank length].
    rewrite length_consHead by (apply words_nonempty, Hb). reflexivity.
  - assert (Ha' : startsBlank (rev (d :: a)) = false).
    { cbn [rev] in Ha |- *. destruct (rev a ++ [d]) eqn:E; [|exact Ha].
      destruct (rev a); discriminate E. }
    specialize (IH b Ha' Hb).
    assert (E : startsBlank ((d :: a) ++ b) = startsBlank (d :: a))
      by reflexivity.
    change ((c :: d :: a) ++ b) with (c :: (d :: a) ++ b).
    remember (d :: a) as a' eqn:Ea. clear Ea Ha Ha'.
    cbn [wordsOf]. destruct (isWhiteSpace c); [exact IH|].
    rewrite E.
    destruct (startsBlank a') eqn:Hd.
    + cbn [length]. lia.
    + rewrite !length_consHead; [exact IH | |].
      * apply words_nonempty. exact E.
      * apply words_nonempty. exact Hd.
Qed.

Lemma cutsWord_true word :
  cutsWord word = true ->
  length (wordsOf (substringTo MAX_CHUNK_SIZE word))
  + length (wordsOf (substringFrom MAX_CHUNK_SIZE word))
  = S (length (wordsOf word)).
Proof.
  unfold cutsWord, substringTo, substringFrom. intros H.
  apply andb_true_iff in H. destruct H as [H1 H2].
  apply negb_true_iff in H1, H2.
  rewrite <- (firstn_skipn MAX_CHUNK_SIZE word) at 3.
  apply words_cut_inside; assumption.
Qed.

Lemma wordStep_count st word :
  length (heldWords (wordStep st word))
  = length (heldWords st) + length (wordsOf word)
    + cuts (forceSplits [word] (snd st)).
Proof.
  destruct (forallb (fun word => negb (cutsWord word))
              (forceSplits [word] (snd st))) eqn:W.
  - rewrite wordStep_heldWords by exact W. rewrite length_app.
    replace (cuts (forceSplits [word] (snd st))) with 0; [lia|].
    unfold cuts. symmetry. apply length_zero_iff_nil.
    rewrite forallb_forall in W.
    destruct (filter cutsWord _) as [|x l] eqn:E; [reflexivity|].
    assert (I : In x (filter cutsWord (forceSplits [word] (snd st))))
      by (rewrite E; left; reflexivity).
    apply filter_In in I. destruct I as [I C].
    apply W in I. rewrite C in I. discriminate I.
  - destruct st as [chunks wordChunk]. cbn [forceSplits snd] in *.
    rewrite app_nil_r in *. unfold wordStep, heldWords.
    destruct (MAX_CHUNK_SIZE <? length (wordChunk ++ [SPACE] ++ word));
      [|discriminate W].
    destruct (truthy wordChunk) eqn:T; [discriminate W|].
    cbn [andb negb forallb] in W. rewrite andb_true_r in W.
    apply negb_false_iff in W.
    apply truthy_false in T. subst wordChunk.
    cbn [andb negb fst snd]. unfold cuts. cbn [filter]. rewrite W.
    cbn [length]. rewrite map_words_snoc. cbn [wordsOf].
    rewrite !length_app. cbn [length].
    pose proof (cutsWord_true word W). lia.
Qed.

Lemma cuts_app a b : cuts (a ++ b) = cuts a + cuts b.
Proof. unfold cuts. rewrite filter_app, length_app. reflexivity. Qed.

Lemma length_concat_words (l : list jsstring) x :
  length (concat (map wordsOf (x :: l)))
  = length (wordsOf x) + length (concat (map wordsOf l)).
Proof. cbn [map concat]. apply length_app. Qed.

Lemma forceSplits_cons w ws wordChunk :
  forceSplits (w :: ws) wordChunk
  = forceSplits [w] wordChunk
    ++ forceSplits ws (snd (wordStep ([], wordChunk) w)).
Proof. cbn [forceSplits]. rewrite app_nil_r. reflexivity. Qed.

Lemma fold_wordStep_count ws : forall st,
  length (heldWords (fold_left wordStep ws st))
  = length (heldWords st) + length (concat (map wordsOf ws))
    + cuts (forceSplits ws (snd st)).
Proof.
  induction ws as [|w ws IH]; intros st.
  - cbn. lia.
  - cbn [fold_left]. rewrite IH, wordStep_count, length_concat_words.
    rewrite (forceSplits_cons w ws), cuts_app.
    destruct st as [chunks wordChunk]. rewrite wordStep_buffer.
    cbn [snd]. lia.
Qed.

Lemma sentenceStep_count st sentence :
  length (heldWords (sentenceStep st sentence))
  = length (heldWords st) + length (wordsOf sentence)
    + cuts (forceSplitsIn sentence).
Proof.
  unfold forceSplitsIn.
  destruct (MAX_CHUNK_SIZE <? length sentence) eqn:L.
  - destruct st as [chunks currentChunk]. unfold sentenceStep. rewrite L.
    assert (F : forall chunks1,
               length (heldWords (let '(chunks2, wordChunk) :=
                       fold_left wordStep (splitSpace sentence) (chunks1, []) in
                     (chunks2, if truthy wordChunk then wordChunk else [])))
               = length (concat (map wordsOf chunks1))
                 + length (wordsOf sentence)
                 + cuts (forceSplits (splitSpace sentence) [])).
    { intros chunks1.
      pose proof (fold_wordStep_count (splitSpace sentence) (chunks1, [])) as F.
      destruct (fold_left wordStep (splitSpace sentence) (chunks1, []))
        as [chunks2 wordChunk].
      rewrite <- (Pieces_words (Pieces_splitSpace sentence)) in F.
      unfold heldWords in *. cbn [fst snd wordsOf] in *.
      rewrite app_nil_r in F. rewrite <- F.
      destruct (truthy wordChunk) eqn:T2; [reflexivity|].
      apply truthy_false in T2. subst. reflexivity. }
    destruct (truthy currentChunk) eqn:T.
    + rewrite F. unfold heldWords. cbn [fst snd].
      rewrite map_words_snoc, words_trim. reflexivity.
    + apply truthy_false in T. subst currentChunk.
      rewrite F. unfold heldWords. cbn [fst snd wordsOf].
      rewrite app_nil_r. reflexivity.
  - rewrite sentenceStep_heldWords
      by (unfold forceSplitsIn; rewrite L; reflexivity).
    rewrite length_app. unfold cuts. cbn. lia.
Qed.

Lemma fold_sentenceStep_count sentences : forall st,
  length (heldWords (fold_left sentenceStep sentences st))
  = length (heldWords st) + length (concat (map wordsOf sentences))
    + cuts (flat_map forceSplitsIn sentences).
Proof.
  induction sentences as [|x sentences IH]; intros st.
  - cbn. lia.
  - cbn [fold_left flat_map].
    rewrite IH, sentenceStep_count, length_concat_words, cuts_app. lia.
Qed.

(** The joined chunks have the words of the text and one more for each
    forced split inside a word. *)
Lemma chunkText_word_count text :
  length (wordsOf (join [SPACE] (chunkText text)))
  = length (wordsOf text) + cuts (forceSplitsOf text).
Proof.
  rewrite words_join_space.
  unfold forceSplitsOf, chunkText.
  destruct (length text <=? MAX_CHUNK_SIZE).
  - cbn. rewrite app_nil_r. lia.
  - pose proof (Pieces_splitSentences text) as P.
    pose proof (fold_sentenceStep_count (splitSentences text) ([], [])) as F.
    destruct (fold_left sentenceStep (splitSentences text) ([], []))
      as [chunks currentChunk].
    rewrite <- (Pieces_words P) in F.
    unfold heldWords in F. cbn [fst snd map concat app length] in F.
    cbn [wordsOf length] in F. rewrite Nat.add_0_l in F. rewrite <- F.
    rewrite words_filter_nonempty.
    destruct (truthy currentChunk) eqn:T.
    + rewrite map_words_snoc, words_trim. reflexivity.
    + apply truthy_false in T. subst. cbn [wordsOf]. rewrite app_nil_r.
      reflexivity.
Qed.

(** So the words are kept exactly when no forced split is inside a word. *)
Lemma chunkText_words_cut text :
  wordsWhole text = false ->
  wordsOf (join [SPACE] (chunkText text)) <> wordsOf text.
Proof.
  intros W E. pose proof (chunkText_word_count text) as C. rewrite E in C.
  assert (Z : cuts (forceSplitsOf text) = 0) by lia.
  unfold cuts in Z. apply length_zero_iff_nil in Z.
  unfold wordsWhole in W.
  assert (T : forallb (fun word => negb (cutsWord word)) (forceSplitsOf text) = true).
  { apply forallb_forall. intros x I.
    destruct (cutsWord x) eqn:Cx; [|reflexivity].
    assert (I' : In x (filter cutsWord (forceSplitsOf text)))
      by (apply filter_In; split; assumption).
    rewrite Z in I'. contradiction. }
  rewrite T in W. discriminate W.
Qed.

End ChunkerWords.

(** ** The chunks are not empty *)

Section ChunkerNonEmpty.

Lemma content_nil_blank s : content s = [] -> blank s.
Proof.
  induction s as [|c s IH]; simpl; [constructor|].
  destruct (isWhiteSpace c) eqn:Hc; simpl; [|discriminate].
  intros H. constructor; [exact Hc | exact (IH H)].
Qed.

Lemma dropWhile_blank s : blank s -> dropWhile isWhiteSpace s = [].
Proof.
  induction 1 as [|c s Hc _ IH]; simpl; [reflexivity|]. rewrite Hc. exact IH.
Qed.

Lemma trim_blank s : blank s -> trim s = [].
Proof.
  intros B. unfold trim, trimStart, trimEnd.
  rewrite (dropWhile_blank B). reflexivity.
Qed.

Lemma trim_content s : trim s <> [] -> content s <> [].
Proof.
  intros H E. apply H, trim_blank, content_nil_blank, E.
Qed.

Lemma chunkText_chunks_nonempty text :
  text <> [] -> Forall (fun chunk => chunk <> []) (chunkText text).
Proof.
  intros Ht. unfold chunkText. destruct (length text <=? MAX_CHUNK_SIZE).
  - constructor; [exact Ht | constructor].
  - destruct (fold_left sentenceStep (splitSentences text) ([], []))
      as [chunks currentChunk].
    apply Forall_forall. intros chunk Hin. apply filter_In in Hin.
    destruct Hin as [_ Hlen]. destruct chunk; [discriminate | discriminate].
Qed.

Lemma chunkText_not_nil text : trim text <> [] -> chunkText text <> [].
Proof.
  intros H E. apply (@trim_content text H).
  rewrite <- chunkText_content, E. reflexivity.
Qed.

End ChunkerNonEmpty.

(** ** Texts that trimming and joining leave as long as they are *)

Section TidyTexts.

Lemma tidy_Tidy_cons s :
  (tidy s = true -> Tidy s) /\
  (forall d, tidy (d :: s) = true -> Tidy (d :: s)).
Proof.
  induction s as [|c s [IH1 IH2]].
  - split; [discriminate|]. intros d H. cbn [tidy] in H.
    apply andb_prop in H. destruct H as [H _].
    apply negb_true_iff in H. constructor. exact H.
  - split; [apply IH2|]. intros d H.
    change (negb (isWhiteSpace d)
            && (if isWhiteSpace c then tidy s else tidy (c :: s)) = true) in H.
    apply andb_prop in H. destruct H as [Hd H].
    apply negb_true_iff in Hd.
    destruct (isWhiteSpace c) eqn:Hc.
    + apply Tidy_gap; [exact Hd | exact Hc | apply IH1, H].
    + apply Tidy_char; [exact Hd | apply IH2, H].
Qed.

Lemma tidy_Tidy s : tidy s = true -> Tidy s.
Proof. apply tidy_Tidy_cons. Qed.

Lemma Tidy_not_nil s : Tidy s -> s <> [].
Proof. destruct 1; discriminate. Qed.

Lemma Tidy_head s : Tidy s -> startsBlank s = false.
Proof. destruct 1; simpl; assumption. Qed.

Lemma Tidy_last s : Tidy s -> exists s' c, s = s' ++ [c] /\ isWhiteSpace c = false.
Proof.
  induction 1 as [c Hc | c t Hc _ [s' [e [-> He]]] | c d t Hc Hd _ [s' [e [-> He]]]].
  - exists [], c. auto.
  - exists (c :: s'), e. auto.
  - exists (c :: d :: s'), e. auto.
Qed.

Lemma Tidy_app_space a b : Tidy a -> Tidy b -> Tidy (a ++ SPACE :: b).
Proof.
  intros Ha Hb. induction Ha as [c Hc | c t Hc _ IH | c d t Hc Hd _ IH].
  - apply Tidy_gap; [exact Hc | reflexivity | exact Hb].
  - apply Tidy_char; [exact Hc | exact IH].
  - apply Tidy_gap; [exact Hc | exact Hd | exact IH].
Qed.

Lemma dropWhile_head s : startsBlank s = false -> dropWhile isWhiteSpace s = s.
Proof. destruct s as [|c s]; simpl; [discriminate | intros ->; reflexivity]. Qed.

Lemma Tidy_trim s : Tidy s -> trim s = s.
Proof.
  intros H. unfold trim, trimStart, trimEnd.
  rewrite (dropWhile_head _ (Tidy_head H)).
  destruct (Tidy_last H) as [s' [c [-> Hc]]].
  rewrite rev_app_distr. simpl. rewrite Hc. simpl.
  rewrite rev_involutive. reflexivity.
Qed.

Lemma consHead_Tidy_char c ps :
  isWhiteSpace c = false -> Forall Tidy ps -> ps <> [] ->
  Forall Tidy (consHead c ps).
Proof.
  intros Hc F N. destruct ps as [|p ps]; [congruence|].
  inversion F; subst. constructor; [apply Tidy_char; assumption | assumption].
Qed.

Lemma splitSentencesFrom_not_nil s : forall a b, splitSentencesFrom a b s <> [].
Proof.
  induction s as [|c s IH]; intros a b; simpl; [discriminate|].
  destruct (isWhiteSpace c).
  - destruct a; [apply IH|]. destruct b; [discriminate|].
    destruct (splitSentencesFrom false false s); discriminate.
  - destruct (splitSentencesFrom false (isTerminator c) s); discriminate.
Qed.

Lemma length_join_consHead c ps :
  ps <> [] ->
  length (join [SPACE] (consHead c ps)) = S (length (join [SPACE] ps)).
Proof.
  destruct ps as [|p [|q ps]]; [congruence | reflexivity | reflexivity].
Qed.

(** The sentences of a tidy text are tidy, and joined by single spaces
    they are as long as the text. *)
Lemma Tidy_splitSentencesFrom t :
  Tidy t -> forall a b,
  Forall Tidy (splitSentencesFrom a b t) /\
  length (join [SPACE] (splitSentencesFrom a b t)) = length t.
Proof.
  induction 1 as [c Hc | c t Hc Ht IH | c d t Hc Hd Ht IH]; intros a b.
  - simpl. rewrite Hc. simpl. split; [|reflexivity].
    constructor; [constructor; exact Hc | constructor].
  - cbn [splitSentencesFrom]. rewrite Hc.
    destruct (IH false (isTerminator c)) as [F L].
    pose proof (splitSentencesFrom_not_nil t false (isTerminator c)) as N.
    split.
    + apply consHead_Tidy_char; assumption.
    + rewrite length_join_consHead by exact N. rewrite L. reflexivity.
  - cbn [splitSentencesFrom]. rewrite Hc, Hd.
    destruct (isTerminator c).
    + destruct (IH true false) as [F L].
      pose proof (splitSentencesFrom_not_nil t true false) as N.
      cbn [consHead]. split.
      * constructor; [constructor; exact Hc | exact F].
      * destruct (splitSentencesFrom true false t) as [|p ps] eqn:E;
          [congruence|].
        change (join [SPACE] ([c] :: p :: ps))
          with ([c] ++ [SPACE] ++ join [SPACE] (p :: ps)).
        rewrite !length_app, L. reflexivity.
    + destruct (IH false false) as [F L].
      pose proof (splitSentencesFrom_not_nil t false false) as N.
      destruct (splitSentencesFrom false false t) as [|p ps] eqn:E;
        [congruence|].
      cbn [consHead]. inversion F; subst. split.
      * constructor; [apply Tidy_gap; assumption | assumption].
      * destruct ps as [|q ps]; simpl in *; rewrite ?length_app in *;
          simpl in *; lia.
Qed.

Lemma join_splitSpace s : join [SPACE] (splitSpace s) = s.
Proof.
  induction s as [|c s IH]; [reflexivity|].
  simpl. destruct (c =? SPACE)%N eqn:E.
  - apply N.eqb_eq in E. subst c.
    pose proof (splitSpace_not_nil s) as N.
    destruct (splitSpace s) as [|p ps]; [congruence|].
    change (join [SPACE] ([] :: p :: ps)) with (SPACE :: join [SPACE] (p :: ps)).
    rewrite IH. reflexivity.
  - pose proof (splitSpace_not_nil s) as N.
    destruct (splitSpace s) as [|p [|q ps]]; [congruence | |];
      simpl in *; rewrite <- IH; reflexivity.
Qed.

Lemma Tidy_splitSpace t : Tidy t -> Forall Tidy (splitSpace t).
Proof.
  assert (NS : forall c, isWhiteSpace c = false -> (c =? SPACE)%N = false).
  { intros c Hc. destruct (c =? SPACE)%N eqn:E; [|reflexivity].
    apply eqb_space_isWhiteSpace in E. congruence. }
  induction 1 as [c Hc | c t Hc Ht IH | c d t Hc Hd Ht IH].
  - simpl. rewrite (NS c Hc). simpl.
    constructor; [constructor; exact Hc | constructor].
  - cbn [splitSpace]. rewrite (NS c Hc).
    apply consHead_Tidy_char; [exact Hc | exact IH | apply splitSpace_not_nil].
  - cbn [splitSpace]. rewrite (NS c Hc).
    destruct (d =? SPACE)%N.
    + cbn [consHead]. constructor; [constructor; exact Hc | exact IH].
    + pose proof (splitSpace_not_nil t) as N.
      destruct (splitSpace t) as [|p ps]; [congruence|].
      cbn [consHead]. inversion IH; subst.
      constructor; [apply Tidy_gap; assumption | assumption].
Qed.

Lemma weight_join ps :
  ps <> [] -> weight ps = S (length (join [SPACE] ps)).
Proof.
  induction ps as [|p ps IH]; [congruence|]. intros _.
  destruct ps as [|q ps]; [unfold weight; simpl; lia|].
  change (join [SPACE] (p :: q :: ps))
    with (p ++ [SPACE] ++ join [SPACE] (q :: ps)).
  specialize (IH ltac:(discriminate)).
  change (weight (p :: q :: ps)) with (S (length p) + weight (q :: ps)).
  rewrite IH, !length_app. simpl. lia.
Qed.

Lemma weight_app a b : weight (a ++ b) = weight a + weight b.
Proof. unfold weight. rewrite map_app, list_sum_app. reflexivity. Qed.

Lemma weight_lower ps : Forall Tidy ps -> 2 * length ps <= weight ps.
Proof.
  induction 1 as [|p ps Hp _ IH]; [unfold weight; simpl; lia|].
  apply Tidy_not_nil in Hp. unfold weight in *. cbn [map list_sum length].
  destruct p; [congruence|]. simpl. lia.
Qed.

(** Of two tidy pieces or more, none is as long as all of them joined. *)
Lemma pieces_short ps n :
  Forall Tidy ps -> 2 <= length ps -> weight ps = n + 2 ->
  Forall (fun p => length p + 1 <= n) ps.
Proof.
  intros F L W. apply Forall_forall. intros p Hin.
  apply in_split in Hin. destruct Hin as [l1 [l2 ->]].
  rewrite weight_app in W. change (p :: l2) with ([p] ++ l2) in W.
  rewrite weight_app in W.
  apply Forall_app in F. destruct F as [F1 F2]. inversion F2; subst.
  pose proof (weight_lower F1). pose proof (weight_lower H2).
  rewrite length_app in L. simpl in L.
  unfold weight at 2 in W. simpl in W. unfold jsstring, char in *. lia.
Qed.

End TidyTexts.

(** ** The split in sentences is the split of ECMAScript *)

Section RegexpSplit.

Lemma prepend_snoc pre c l :
  l <> [] -> prepend (pre ++ [c]) l = prepend pre (consHead c l).
Proof.
  destruct l as [|x xs]; [congruence|]. intros _. simpl.
  rewrite <- app_assoc. reflexivity.
Qed.

Lemma prepend_nil l : l <> [] -> prepend [] l = l.
Proof. destruct l; [congruence | reflexivity]. Qed.

Lemma isTerminator_not_blank c : isWhiteSpace c = true -> isTerminator c = false.
Proof.
  intros H. unfold isTerminator.
  destruct (c =? 46)%N eqn:E1; [apply N.eqb_eq in E1; subst; discriminate|].
  destruct (c =? 33)%N eqn:E2; [apply N.eqb_eq in E2; subst; discriminate|].
  destruct (c =? 63)%N eqn:E3; [apply N.eqb_eq in E3; subst; discriminate|].
  reflexivity.
Qed.

(** In a separator the state machine drops the rest of the run, and goes
    on as outside of it. *)
Lemma splitSentencesFrom_in_separator s : forall b,
  splitSentencesFrom true b s
  = splitSentencesFrom false false (skipn (blankPrefix s) s)
  \/ (blankPrefix s = 0 /\
      splitSentencesFrom true b s = splitSentencesFrom false b s).
Proof.
  induction s as [|c s IH]; intros b.
  - right. split; reflexivity.
  - cbn [blankPrefix splitSentencesFrom].
    destruct (isWhiteSpace c) eqn:Hc.
    + left. cbn [skipn]. destruct (IH false) as [E | [Z E]].
      * exact E.
      * rewrite Z. cbn [skipn]. exact E.
    + right. split; reflexivity.
Qed.

Lemma skipn_nth_error (s : jsstring) q c :
  nth_error s q = Some c -> skipn q s = c :: skipn (S q) s.
Proof.
  revert s. induction q as [|q IH]; intros [|d s] H; try discriminate.
  - inversion H. reflexivity.
  - simpl in H. apply IH in H. exact H.
Qed.

Lemma firstn_S_nth_error (s : jsstring) q c :
  nth_error s q = Some c -> firstn (S q) s = firstn q s ++ [c].
Proof.
  revert s. induction q as [|q IH]; intros [|d s] H; try discriminate.
  - inversion H. reflexivity.
  - simpl in H. rewrite !firstn_cons, (IH s H). reflexivity.
Qed.

Lemma firstn_skipn_snoc (s : jsstring) p q c :
  p <= q -> nth_error s q = Some c ->
  firstn (S q - p) (skipn p s) = firstn (q - p) (skipn p s) ++ [c].
Proof.
  intros L H. replace (S q - p) with (S (q - p)) by lia.
  apply firstn_S_nth_error. rewrite nth_error_skipn.
  replace (p + (q - p)) with q by lia. exact H.
Qed.

Lemma terminatorBefore_S s q c :
  nth_error s q = Some c -> terminatorBefore s (S q) = isTerminator c.
Proof. intros H. unfold terminatorBefore. rewrite H. reflexivity. Qed.

Lemma blankPrefix_le s : blankPrefix s <= length s.
Proof.
  induction s as [|c s IH]; simpl; [lia|]. destruct (isWhiteSpace c); simpl; lia.
Qed.

(** The character before the end of a run of white space is white. *)
Lemma terminatorBefore_after_run s q :
  0 < blankPrefix (skipn q s) ->
  terminatorBefore s (q + blankPrefix (skipn q s)) = false.
Proof.
  revert s. induction q as [|q IH]; intros s H.
  - cbn [skipn Nat.add] in *.
    assert (G : forall t, 0 < blankPrefix t ->
                          terminatorBefore t (blankPrefix t) = false).
    { induction t as [|c t IHt]; cbn [blankPrefix]; [lia|].
      destruct (isWhiteSpace c) eqn:Hc; [|lia]. intros _.
      destruct t as [|d t].
      - simpl. apply isTerminator_not_blank, Hc.
      - cbn [blankPrefix] in *. destruct (isWhiteSpace d) eqn:Hd.
        + specialize (IHt ltac:(lia)).
          unfold terminatorBefore in *. cbn [nth_error]. exact IHt.
        + simpl. apply isTerminator_not_blank, Hc. }
    apply G, H.
  - destruct s as [|c s]; [simpl in H; lia|].
    cbn [skipn] in *. specialize (IH s H).
    destruct (blankPrefix (skipn q s)) as [|k] eqn:Ek; [lia|].
    replace (S q + S k) with (S (q + S k)) by lia.
    replace (q + S k) with (S (q + k)) in * by lia.
    unfold terminatorBefore in *. cbn [nth_error]. exact IH.
Qed.

Lemma skipn_add (s : jsstring) a b : skipn (a + b) s = skipn b (skipn a s).
Proof. rewrite Nat.add_comm. symmetry. apply skipn_skipn. Qed.

Lemma splitLoop_splitSentencesFrom : forall fuel s p q,
  p <= q -> q <= length s -> length s - q <= fuel ->
  splitLoop fuel s p q
  = prepend (firstn (q - p) (skipn p s))
      (splitSentencesFrom false (terminatorBefore s q) (skipn q s)).
Proof.
  assert (Last : forall s p q, p <= q -> length s <= q ->
            [skipn p s]
            = prepend (firstn (q - p) (skipn p s))
                (splitSentencesFrom false (terminatorBefore s q) (skipn q s))).
  { intros s p q L1 L2. rewrite (skipn_all2 s L2). cbn [splitSentencesFrom prepend].
    rewrite app_nil_r, firstn_all2; [reflexivity|]. rewrite length_skipn. lia. }
  induction fuel as [|fuel IH]; intros s p q L1 L2 L3.
  - cbn [splitLoop]. apply Last; [exact L1 | lia].
  - cbn [splitLoop]. destruct (q <? length s) eqn:Lt.
    2:{ apply Nat.ltb_ge in Lt. apply Last; assumption. }
    apply Nat.ltb_lt in Lt.
    destruct (nth_error s q) as [c|] eqn:Hq;
      [|apply nth_error_None in Hq; lia].
    rewrite (skipn_nth_error _ _ Hq).
    unfold matchSeparatorAt. rewrite (skipn_nth_error _ _ Hq).
    cbn [blankPrefix splitSentencesFrom].
    assert (Step : splitLoop fuel s p (q + 1)
              = prepend (firstn (q - p) (skipn p s))
                  (consHead c (splitSentencesFrom false (isTerminator c)
                                 (skipn (S q) s)))).
    { rewrite IH by lia. replace (q + 1) with (S q) by lia.
      rewrite (terminatorBefore_S _ _ Hq).
      replace (S q - p) with (S q - p) by lia.
      rewrite (firstn_skipn_snoc _ L1 Hq).
      apply prepend_snoc, splitSentencesFrom_not_nil. }
    destruct (terminatorBefore s q) eqn:Tb.
    + destruct (isWhiteSpace c) eqn:Hc.
      * (* a separator starts at [q] *)
        cbn [Nat.ltb Nat.leb].
        set (run := S (blankPrefix (skipn (S q) s))).
        replace (q + run =? p) with false
          by (symmetry; apply Nat.eqb_neq; unfold run; lia).
        assert (Er : run = blankPrefix (skipn q s))
          by (rewrite (skipn_nth_error _ _ Hq); cbn [blankPrefix];
              rewrite Hc; reflexivity).
        pose proof (blankPrefix_le (skipn q s)) as Le.
        rewrite length_skipn, <- Er in Le.
        rewrite IH by lia.
        rewrite Nat.sub_diag. cbn [firstn].
        rewrite prepend_nil by apply splitSentencesFrom_not_nil.
        rewrite Er, terminatorBefore_after_run by (rewrite <- Er; unfold run; lia).
        rewrite <- Er. cbn [prepend]. rewrite app_nil_r. f_equal.
        unfold run. replace (q + S (blankPrefix (skipn (S q) s)))
          with (S q + blankPrefix (skipn (S q) s)) by lia.
        rewrite skipn_add.
        destruct (splitSentencesFrom_in_separator (skipn (S q) s) false)
          as [E | [Z E]].
        -- symmetry. exact E.
        -- rewrite Z. cbn [skipn]. symmetry. exact E.
      * cbn [Nat.ltb Nat.leb]. exact Step.
    + destruct (isWhiteSpace c) eqn:Hc.
      * rewrite Step, (isTerminator_not_blank _ Hc). reflexivity.
      * exact Step.
Qed.

(** The state machine is the split of ECMAScript. *)
Lemma regexpSplit_splitSentences s : regexpSplit s = splitSentences s.
Proof.
  destruct s as [|c s]; [reflexivity|]. unfold regexpSplit, splitSentences.
  rewrite splitLoop_splitSentencesFrom by (simpl; lia).
  cbn [Nat.sub firstn skipn terminatorBefore].
  apply prepend_nil, splitSentencesFrom_not_nil.
Qed.

End RegexpSplit.

(** ** A text one character too long makes two chunks *)

Section BoundaryText.

Lemma wordStep_accStep st piece :
  length piece + 1 <= MAX_CHUNK_SIZE -> wordStep st piece = accStep st piece.
Proof.
  intros L. destruct st as [chunks [|c buffer]]; unfold wordStep, accStep.
  - cbn [truthy app].
    replace (MAX_CHUNK_SIZE <? length (SPACE :: piece)) with false
      by (symmetry; apply Nat.ltb_ge; simpl; lia).
    reflexivity.
  - reflexivity.
Qed.

Lemma sentenceStep_accStep st piece :
  length piece <= MAX_CHUNK_SIZE -> sentenceStep st piece = accStep st piece.
Proof.
  intros L. destruct st as [chunks [|c buffer]]; unfold sentenceStep, accStep;
    replace (MAX_CHUNK_SIZE <? length piece) with false
      by (symmetry; apply Nat.ltb_ge; exact L).
  - cbn [truthy]. destruct (MAX_CHUNK_SIZE <? _); reflexivity.
  - reflexivity.
Qed.

Lemma fold_left_ext_Forall {A B} (f g : A -> B -> A) (P : B -> Prop) l :
  (forall a b, P b -> f a b = g a b) -> Forall P l ->
  forall a, fold_left f l a = fold_left g l a.
Proof.
  intros E. induction 1 as [|b l Hb _ IH]; intros a; [reflexivity|].
  simpl. rewrite E by exact Hb. apply IH.
Qed.

Lemma accStep_Accumulated st n piece :
  Accumulated st n -> Tidy piece -> length piece <= MAX_CHUNK_SIZE ->
  Accumulated (accStep st piece) (n + S (length piece)).
Proof.
  destruct st as [chunks buffer]. intros [F [T [L E]]] Tp Lp.
  cbn [fst snd] in *. unfold accStep.
  pose proof (Tidy_not_nil T) as N.
  destruct buffer as [|c buffer]; [congruence|]. cbn [truthy].
  destruct (MAX_CHUNK_SIZE <? length ((c :: buffer) ++ [SPACE] ++ piece)) eqn:G.
  - rewrite (Tidy_trim T). repeat split; cbn [fst snd].
    + apply Forall_app. split; [exact F | constructor; [exact T | constructor]].
    + exact Tp.
    + exact Lp.
    + intros Z. apply app_eq_nil in Z. destruct Z; discriminate.
  - apply Nat.ltb_ge in G. repeat split; cbn [fst snd].
    + exact F.
    + apply (Tidy_app_space T Tp).
    + exact G.
    + intros Z. specialize (E Z). rewrite length_app in *. simpl in *. lia.
Qed.

Lemma fold_accStep_Accumulated pieces : forall st n,
  Accumulated st n -> Forall Tidy pieces ->
  Forall (fun p => length p <= MAX_CHUNK_SIZE) pieces ->
  Accumulated (fold_left accStep pieces st) (n + weight pieces).
Proof.
  induction pieces as [|p pieces IH]; intros st n A T L.
  - unfold weight. simpl. rewrite Nat.add_0_r. exact A.
  - inversion T; subst. inversion L; subst. cbn [fold_left].
    change (weight (p :: pieces)) with (S (length p) + weight pieces).
    rewrite Nat.add_assoc. apply IH; [|assumption|assumption].
    apply accStep_Accumulated; assumption.
Qed.

(** Tidy pieces that fit one by one but not all together are flushed at
    least once. *)
Lemma fold_accStep_flushes pieces :
  pieces <> [] -> Forall Tidy pieces ->
  Forall (fun p => length p <= MAX_CHUNK_SIZE) pieces ->
  weight pieces = MAX_CHUNK_SIZE + 2 ->
  exists chunks buffer,
    fold_left accStep pieces ([], []) = (chunks, buffer) /\
    chunks <> [] /\ Forall Tidy chunks /\ Tidy buffer.
Proof.
  intros N T L W. destruct pieces as [|p pieces]; [congruence|].
  inversion T; subst. inversion L; subst.
  cbn [fold_left accStep truthy].
  assert (A0 : Accumulated ([], p) (S (length p)))
    by (repeat split; [constructor | assumption | assumption]).
  pose proof (fold_accStep_Accumulated A0 H2 H4) as A.
  change (weight (p :: pieces)) with (S (length p) + weight pieces) in W.
  rewrite W in A.
  destruct (fold_left accStep pieces ([], p)) as [chunks buffer].
  destruct A as [F [Tb [Lb E]]]. cbn [fst snd] in *.
  exists chunks, buffer. repeat split; try assumption.
  intros Z. specialize (E Z). lia.
Qed.

Lemma filter_nonempty_id (l : list jsstring) :
  Forall (fun chunk => chunk <> []) l ->
  filter (fun chunk : jsstring => 0 <? length chunk) l = l.
Proof.
  induction 1 as [|p l Hp _ IH]; [reflexivity|].
  simpl. destruct p; [congruence|].
  simpl. rewrite IH. reflexivity.
Qed.

Lemma Forall_weaken_length n (l : list jsstring) :
  Forall (fun p => length p + 1 <= n) l -> Forall (fun p => length p <= n) l.
Proof. apply Forall_impl. intros; lia. Qed.

(** The end of [chunkText] after a flush. *)
Lemma finish_flushed chunks buffer :
  chunks <> [] -> Forall (fun chunk => chunk <> []) chunks -> Tidy buffer ->
  2 <= length (filter (fun chunk : jsstring => 0 <? length chunk)
                 (if truthy buffer then chunks ++ [trim buffer] else chunks)).
Proof.
  intros N F T. pose proof (Tidy_not_nil T) as Nb.
  destruct buffer as [|c buffer]; [congruence|]. cbn [truthy].
  rewrite (Tidy_trim T), filter_nonempty_id.
  - rewrite length_app. destruct chunks; [congruence|]. simpl. lia.
  - apply Forall_app. split; [exact F | constructor; [exact Nb | constructor]].
Qed.

(** The words of a sentence one character too long. *)
Lemma fold_wordStep_boundary sentence :
  Tidy sentence -> length sentence = MAX_CHUNK_SIZE + 1 ->
  exists chunks wordChunk,
    fold_left wordStep (splitSpace sentence) ([], []) = (chunks, wordChunk) /\
    chunks <> [] /\ Forall (fun chunk => chunk <> []) chunks /\ Tidy wordChunk.
Proof.
  intros T L.
  pose proof (Tidy_splitSpace T) as Tw.
  pose proof (join_splitSpace sentence) as J.
  pose proof (splitSpace_not_nil sentence) as N.
  assert (W : weight (splitSpace sentence) = MAX_CHUNK_SIZE + 2)
    by (rewrite weight_join, J, L by exact N; lia).
  destruct (splitSpace sentence) as [|w [|w2 ws]] eqn:E; [congruence| |].
  - (* one word: it is cut at the limit *)
    cbn [join] in J. subst w. cbn [fold_left]. unfold wordStep.
    cbn [truthy app].
    replace (MAX_CHUNK_SIZE <? length (SPACE :: sentence)) with true
      by (symmetry; apply Nat.ltb_lt; simpl; lia).
    destruct (Tidy_last T) as [s' [c [-> Hc]]].
    rewrite length_app in L. simpl in L.
    assert (Ls : length s' = MAX_CHUNK_SIZE) by lia.
    exists [substringTo MAX_CHUNK_SIZE (s' ++ [c])],
           (substringFrom MAX_CHUNK_SIZE (s' ++ [c])).
    unfold substringTo, substringFrom.
    rewrite firstn_app, skipn_app, Ls, Nat.sub_diag.
    rewrite firstn_all2, skipn_all2 by lia. cbn [firstn skipn app].
    rewrite app_nil_r.
    split; [reflexivity|]. split; [discriminate|].
    pose proof MAX_CHUNK_SIZE_pos.
    split; [constructor; [destruct s'; [simpl in Ls; lia | discriminate]
                         | constructor]|].
    constructor; exact Hc.
  - (* several words: none is cut *)
    assert (Sh : Forall (fun p => length p + 1 <= MAX_CHUNK_SIZE)
                   (w :: w2 :: ws))
      by (apply pieces_short; [exact Tw | simpl; lia | exact W]).
    rewrite (fold_left_ext_Forall wordStep accStep
               (fun p p0 H => wordStep_accStep p p0 H) Sh).
    destruct (@fold_accStep_flushes (w :: w2 :: ws)) as [chunks [b [-> [Nc [F Tb]]]]];
      [discriminate | exact Tw | apply Forall_weaken_length, Sh | exact W |].
    exists chunks, b. split; [reflexivity|]. split; [exact Nc|].
    split; [|exact Tb].
    eapply Forall_impl; [|exact F]. intros a. apply Tidy_not_nil.
Qed.

Lemma chunkText_boundary_two text :
  tidy text = true -> length text = MAX_CHUNK_SIZE + 1 ->
  2 <= length (chunkText text).
Proof.
  intros T L. apply tidy_Tidy in T. unfold chunkText.
  replace (length text <=? MAX_CHUNK_SIZE) with false
    by (symmetry; apply Nat.leb_gt; lia).
  destruct (Tidy_splitSentencesFrom T false false) as [Ts Lj].
  fold (splitSentences text) in Ts, Lj.
  pose proof (splitSentencesFrom_not_nil text false false) as N.
  fold (splitSentences text) in N.
  assert (W : weight (splitSentences text) = MAX_CHUNK_SIZE + 2)
    by (rewrite weight_join, Lj, L by exact N; lia).
  destruct (splitSentences text) as [|s [|s2 ss]] eqn:E; [congruence| |].
  - (* one sentence: its words are taken one by one *)
    inversion Ts; subst.
    assert (Ls : length s = MAX_CHUNK_SIZE + 1)
      by (unfold weight in W; simpl in W; lia).
    cbn [fold_left]. unfold sentenceStep.
    replace (MAX_CHUNK_SIZE <? length s) with true
      by (symmetry; apply Nat.ltb_lt; lia).
    cbn [truthy].
    destruct (fold_wordStep_boundary H1 Ls) as [chunks [wc [-> [Nc [F Tw]]]]].
    pose proof (Tidy_not_nil Tw) as Nw.
    destruct wc as [|c wc]; [congruence|]. cbn [truthy].
    apply (finish_flushed Nc F Tw).
  - (* several sentences: each is shorter than the limit *)
    assert (Sh : Forall (fun p => length p + 1 <= MAX_CHUNK_SIZE)
                   (s :: s2 :: ss))
      by (apply pieces_short; [exact Ts | simpl; lia | exact W]).
    apply Forall_weaken_length in Sh.
    rewrite (fold_left_ext_Forall sentenceStep accStep
               (fun p p0 H => sentenceStep_accStep p p0 H) Sh).
    destruct (@fold_accStep_flushes (s :: s2 :: ss))
      as [chunks [b [-> [Nc [F Tb]]]]];
      [discriminate | exact Ts | exact Sh | exact W |].
    apply finish_flushed; [exact Nc | | exact Tb].
    eapply Forall_impl; [|exact F]. intros a. apply Tidy_not_nil.
Qed.

End BoundaryText.

(** ** The chunks fit when no token is too long *)

Section ChunkerFits.

Lemma length_dropWhile p s : length (dropWhile p s) <= length s.
Proof.
  induction s as [|c s IH]; simpl; [lia|]. destruct (p c); simpl; lia.
Qed.

Lemma length_trim s : length (trim s) <= length s.
Proof.
  unfold trim, trimEnd, trimStart. rewrite length_rev.
  etransitivity; [apply length_dropWhile|]. rewrite length_rev.
  apply length_dropWhile.
Qed.

Lemma Fits_flush chunks buffer :
  Fits (chunks, buffer) ->
  Forall (fun chunk => length chunk <= MAX_CHUNK_SIZE) (chunks ++ [trim buffer]).
Proof.
  intros [F L]. cbn [fst snd] in *. apply Forall_app. split; [exact F|].
  constructor; [|constructor]. pose proof (length_trim buffer). lia.
Qed.

Lemma wordStep_Fits st word :
  Fits st -> length word <= MAX_CHUNK_SIZE -> Fits (wordStep st word).
Proof.
  destruct st as [chunks wordChunk]. intros F Lw. unfold wordStep.
  destruct (MAX_CHUNK_SIZE <? length (wordChunk ++ [SPACE] ++ word)) eqn:G.
  - destruct (truthy wordChunk).
    + split; cbn [fst snd]; [apply Fits_flush, F | exact Lw].
    + destruct F as [F _]. cbn [fst snd] in *.
      unfold substringTo, substringFrom. split; cbn [fst snd].
      * apply Forall_app. split; [exact F|]. constructor; [|constructor].
        rewrite length_firstn. lia.
      * rewrite length_skipn. lia.
  - apply Nat.ltb_ge in G. destruct F as [F L]. cbn [fst snd] in *.
    destruct (truthy wordChunk); split; cbn [fst snd]; assumption.
Qed.

Lemma fold_wordStep_Fits ws : forall st,
  Fits st -> Forall (fun w => length w <= MAX_CHUNK_SIZE) ws ->
  Fits (fold_left wordStep ws st).
Proof.
  induction ws as [|w ws IH]; intros st F H; [exact F|].
  inversion H; subst. cbn [fold_left]. apply IH; [|assumption].
  apply wordStep_Fits; assumption.
Qed.

Lemma sentenceStep_Fits st sentence :
  Fits st -> Short MAX_CHUNK_SIZE sentence -> Fits (sentenceStep st sentence).
Proof.
  destruct st as [chunks currentChunk]. intros F HS. unfold sentenceStep.
  destruct (MAX_CHUNK_SIZE <? length sentence) eqn:G.
  - assert (W : forall chunks1 currentChunk1,
               Fits (chunks1, currentChunk1) ->
               Fits (let '(chunks2, wordChunk) :=
                       fold_left wordStep (splitSpace sentence) (chunks1, []) in
                     (chunks2,
                      if truthy wordChunk then wordChunk else currentChunk1))).
    { intros chunks1 currentChunk1 [F1 L1]. cbn [fst snd] in *.
      assert (F2 : Fits (chunks1, [])) by (split; [exact F1 | simpl; lia]).
      pose proof (fold_wordStep_Fits F2 HS) as F3.
      destruct (fold_left wordStep (splitSpace sentence) (chunks1, []))
        as [chunks2 wordChunk].
      destruct F3 as [F3 L3]. cbn [fst snd] in *.
      destruct (truthy wordChunk); split; cbn [fst snd]; assumption. }
    destruct (truthy currentChunk); apply W; [|exact F].
    split; cbn [fst snd]; [apply Fits_flush, F | simpl; lia].
  - apply Nat.ltb_ge in G.
    destruct (MAX_CHUNK_SIZE <? length (currentChunk ++ [SPACE] ++ sentence))
      eqn:G2.
    + destruct (truthy currentChunk); split; cbn [fst snd];
        [apply Fits_flush, F | exact G | apply F | exact G].
    + apply Nat.ltb_ge in G2. destruct F as [F L]. cbn [fst snd] in *.
      destruct (truthy currentChunk); split; cbn [fst snd]; assumption.
Qed.

Lemma fold_sentenceStep_Fits sentences : forall st,
  Fits st -> Forall (Short MAX_CHUNK_SIZE) sentences ->
  Fits (fold_left sentenceStep sentences st).
Proof.
  induction sentences as [|x sentences IH]; intros st F H; [exact F|].
  inversion H; subst. cbn [fold_left]. apply IH; [|assumption].
  apply sentenceStep_Fits; assumption.
Qed.

(** Where the limit holds: every chunk fits as soon as no run of the
    text between two spaces is longer than the limit. *)
Lemma chunkText_fits text :
  shortTokens text = true ->
  Forall (fun chunk => length chunk <= MAX_CHUNK_SIZE) (chunkText text).
Proof.
  intros HS. apply shortTokens_Short in HS. unfold chunkText.
  destruct (length text <=? MAX_CHUNK_SIZE) eqn:G.
  - apply Nat.leb_le in G. constructor; [exact G | constructor].
  - assert (F0 : Fits ([], [])) by (split; [constructor | simpl; lia]).
    pose proof (fold_sentenceStep_Fits F0
                  (Short_Pieces (Pieces_splitSentences text) HS)) as F.
    destruct (fold_left sentenceStep (splitSentences text) ([], []))
      as [chunks currentChunk].
    apply Forall_forall. intros chunk Hin. apply filter_In in Hin.
    destruct Hin as [Hin _]. revert chunk Hin. apply Forall_forall.
    destruct (truthy currentChunk); [apply Fits_flush, F | apply F].
Qed.

End ChunkerFits.

(** ** The chunker on some texts *)

Example splitSentences_example :
  splitSentences (lit "Hello. World!  How? ")
  = [lit "Hello."; lit "World!"; lit "How?"; []].
Proof. reflexivity. Qed.

Example regexpSplit_example :
  regexpSplit (lit "Hello. World!  How? ")
  = [lit "Hello."; lit "World!"; lit "How?"; []].
Proof. reflexivity. Qed.

Example splitSentences_needs_white_space :
  splitSentences (lit " v1.2 is out.Now") = [lit " v1.2 is out.Now"].
Proof. reflexivity. Qed.

Example splitSpace_example : splitSpace (lit "a  b") = [lit "a"; []; lit "b"].
Proof. reflexivity. Qed.

Example trim_example : trim (lit "  a b ") = lit "a b".
Proof. reflexivity. Qed.

(** A word of 5000 letters is cut in two, and the two pieces put
    together are the word. *)
Example chunkText_5000_letters :
  chunkText (repeat 97%N 5000) = [repeat 97%N 4000; repeat 97%N 1000].
Proof. vm_compute. reflexivity. Qed.

Example chunkText_three_sentences :
  chunkText threeSentences = [lit "a."; secondSentence; lit "c"].
Proof. vm_compute. reflexivity. Qed.

(** White space alone, more than the limit of it, makes no chunk. *)
Example chunkText_white_space_only : chunkText (repeat SPACE 4001) = [].
Proof. vm_compute. reflexivity. Qed.

(** ** The claims about the chunker *)

(** C1 (the code fails it): every chunk is at most [MAX_CHUNK_SIZE] long.
    A word is cut once only, at the limit, and what is left of it becomes
    the buffer whatever its length: of a word of 9000 characters the chunker
    returns the first 4000 and then the other 5000 in one chunk. *)
Theorem chunkText_long_word_overflows :
  chunkText (repeat 97%N 9000) = [repeat 97%N 4000; repeat 97%N 5000] /\
  exists chunk, In chunk (chunkText (repeat 97%N 9000)) /\
                MAX_CHUNK_SIZE < length chunk.
Proof.
  assert (E : chunkText (repeat 97%N 9000)
              = [repeat 97%N 4000; repeat 97%N 5000])
    by (vm_compute; reflexivity).
  split; [exact E|].
  exists (repeat 97%N 5000). rewrite E. split.
  - right. left. reflexivity.
  - apply Nat.ltb_lt. vm_compute. reflexivity.
Qed.

(** C2 (as amended): the chunks of a text, joined by single spaces, hold
    the characters of the text that are not white space, all of them and in
    order; and the words of the joined chunks are the words of the text
    whenever no forced split of the chunker (lines 244-247) falls inside a
    word.  What a forced split inside a word leaves of the words is not
    stated here. *)
Theorem chunkText_reconstructs text :
  content (join [SPACE] (chunkText text)) = content text /\
  (wordsWhole text = true ->
   wordsOf (join [SPACE] (chunkText text)) = wordsOf text).
Proof.
  split.
  - rewrite content_join_space. apply chunkText_content.
  - intros H. rewrite words_join_space. apply chunkText_words, H.
Qed.

(** C2 as it is stated fails: a word of 4001 characters comes back as two
    words. *)
Lemma chunkText_cuts_long_word :
  wordsOf (join [SPACE] (chunkText (repeat 97%N 4001)))
  <> wordsOf (repeat 97%N 4001).
Proof. vm_compute. discriminate. Qed.

(** The forced split also cuts words that are not too long.  The word
    loop splits its sentence at U+0020 only (line 236), so that short words
    on lines of their own reach it as one piece, which it takes for a single
    word (line 245).  Of 1667 lines [ab] the 1334th comes back as [a] and
    [b]. *)
Lemma chunkText_cuts_short_word :
  wordsOf linesOfAb = repeat (lit "ab") 1667 /\
  wordsOf (join [SPACE] (chunkText linesOfAb))
  = repeat (lit "ab") 1333 ++ [lit "a"; lit "b"] ++ repeat (lit "ab") 333.
Proof. split; vm_compute; reflexivity. Qed.

(** C2, witness: two sentences that go in two chunks, with no forced
    split; and a word of [MAX_CHUNK_SIZE] characters, a line feed and a
    letter, which are one piece, split by force between the word and the
    line feed. *)
Lemma chunkText_reconstructs_witness :
  (content (join [SPACE] (chunkText (lit "Hi there. " ++ secondSentence)))
   = content (lit "Hi there. " ++ secondSentence) /\
   wordsOf (join [SPACE] (chunkText (lit "Hi there. " ++ secondSentence)))
   = wordsOf (lit "Hi there. " ++ secondSentence)) /\
  (forceSplitsOf wordAndLetter = [wordAndLetter] /\
   content (join [SPACE] (chunkText wordAndLetter)) = content wordAndLetter /\
   wordsOf (join [SPACE] (chunkText wordAndLetter)) = wordsOf wordAndLetter).
Proof.
  split.
  - destruct (chunkText_reconstructs (lit "Hi there. " ++ secondSentence))
      as [C W].
    split; [exact C | apply W; vm_compute; reflexivity].
  - destruct (chunkText_reconstructs wordAndLetter) as [C W].
    split; [vm_compute; reflexivity|].
    split; [exact C | apply W; vm_compute; reflexivity].
Defined.

(** C3 (as amended): a text of at most [MAX_CHUNK_SIZE] characters comes
    back as it is, in one chunk, its white space kept; a text of
    [MAX_CHUNK_SIZE + 1] characters that is tidy, so that trimming the
    chunks and joining the sentences remove nothing, makes two chunks at
    least. *)
Theorem chunkText_boundary text :
  (length text <= MAX_CHUNK_SIZE -> chunkText text = [text]) /\
  (length text = MAX_CHUNK_SIZE + 1 -> tidy text = true ->
   2 <= length (chunkText text)).
Proof.
  split.
  - intros L. unfold chunkText. apply Nat.leb_le in L. rewrite L. reflexivity.
  - intros L T. apply chunkText_boundary_two; assumption.
Qed.

(** C3, witness: a short text with white space around it, and 4001
    letters. *)
Lemma chunkText_boundary_witness :
  chunkText (lit " Hi there. ") = [lit " Hi there. "] /\
  2 <= length (chunkText (repeat 97%N 4001)).
Proof.
  split.
  - apply (proj1 (chunkText_boundary (lit " Hi there. "))).
    apply Nat.leb_le. vm_compute. reflexivity.
  - apply (proj2 (chunkText_boundary (repeat 97%N 4001)));
      vm_compute; reflexivity.
Defined.

(** C3 as it is stated fails, both halves: a short text is not trimmed,
    and 4000 letters and a space are 4001 characters in one chunk. *)
Lemma chunkText_boundary_not_as_stated :
  (length (lit " a") <= MAX_CHUNK_SIZE /\
   chunkText (lit " a") <> [trim (lit " a")]) /\
  (length (repeat 97%N 4000 ++ [SPACE]) = MAX_CHUNK_SIZE + 1 /\
   length (chunkText (repeat 97%N 4000 ++ [SPACE])) = 1).
Proof.
  split; split.
  - apply Nat.leb_le. vm_compute. reflexivity.
  - vm_compute. discriminate.
  - vm_compute. reflexivity.
  - vm_compute. reflexivity.
Qed.

(** C4: a text that is not empty once trimmed gets at least one chunk, and
    none of its chunks is empty. *)
Theorem chunkText_nonempty text :
  trim text <> [] ->
  chunkText text <> [] /\ Forall (fun chunk => chunk <> []) (chunkText text).
Proof.
  intros H. split.
  - apply chunkText_not_nil, H.
  - apply chunkText_chunks_nonempty. intros E. subst text. apply H. reflexivity.
Qed.

(** C4, witness. *)
Lemma chunkText_nonempty_witness :
  chunkText (lit " Hi there. ") <> [] /\
  Forall (fun chunk => chunk <> []) (chunkText (lit " Hi there. ")).
Proof.
  apply chunkText_nonempty. vm_compute. discriminate.
Defined.

(** ** Running programs *)

(** Lists of calls are compared after all [++] are put to the right. *)
Ltac norm_app :=
  repeat (rewrite <- app_assoc || rewrite <- app_comm_cons); cbn [app].

Section Running.

Context {A B : Type}.

Lemma bind_returned (m : prog A) (k : A -> prog B) h a ev r ev' :
  m h = (Returned a, ev) -> k a (h ++ ev) = (r, ev') ->
  bind m k h = (r, ev ++ ev').
Proof. intros Hm Hk. unfold bind. rewrite Hm, Hk. reflexivity. Qed.

Lemma bind_threw (m : prog A) (k : A -> prog B) h e ev :
  m h = (Threw e, ev) -> bind m k h = (Threw e, ev).
Proof. intros Hm. unfold bind. rewrite Hm. reflexivity. Qed.

Lemma bind_inv (m : prog A) (k : A -> prog B) h r ev :
  bind m k h = (r, ev) ->
  (exists a ev1 ev2, m h = (Returned a, ev1) /\ k a (h ++ ev1) = (r, ev2)
                     /\ ev = ev1 ++ ev2)
  \/ (exists e, m h = (Threw e, ev) /\ r = Threw e).
Proof.
  unfold bind. destruct (m h) as [[a|e] ev1].
  - destruct (k a (h ++ ev1)) as [r' ev2] eqn:Hk. intros H. inversion H; subst.
    left. exists a, ev1, ev2. auto.
  - intros H. inversion H; subst. right. exists e. auto.
Qed.

Lemma tryCatch_inv (m : prog A) (handler : exn -> prog A) h r ev :
  tryCatch m handler h = (r, ev) ->
  (exists a, m h = (Returned a, ev) /\ r = Returned a)
  \/ (exists e ev1 ev2, m h = (Threw e, ev1) /\ handler e (h ++ ev1) = (r, ev2)
                        /\ ev = ev1 ++ ev2).
Proof.
  unfold tryCatch. destruct (m h) as [[a|e] ev1].
  - intros H. inversion H; subst. left. exists a. auto.
  - destruct (handler e (h ++ ev1)) as [r' ev2] eqn:Hk.
    intros H. inversion H; subst. right. exists e, ev1, ev2. auto.
Qed.

End Running.

(** ** What a list of calls shows *)

Lemma speechCalls_app a b : speechCalls (a ++ b) = speechCalls a + speechCalls b.
Proof. unfold speechCalls. rewrite filter_app, length_app. reflexivity. Qed.

Lemma delays_app a b : delays (a ++ b) = delays a ++ delays b.
Proof. apply flat_map_app. Qed.

Lemma startedChunks_app a b :
  startedChunks (a ++ b) = startedChunks a ++ startedChunks b.
Proof. apply flat_map_app. Qed.

Section Converter.

Variable w : World.
Variable config : Config.

(** One attempt is one synthesis request, then the writing of the
    fragment when there is one. *)
Lemma attemptConversion_events text chunkIndex h r ev :
  attemptConversion w config text chunkIndex h = (r, ev) ->
  speechCalls ev = 1 /\ delays ev = [] /\ startedChunks ev = [] /\
  match r with
  | Returned p => p = tempPath config chunkIndex
  | Threw _ => True
  end.
Proof.
  unfold attemptConversion, bind, speechCreate, writeFile, ret.
  destruct (speech_create w h _ _ _ _) as [buffer|e].
  - destruct (fs_writeFile w _ _ _) as [[]|e];
      intros H; inversion H; subst; repeat split; reflexivity.
  - intros H; inversion H; subst. repeat split; reflexivity.
Qed.

(** The retry loop with [remaining] turns to go: it makes at least one
    and at most [remaining] requests, waits [1000 * attempt] after each
    failed attempt but the last possible one, and when it throws it has
    used all its turns and throws what the last attempt threw. *)
Lemma retryLoop_events text chunkIndex maxRetries :
  forall remaining attempt lastError h r ev,
    attempt + remaining = maxRetries + 1 ->
    retryLoop w config text chunkIndex maxRetries remaining attempt lastError h
    = (r, ev) ->
    speechCalls ev <= remaining /\
    (0 < remaining -> 0 < speechCalls ev) /\
    delays ev = map backoff (seq attempt (speechCalls ev - 1)) /\
    startedChunks ev = [] /\
    match r with
    | Returned p => p = tempPath config chunkIndex
    | Threw e =>
        speechCalls ev = remaining /\
        ((remaining = 0 /\ e = lastError) \/
         exists before last,
           ev = before ++ last /\
           attemptConversion w config text chunkIndex (h ++ before)
           = (Threw e, last))
    end.
Proof.
  induction remaining as [|remaining IH]; intros attempt lastError h r ev Hn H.
  - cbn [retryLoop] in H. unfold throw in H. inversion H; subst.
    repeat split; auto.
  - cbn [retryLoop] in H. apply tryCatch_inv in H.
    destruct H as [[p [Ha ->]] | [e [ev1 [ev2 [Ha [Hh ->]]]]]].
    + destruct (attemptConversion_events _ _ _ Ha) as [C [D [S1 P]]].
      rewrite C, D. repeat split; auto; lia.
    + destruct (attemptConversion_events _ _ _ Ha) as [C [D [S1 _]]].
      apply bind_inv in Hh.
      destruct Hh as [[[] [ev3 [ev4 [Hw [Hr ->]]]]] | [e' [Hw _]]].
      2:{ destruct (attempt <? maxRetries); [|discriminate].
          unfold bind, emit in Hw. discriminate. }
      assert (Hn' : S attempt + remaining = maxRetries + 1) by lia.
      destruct (IH _ _ _ _ _ Hn' Hr) as [L [Pos [Dl [St R]]]].
      assert (W : ev3 = if 0 <? remaining
                        then [ConsoleLog (RetryWarning chunkIndex attempt maxRetries);
                              SetTimeout (backoff attempt)]
                        else []).
      { destruct (attempt <? maxRetries) eqn:Lt.
        - apply Nat.ltb_lt in Lt. unfold bind, emit in Hw.
          inversion Hw; subst.
          destruct (0 <? remaining) eqn:G; [reflexivity|].
          apply Nat.ltb_ge in G. lia.
        - apply Nat.ltb_ge in Lt. unfold ret in Hw. inversion Hw; subst.
          destruct (0 <? remaining) eqn:G; [|reflexivity].
          apply Nat.ltb_lt in G. lia. }
      clear Hw.
      rewrite !speechCalls_app, !delays_app, !startedChunks_app, C, D, S1, St.
      destruct remaining as [|remaining].
      * cbn [Nat.ltb Nat.leb] in W. subst ev3. clear IH L Pos Dl St R.
        cbn [retryLoop] in Hr. unfold throw in Hr. inversion Hr; subst.
        repeat split; auto.
        right. exists [], ev1. rewrite !app_nil_r. split; [reflexivity | exact Ha].
      * cbn [Nat.ltb Nat.leb] in W. subst ev3.
        assert (P4 : 0 < speechCalls ev4) by (apply Pos; lia).
        change (speechCalls [ConsoleLog (RetryWarning chunkIndex attempt maxRetries);
                             SetTimeout (backoff attempt)]) with 0.
        change (delays [ConsoleLog (RetryWarning chunkIndex attempt maxRetries);
                        SetTimeout (backoff attempt)]) with [backoff attempt].
        change (startedChunks
                  [ConsoleLog (RetryWarning chunkIndex attempt maxRetries);
                   SetTimeout (backoff attempt)]) with (@nil nat).
        split; [lia|]. split; [lia|]. split.
        { rewrite Dl.
          replace (1 + (0 + speechCalls ev4) - 1)
            with (S (speechCalls ev4 - 1)) by lia.
          reflexivity. }
        split; [reflexivity|].
        destruct r as [p|e0]; [exact R|].
        destruct R as [E [[Z _] | [before [last [-> Hl]]]]]; [discriminate|].
        split; [lia|]. right.
        exists (ev1 ++ [ConsoleLog (RetryWarning chunkIndex attempt maxRetries);
                        SetTimeout (backoff attempt)] ++ before), last.
        split; [rewrite <- !app_assoc; reflexivity|].
        rewrite <- Hl. f_equal. rewrite <- !app_assoc. reflexivity.
Qed.

End Converter.

Section ConverterShape.

Variable w : World.
Variable config : Config.

Lemma convertSingleChunk_events text chunkIndex h r ev :
  convertSingleChunk w config text chunkIndex h = (r, ev) ->
  0 < speechCalls ev <= 3 /\
  delays ev = map backoff (seq 1 (speechCalls ev - 1)) /\
  startedChunks ev = [chunkIndex] /\
  match r with
  | Returned p => p = tempPath config chunkIndex
  | Threw e =>
      speechCalls ev = 3 /\
      exists before last,
        ev = before ++ last /\
        attemptConversion w config text chunkIndex (h ++ before)
        = (Threw e, last)
  end.
Proof.
  unfold convertSingleChunk, convertSingleChunkWith. intros H.
  apply bind_inv in H.
  destruct H as [[[] [ev1 [ev2 [He [Hr ->]]]]] | [e [He _]]];
    [|unfold emit in He; discriminate].
  unfold emit in He. inversion He; subst. clear He.
  pose proof Hr as Hr'.
  apply retryLoop_events in Hr'; [|reflexivity].
  destruct Hr' as [L [Pos [Dl [St R]]]].
  rewrite speechCalls_app, delays_app, startedChunks_app, St.
  change (speechCalls [ConsoleLog (ChunkInfo chunkIndex (truncatedText text)
                                     (length text))]) with 0.
  split; [split; [apply Pos|]; lia|].
  split; [exact Dl|]. split; [reflexivity|].
  destruct r as [p|e]; [exact R|].
  destruct R as [E [[Z _] | [before [last [-> Hl]]]]]; [discriminate|].
  split; [exact E|].
  exists ([ConsoleLog (ChunkInfo chunkIndex (truncatedText text) (length text))]
          ++ before), last.
  split; [reflexivity|]. rewrite <- Hl. f_equal.
  rewrite <- app_assoc. reflexivity.
Qed.

Lemma attemptConversion_shape text chunkIndex h r ev :
  attemptConversion w config text chunkIndex h = (r, ev) ->
  match r with
  | Returned _ => exists data, ev = successfulEnd config text chunkIndex data
  | Threw _ => Forall (retryEvent config text chunkIndex) ev
  end.
Proof.
  unfold attemptConversion, bind, speechCreate, writeFile, ret.
  destruct (speech_create w h _ _ _ _) as [buffer|e].
  - destruct (fs_writeFile w _ _ _) as [[]|e];
      intros H; inversion H; subst.
    + exists buffer. reflexivity.
    + repeat constructor.
  - intros H; inversion H; subst. repeat constructor.
Qed.

Lemma retryLoop_shape text chunkIndex maxRetries :
  forall remaining attempt lastError h p ev,
    retryLoop w config text chunkIndex maxRetries remaining attempt lastError h
    = (Returned p, ev) ->
    exists failed data,
      ev = failed ++ successfulEnd config text chunkIndex data /\
      Forall (retryEvent config text chunkIndex) failed.
Proof.
  induction remaining as [|remaining IH]; intros attempt lastError h p ev H.
  - cbn [retryLoop] in H. unfold throw in H. discriminate.
  - cbn [retryLoop] in H. apply tryCatch_inv in H.
    destruct H as [[p' [Ha E]] | [e [ev1 [ev2 [Ha [Hh ->]]]]]].
    + apply attemptConversion_shape in Ha. destruct Ha as [data ->].
      exists [], data. split; [reflexivity | constructor].
    + pose proof Ha as F1. apply attemptConversion_shape in F1.
      apply bind_inv in Hh.
      destruct Hh as [[[] [ev3 [ev4 [Hw [Hr ->]]]]] | [e' [_ Hx]]];
        [|discriminate].
      apply IH in Hr. destruct Hr as [failed [data [-> F4]]].
      assert (F3 : Forall (retryEvent config text chunkIndex) ev3).
      { destruct (attempt <? maxRetries).
        - unfold bind, emit in Hw. inversion Hw; subst.
          repeat constructor.
        - unfold ret in Hw. inversion Hw; subst. constructor. }
      exists (ev1 ++ ev3 ++ failed), data. split.
      * rewrite <- !app_assoc. reflexivity.
      * apply Forall_app. split; [exact F1|].
        apply Forall_app. split; [exact F3 | exact F4].
Qed.

Lemma convertSingleChunk_shape text chunkIndex h p ev :
  convertSingleChunk w config text chunkIndex h = (Returned p, ev) ->
  exists failed data,
    ev = ConsoleLog (ChunkInfo chunkIndex (truncatedText text) (length text))
         :: failed ++ successfulEnd config text chunkIndex data /\
    Forall (retryEvent config text chunkIndex) failed.
Proof.
  unfold convertSingleChunk, convertSingleChunkWith. intros H.
  apply bind_inv in H.
  destruct H as [[[] [ev1 [ev2 [He [Hr ->]]]]] | [e [_ Hx]]]; [|discriminate].
  unfold emit in He. inversion He; subst. clear He.
  apply retryLoop_shape in Hr. destruct Hr as [failed [data [-> F]]].
  exists failed, data. split; [reflexivity | exact F].
Qed.

End ConverterShape.

(** ** The loop over the chunks *)

Section Loop.

Variable w : World.
Variable config : Config.
Variable nChunks : nat.

Lemma convertChunks_cons i chunk rest paths h :
  convertChunks w config nChunks i (chunk :: rest) paths h =
  match convertSingleChunk w config chunk (i + 1)
          (h ++ [convertingNotice nChunks i]) with
  | (Threw e, evc) => (Threw e, convertingNotice nChunks i :: evc)
  | (Returned p, evc) =>
      let '(r, evr) :=
        convertChunks w config nChunks (S i) rest (paths ++ [p])
          (h ++ convertingNotice nChunks i :: evc ++ pacing nChunks i) in
      (r, convertingNotice nChunks i :: evc ++ pacing nChunks i ++ evr)
  end.
Proof.
  cbn [convertChunks]. unfold bind at 1. unfold emit at 1.
  unfold bind at 1.
  destruct (convertSingleChunk w config chunk (i + 1)
              (h ++ [convertingNotice nChunks i])) as [[p|e] evc];
    [|reflexivity].
  unfold bind at 1. unfold pacing.
  destruct (i <? nChunks - 1).
  - unfold emit at 1.
    replace (((h ++ [convertingNotice nChunks i]) ++ evc) ++ [SetTimeout 1000])
      with (h ++ convertingNotice nChunks i :: evc ++ [SetTimeout 1000])
      by (rewrite <- !app_assoc; reflexivity).
    destruct (convertChunks w config nChunks (S i) rest (paths ++ [p]) _)
      as [r evr].
    reflexivity.
  - unfold ret at 1.
    replace (((h ++ [convertingNotice nChunks i]) ++ evc) ++ [])
      with (h ++ convertingNotice nChunks i :: evc ++ [])
      by (rewrite <- !app_assoc; reflexivity).
    destruct (convertChunks w config nChunks (S i) rest (paths ++ [p]) _)
      as [r evr].
    reflexivity.
Qed.

(** The chunks are started in the order of their indices, one after the
    other, and when the loop returns it started them all. *)
Lemma convertChunks_started : forall rest i paths h r ev,
  convertChunks w config nChunks i rest paths h = (r, ev) ->
  exists k,
    startedChunks ev = seq (i + 1) k /\ k <= length rest /\
    match r with
    | Returned ps =>
        k = length rest /\ ps = paths ++ map (tempPath config) (seq (i + 1) k)
    | Threw _ => 0 < k
    end.
Proof.
  induction rest as [|chunk rest IH]; intros i paths h r ev H.
  - cbn [convertChunks] in H. unfold ret in H. inversion H; subst.
    exists 0. simpl. rewrite app_nil_r. auto.
  - rewrite convertChunks_cons in H.
    destruct (convertSingleChunk w config chunk (i + 1) _) as [[p|e] evc] eqn:Hc.
    + destruct (convertChunks w config nChunks (S i) rest _ _) as [r' evr] eqn:Hr.
      inversion H; subst. clear H.
      apply convertSingleChunk_events in Hc. destruct Hc as [_ [_ [Sc ->]]].
      apply IH in Hr. destruct Hr as [k [Sk [Lk R]]].
      exists (S k).
      change (convertingNotice nChunks i :: evc ++ pacing nChunks i ++ evr)
        with ([convertingNotice nChunks i] ++ evc ++ pacing nChunks i ++ evr).
      rewrite !startedChunks_app, Sc, Sk.
      replace (startedChunks (pacing nChunks i)) with (@nil nat)
        by (unfold pacing; destruct (i <? nChunks - 1); reflexivity).
      replace (S i + 1) with (S (i + 1)) by lia.
      split; [reflexivity|]. split; [simpl; lia|].
      destruct r as [ps|e]; [|lia].
      destruct R as [-> ->]. split; [reflexivity|].
      rewrite <- app_assoc. reflexivity.
    + inversion H; subst. clear H.
      apply convertSingleChunk_events in Hc. destruct Hc as [_ [_ [Sc _]]].
      exists 1.
      change (convertingNotice nChunks i :: evc)
        with ([convertingNotice nChunks i] ++ evc).
      rewrite startedChunks_app, Sc. simpl. repeat split; lia.
Qed.


End Loop.

(** ** The merger and the orchestrator, run *)

Section Orchestrator.

Variable w : World.
Variable config : Config.

Lemma forEach_unlink_deleted : forall paths h,
  deleted w h paths ->
  forEach (unlink w) paths h = (Returned tt, map Unlink paths).
Proof.
  induction paths as [|p paths IH]; intros h D; [reflexivity|].
  cbn [forEach]. unfold bind. unfold unlink at 1.
  pose proof (D 0 p eq_refl) as D0. cbn [firstn map] in D0.
  rewrite app_nil_r in D0. rewrite D0.
  rewrite IH; [reflexivity|].
  intros k path Hk. specialize (D (S k) path Hk).
  cbn [firstn map] in D. rewrite <- app_assoc. exact D.
Qed.

Lemma mergeAudioFiles_run chunkPaths outputPath format h :
  fs_writeFile w h listPath (listContent chunkPaths) = Returned tt ->
  mergeAudioFiles w chunkPaths outputPath format h =
  match execAsync w (h ++ [WriteFile listPath (listContent chunkPaths)])
          (ffmpegCmd outputPath) with
  | Threw _ =>
      (Threw mergeFailed,
       [WriteFile listPath (listContent chunkPaths); Exec (ffmpegCmd outputPath)])
  | Returned _ =>
      match (unlink w listPath ;; forEach (unlink w) chunkPaths)
              (h ++ [WriteFile listPath (listContent chunkPaths);
                     Exec (ffmpegCmd outputPath)]) with
      | (Returned _, ev) =>
          (Returned tt,
           WriteFile listPath (listContent chunkPaths)
           :: Exec (ffmpegCmd outputPath) :: ev)
      | (Threw _, ev) =>
          (Threw mergeFailed,
           WriteFile listPath (listContent chunkPaths)
           :: Exec (ffmpegCmd outputPath) :: ev)
      end
  end.
Proof.
  intros Hw. unfold mergeAudioFiles.
  set (cleanup := unlink w listPath;; forEach (unlink w) chunkPaths).
  unfold bind at 1. unfold writeFile at 1.
  rewrite Hw. unfold tryCatch. unfold bind at 1. unfold exec at 1.
  destruct (execAsync w _ _) as [[]|e]; [|reflexivity].
  replace ((h ++ [WriteFile listPath (listContent chunkPaths)])
           ++ [Exec (ffmpegCmd outputPath)])
    with (h ++ [WriteFile listPath (listContent chunkPaths);
                Exec (ffmpegCmd outputPath)])
    by (norm_app; reflexivity).
  destruct (cleanup _) as [[[]|e] ev]; [reflexivity|].
  unfold throw. cbn [app]. rewrite app_nil_r. reflexivity.
Qed.

Lemma convertTextToSpeech_run text h :
  convertTextToSpeech w config text h =
  match tryBlock w config text (h ++ [analyzing]) with
  | (Returned a, ev) => (Returned a, analyzing :: ev)
  | (Threw e, ev) =>
      (Threw (dispatchError e), analyzing :: ev ++ [conversionFailed])
  end.
Proof.
  unfold convertTextToSpeech. unfold bind at 1. unfold emit at 1.
  unfold tryCatch. fold analyzing.
  destruct (tryBlock w config text (h ++ [analyzing])) as [[[]|e] ev];
    reflexivity.
Qed.

(** In the branch of several chunks, what the loop throws leaves the
    [try] block at once. *)
Lemma tryBlock_loop_threw text h e evl :
  length (chunkText text) <> 1 ->
  convertChunks w config (length (chunkText text)) 0 (chunkText text) []
    (h ++ [processing (length (chunkText text));
           ConsoleLog (SplittingInfo (length text) (length (chunkText text)))])
  = (Threw e, evl) ->
  tryBlock w config text h =
  (Threw e,
   processing (length (chunkText text))
   :: ConsoleLog (SplittingInfo (length text) (length (chunkText text)))
   :: evl).
Proof.
  intros Hn Hl. unfold tryBlock.
  apply Nat.eqb_neq in Hn. rewrite Hn.
  apply bind_threw. unfold convertInChunks.
  unfold bind at 1. unfold emit at 1. fold (processing (length (chunkText text))).
  unfold bind at 1. unfold emit at 1.
  unfold bind at 1.
  replace ((h ++ [processing (length (chunkText text))])
           ++ [ConsoleLog (SplittingInfo (length text) (length (chunkText text)))])
    with (h ++ [processing (length (chunkText text));
                ConsoleLog (SplittingInfo (length text)
                              (length (chunkText text)))])
    by (norm_app; reflexivity).
  rewrite Hl. reflexivity.
Qed.

(** The branch of one chunk, call by call. *)
Lemma convertDirect_run text outputPath h :
  convertDirect w config text outputPath h =
  let request :=
    SpeechCreate (lit "tts-1") (voice config) text (audioFormat config) in
  let converting := Spinner Text (lit "Converting text to speech...") in
  let saving := Spinner Text (lit "Saving audio file...") in
  match speech_create w (h ++ [converting]) (lit "tts-1") (voice config) text
          (audioFormat config) with
  | Threw e => (Threw e, [converting; request])
  | Returned buffer =>
      (fs_writeFile w (h ++ [converting; request; saving]) outputPath buffer,
       [converting; request; saving; WriteFile outputPath buffer])
  end.
Proof.
  unfold convertDirect. unfold bind at 1. unfold emit at 1.
  unfold bind at 1. unfold speechCreate at 1.
  destruct (speech_create w _ _ _ _ _) as [buffer|e]; [|reflexivity].
  unfold bind at 1. unfold emit at 1. unfold writeFile.
  cbn [app]. norm_app. reflexivity.
Qed.

Lemma reportSuccess_quiet chunks outputPath h r ev :
  reportSuccess w config chunks outputPath h = (r, ev) -> Forall quiet ev.
Proof.
  unfold reportSuccess. unfold bind at 1. unfold emit at 1.
  unfold bind at 1. unfold stat at 1.
  destruct (fs_stat w _ _) as [size|e].
  - unfold bind, emit, ret. destruct (1 <? length chunks);
      intros H; inversion H; subst; repeat constructor.
  - intros H; inversion H; subst; repeat constructor.
Qed.

End Orchestrator.

(** ** Some runs *)

(** Three chunks in a world that obliges: three requests in order, a
    wait between two of them, the merge, and no fragment left. *)
Example run_of_three_chunks :
  let run := convertTextToSpeech obligingWorld sampleConfig threeSentences [] in
  (fst run, startedChunks (snd run), speechCalls (snd run), delays (snd run),
   filter (fun c => match c with Unlink _ => true | _ => false end) (snd run))
  = (Returned tt, [1; 2; 3], 3, [1000%N; 1000%N],
     [Unlink listPath; Unlink (lit "output_chunk_1.mp3");
      Unlink (lit "output_chunk_2.mp3"); Unlink (lit "output_chunk_3.mp3")]).
Proof. vm_compute. reflexivity. Qed.

(** A short text: one request, the file written at once. *)
Example run_of_one_chunk :
  convertTextToSpeech obligingWorld sampleConfig (lit "Hi.") []
  = (Returned tt,
     [analyzing; Spinner Text (lit "Converting text to speech...");
      SpeechCreate (lit "tts-1") (lit "alloy") (lit "Hi.") (lit "mp3");
      Spinner Text (lit "Saving audio file...");
      WriteFile (lit "output.mp3") (lit "audio");
      Spinner Succeed (lit "Audio saved to: output.mp3");
      Stat (lit "output.mp3"); ConsoleLog (FileSize 5);
      ConsoleLog (VoiceInfo (lit "alloy")); ConsoleLog (FormatInfo (lit "mp3"))]).
Proof. vm_compute. reflexivity. Qed.

(** Without the merge tool the run ends with the error of the merger, and
    the fragments are left. *)
Example run_without_merge_tool :
  let run :=
    convertTextToSpeech noMergeToolWorld sampleConfig threeSentences [] in
  (fst run,
   filter (fun c => match c with Unlink _ => true | _ => false end) (snd run))
  = (Threw mergeFailed, []).
Proof. vm_compute. reflexivity. Qed.

(** ** The claims about errors *)

Section ErrorClaims.

Variable w : World.
Variable config : Config.

Lemma dispatchError_category e c :
  categoryOf e = Some c -> dispatchError e = Err None (categoryMessage c).
Proof.
  destruct e as [|code message]; [discriminate|].
  unfold categoryOf, dispatchError.
  destruct (codeIs code (lit "invalid_api_key")); [intros H; inversion H; reflexivity|].
  destruct (codeIs code (lit "insufficient_quota")); [intros H; inversion H; reflexivity|].
  destruct (includes (lit "rate limit") message); [intros H; inversion H; reflexivity|].
  discriminate.
Qed.

Lemma dispatchError_uncategorized code message :
  categoryOf (Err code message) = None ->
  dispatchError (Err code message) =
  if includes (lit "ffmpeg") message then Err code message
  else Err None (lit "OpenAI API error: " ++ message).
Proof.
  unfold categoryOf, dispatchError.
  destruct (codeIs code (lit "invalid_api_key")); [discriminate|].
  destruct (codeIs code (lit "insufficient_quota")); [discriminate|].
  destruct (includes (lit "rate limit") message); [discriminate|].
  reflexivity.
Qed.

(** When the service refuses every request, the converter makes its three
    attempts and throws what the service threw. *)
Lemma convertSingleChunk_refused e text chunkIndex h :
  (forall h' m v i f, speech_create w h' m v i f = Threw e) ->
  exists ev,
    convertSingleChunk w config text chunkIndex h = (Threw e, ev) /\
    speechCalls ev = 3.
Proof.
  intros Hs.
  assert (Ha : forall h', attemptConversion w config text chunkIndex h'
               = (Threw e, [SpeechCreate (lit "tts-1") (voice config) text
                              (audioFormat config)])).
  { intros h'. unfold attemptConversion, bind, speechCreate.
    rewrite Hs. reflexivity. }
  unfold convertSingleChunk, convertSingleChunkWith.
  cbn [retryLoop]. unfold bind at 1. unfold emit at 1.
  unfold tryCatch at 1. rewrite Ha.
  cbn [Nat.ltb Nat.leb]. unfold bind at 1. unfold bind at 1. unfold emit at 1 2.
  cbn [app]. unfold tryCatch at 1. rewrite Ha.
  cbn [Nat.ltb Nat.leb]. unfold bind at 1. unfold bind at 1. unfold emit at 1 2.
  cbn [app]. unfold tryCatch at 1. rewrite Ha.
  cbn [Nat.ltb Nat.leb]. unfold bind at 1. unfold ret at 1. unfold throw.
  eexists. split; [reflexivity|]. reflexivity.
Qed.

End ErrorClaims.

(** C5 (as amended): the segment converter retries an error of one of the
    three classes like any other error.  When the service answers every
    request with such an error, the run makes three requests for the first
    chunk (one request when the text is a single chunk, which is sent
    without the converter) and then throws the message of the class. *)
Theorem categorized_errors_surface_after_retries
    w config text h e c :
  categoryOf e = Some c ->
  (forall h' m v i f, speech_create w h' m v i f = Threw e) ->
  trim text <> [] ->
  exists ev,
    convertTextToSpeech w config text h
    = (Threw (Err None (categoryMessage c)), ev) /\
    speechCalls ev = if length (chunkText text) =? 1 then 1 else 3.
Proof.
  intros Hc Hs Ht.
  rewrite convertTextToSpeech_run, <- (@dispatchError_category e c Hc).
  destruct (length (chunkText text) =? 1) eqn:E1.
  - unfold tryBlock. rewrite E1. unfold bind at 1.
    rewrite convertDirect_run. cbv zeta. rewrite Hs.
    eexists. split; reflexivity.
  - apply Nat.eqb_neq in E1.
    pose proof (@chunkText_not_nil text Ht) as Hn.
    destruct (chunkText text) as [|chunk rest] eqn:Ec; [congruence|].
    set (h1 := (h ++ [analyzing]) ++
               [processing (length (chunk :: rest));
                ConsoleLog (SplittingInfo (length text) (length (chunk :: rest)))]).
    destruct (convertSingleChunk_refused w config chunk 1
                (h1 ++ [convertingNotice (length (chunk :: rest)) 0]) Hs)
      as [evc [Hconv Hcalls]].
    erewrite tryBlock_loop_threw; rewrite ?Ec; [| exact E1 |].
    2:{ fold h1. rewrite convertChunks_cons. change (0 + 1) with 1.
        rewrite Hconv. reflexivity. }
    eexists. split; [reflexivity|].
    change (analyzing
            :: (processing (length (chunk :: rest))
                :: ConsoleLog (SplittingInfo (length text) (length (chunk :: rest)))
                :: convertingNotice (length (chunk :: rest)) 0 :: evc)
               ++ [conversionFailed])
      with ([analyzing; processing (length (chunk :: rest));
             ConsoleLog (SplittingInfo (length text) (length (chunk :: rest)));
             convertingNotice (length (chunk :: rest)) 0]
            ++ evc ++ [conversionFailed]).
    rewrite !speechCalls_app, Hcalls. reflexivity.
Qed.

(** C5, witness: a text of three chunks, and a service out of quota. *)
Lemma categorized_errors_surface_after_retries_witness :
  exists ev,
    convertTextToSpeech (refusingWorld (fun _ => true) quotaError) sampleConfig
      threeSentences []
    = (Threw (Err None (categoryMessage QuotaExceeded)), ev) /\
    speechCalls ev = if length (chunkText threeSentences) =? 1 then 1 else 3.
Proof.
  apply (@categorized_errors_surface_after_retries
           (refusingWorld (fun _ => true) quotaError) sampleConfig
           threeSentences [] quotaError QuotaExceeded).
  - reflexivity.
  - reflexivity.
  - vm_compute. discriminate.
Defined.

(** C5 as it is stated fails: the converter asks three times a service
    that answers each time that the quota is exceeded. *)
Lemma categorized_error_is_retried :
  categoryOf quotaError = Some QuotaExceeded /\
  speechCalls
    (snd (convertSingleChunk (refusingWorld (fun _ => true) quotaError)
            sampleConfig (lit "Hello.") 1 [])) = 3.
Proof. split; vm_compute; reflexivity. Qed.

(** C10 (as amended): an error of none of the three classes leaves
    [convertTextToSpeech] unchanged when its message contains [ffmpeg],
    and with [OpenAI API error: ] before its message otherwise; the error
    of the merger is of the first kind.  The three classes are tested
    first, so that an error of one of them is replaced even if its message
    contains [ffmpeg]. *)
Theorem uncategorized_errors_dispatch w config text h code message ev :
  tryBlock w config text (h ++ [analyzing]) = (Threw (Err code message), ev) ->
  categoryOf (Err code message) = None ->
  convertTextToSpeech w config text h =
  (Threw (if includes (lit "ffmpeg") message then Err code message
          else Err None (lit "OpenAI API error: " ++ message)),
   analyzing :: ev ++ [conversionFailed])
  /\ dispatchError mergeFailed = mergeFailed.
Proof.
  intros Ht Hc. split; [|reflexivity].
  rewrite convertTextToSpeech_run, Ht, (@dispatchError_uncategorized code message Hc).
  reflexivity.
Qed.

(** C10, witness: the merge tool is missing, and the error of the merger
    leaves the run as it is. *)
Lemma uncategorized_errors_dispatch_witness :
  fst (convertTextToSpeech noMergeToolWorld sampleConfig threeSentences [])
  = Threw mergeFailed.
Proof.
  pose proof (@uncategorized_errors_dispatch noMergeToolWorld sampleConfig
                threeSentences [] None
                (lit "Failed to merge audio files. Please ensure ffmpeg is installed on your system.")
                (snd (tryBlock noMergeToolWorld sampleConfig threeSentences
                        ([] ++ [analyzing])))) as H.
  destruct H as [H _]; [vm_compute; reflexivity | reflexivity |].
  rewrite H. reflexivity.
Defined.

(** C10 as it is stated fails: this message contains [ffmpeg], and the
    error is replaced by the one of the rate limit. *)
Lemma ffmpeg_error_not_always_rethrown :
  includes (lit "ffmpeg") (lit "ffmpeg rate limit") = true /\
  dispatchError (Err None (lit "ffmpeg rate limit"))
  <> Err None (lit "ffmpeg rate limit").
Proof. split; [reflexivity | vm_compute; discriminate]. Qed.

(** ** The claims about the merger and the single chunk *)

(** C7 (as amended): once the manifest is written, when the command
    succeeds and each deletion that the merger then asks for is carried
    out, the merger deletes the manifest and then every fragment, and
    returns; when the command fails, whatever the error, the merger throws
    its one error, whose message names [ffmpeg], and has deleted nothing.
    What the merger does when a deletion fails is not stated here. *)
Theorem merger_cleans_up_on_success_only w chunkPaths outputPath format h :
  fs_writeFile w h listPath (listContent chunkPaths) = Returned tt ->
  (execAsync w (h ++ [WriteFile listPath (listContent chunkPaths)])
     (ffmpegCmd outputPath) = Returned tt ->
   deleted w (h ++ [WriteFile listPath (listContent chunkPaths);
                    Exec (ffmpegCmd outputPath)])
     (listPath :: chunkPaths) ->
   mergeAudioFiles w chunkPaths outputPath format h =
   (Returned tt,
    [WriteFile listPath (listContent chunkPaths); Exec (ffmpegCmd outputPath)]
    ++ map Unlink (listPath :: chunkPaths)))
  /\
  (forall e,
     execAsync w (h ++ [WriteFile listPath (listContent chunkPaths)])
       (ffmpegCmd outputPath) = Threw e ->
     mergeAudioFiles w chunkPaths outputPath format h =
     (Threw mergeFailed,
      [WriteFile listPath (listContent chunkPaths); Exec (ffmpegCmd outputPath)])
     /\ includes (lit "ffmpeg") (lit "Failed to merge audio files. Please ensure ffmpeg is installed on your system.") = true).
Proof.
  intros Hw. split.
  - intros He Hd. rewrite mergeAudioFiles_run by exact Hw. rewrite He.
    change (unlink w listPath;; forEach (unlink w) chunkPaths)
      with (forEach (unlink w) (listPath :: chunkPaths)).
    rewrite forEach_unlink_deleted by exact Hd. reflexivity.
  - intros e He. split; [|reflexivity].
    rewrite mergeAudioFiles_run by exact Hw. rewrite He. reflexivity.
Qed.

(** C7 as it is stated fails: the command succeeds and the manifest
    cannot be deleted.  The deletions are in the [try] block of the
    command (lines 318-327): the first that throws ends them, and the
    merger throws its error; it has not asked for the deletion of the
    fragments, which stay. *)
Lemma merger_gives_up_the_cleanup :
  execAsync lockedManifestWorld [WriteFile listPath (listContent twoFragments)]
    (ffmpegCmd (lit "output.mp3")) = Returned tt /\
  fs_unlink lockedManifestWorld
    [WriteFile listPath (listContent twoFragments);
     Exec (ffmpegCmd (lit "output.mp3"))] listPath = Threw notPermitted /\
  mergeAudioFiles lockedManifestWorld twoFragments (lit "output.mp3")
    (lit "mp3") []
  = (Threw mergeFailed,
     [WriteFile listPath (listContent twoFragments);
      Exec (ffmpegCmd (lit "output.mp3")); Unlink listPath]).
Proof. repeat split. Qed.

(** C7, witness: two fragments, with the tool and without it. *)
Lemma merger_cleans_up_on_success_only_witness :
  mergeAudioFiles obligingWorld twoFragments (lit "output.mp3") (lit "mp3") []
  = (Returned tt,
     [WriteFile listPath (listContent twoFragments);
      Exec (ffmpegCmd (lit "output.mp3")); Unlink listPath;
      Unlink (lit "output_chunk_1.mp3"); Unlink (lit "output_chunk_2.mp3")])
  /\
  mergeAudioFiles noMergeToolWorld twoFragments (lit "output.mp3") (lit "mp3") []
  = (Threw mergeFailed,
     [WriteFile listPath (listContent twoFragments);
      Exec (ffmpegCmd (lit "output.mp3"))]).
Proof.
  split.
  - apply (@merger_cleans_up_on_success_only obligingWorld twoFragments
             (lit "output.mp3") (lit "mp3") []);
      [reflexivity | reflexivity | intros k path _; reflexivity].
  - apply (@merger_cleans_up_on_success_only noMergeToolWorld twoFragments
             (lit "output.mp3") (lit "mp3") [] eq_refl)
      with (e := Err (Some (lit "127")) (lit "Command failed: ffmpeg: not found")).
    reflexivity.
Defined.

Section SingleChunk.

Variable w : World.
Variable config : Config.

Lemma Forall_quiet_not_in ev :
  Forall quiet ev ->
  speechCalls ev = 0 /\
  forall c, In c ev ->
            match c with
            | WriteFile _ _ | Unlink _ | Exec _ => False
            | _ => True
            end.
Proof.
  induction 1 as [|c ev Hc _ [IH1 IH2]]; [split; [reflexivity | intros c []]|].
  split.
  - unfold speechCalls in *. simpl. destruct c; simpl in *; tauto || exact IH1.
  - intros c' [<- | Hin]; [destruct c; simpl in *; tauto | apply IH2, Hin].
Qed.

End SingleChunk.

(** C9: when the text is one chunk, the run makes one synthesis request,
    for the text; it writes no file but the final one, and writes there
    what the service returned; it runs no command and deletes nothing. *)
Theorem single_chunk_is_converted_directly w config text h r ev :
  length (chunkText text) = 1 ->
  convertTextToSpeech w config text h = (r, ev) ->
  speechCalls ev = 1 /\
  In (SpeechCreate (lit "tts-1") (voice config) text (audioFormat config)) ev /\
  (forall path data, In (WriteFile path data) ev ->
     path = output config ++ lit "." ++ audioFormat config /\
     speech_create w (h ++ [analyzing;
                            Spinner Text (lit "Converting text to speech...")])
       (lit "tts-1") (voice config) text (audioFormat config) = Returned data) /\
  (forall data,
     speech_create w (h ++ [analyzing;
                            Spinner Text (lit "Converting text to speech...")])
       (lit "tts-1") (voice config) text (audioFormat config) = Returned data ->
     In (WriteFile (output config ++ lit "." ++ audioFormat config) data) ev) /\
  (forall command, ~ In (Exec command) ev) /\
  (forall path, ~ In (Unlink path) ev).
Proof.
  intros H1 Hrun. rewrite convertTextToSpeech_run in Hrun.
  unfold tryBlock in Hrun. rewrite H1 in Hrun. cbn [Nat.eqb] in Hrun.
  unfold bind at 1 in Hrun. rewrite convertDirect_run in Hrun. cbv zeta in Hrun.
  replace ((h ++ [analyzing]) ++ [Spinner Text (lit "Converting text to speech...")])
    with (h ++ [analyzing; Spinner Text (lit "Converting text to speech...")])
    in Hrun by (norm_app; reflexivity).
  fold (outputPathOf config) in *.
  destruct (speech_create w _ _ _ _ _) as [buffer|e].
  - destruct (fs_writeFile w _ _ _) as [[]|e].
    + destruct (reportSuccess w config _ _ _) as [r' ev'] eqn:Hrep.
      apply reportSuccess_quiet, Forall_quiet_not_in in Hrep.
      destruct Hrep as [Q0 Q].
      assert (Hev : ev = [analyzing;
                          Spinner Text (lit "Converting text to speech...");
                          SpeechCreate (lit "tts-1") (voice config) text
                            (audioFormat config);
                          Spinner Text (lit "Saving audio file...");
                          WriteFile (outputPathOf config) buffer] ++ ev'
                         ++ match r' with
                            | Returned _ => []
                            | Threw _ => [conversionFailed]
                            end).
      { destruct r' as [[]|e]; inversion Hrun; subst;
          [rewrite app_nil_r|]; reflexivity. }
      clear Hrun. subst ev.
      assert (Q' : forall c, In c (ev' ++ match r' with
                                          | Returned _ => []
                                          | Threw _ => [conversionFailed]
                                          end) ->
                             match c with
                             | WriteFile _ _ | Unlink _ | Exec _ => False
                             | _ => True
                             end).
      { intros c Hin. apply in_app_or in Hin. destruct Hin as [Hin|Hin];
          [apply Q, Hin|].
        destruct r'; [destruct Hin|]. destruct Hin as [<-|[]]. exact I. }
      repeat split.
      * rewrite !speechCalls_app, Q0. destruct r'; reflexivity.
      * simpl. auto.
      * simpl in H. destruct H as [H|[H|[H|[H|[H|H]]]]];
          try discriminate.
        -- inversion H; reflexivity.
        -- apply Q' in H. destruct H.
      * simpl in H. destruct H as [H|[H|[H|[H|[H|H]]]]];
          try discriminate.
        -- inversion H; reflexivity.
        -- apply Q' in H. destruct H.
      * intros data Hd. inversion Hd; subst. simpl. auto 10.
      * intros command Hin. simpl in Hin.
        destruct Hin as [H|[H|[H|[H|[H|H]]]]]; try discriminate.
        apply Q' in H. exact H.
      * intros path Hin. simpl in Hin.
        destruct Hin as [H|[H|[H|[H|[H|H]]]]]; try discriminate.
        apply Q' in H. exact H.
    + inversion Hrun; subst. clear Hrun. repeat split.
      * simpl. auto.
      * simpl in H. destruct H as [H|[H|[H|[H|[H|[H|H]]]]]];
          try discriminate; [inversion H; reflexivity | destruct H].
      * simpl in H. destruct H as [H|[H|[H|[H|[H|[H|H]]]]]];
          try discriminate; [inversion H; reflexivity | destruct H].
      * intros data Hd. inversion Hd; subst. simpl. auto 10.
      * intros command Hin. simpl in Hin.
        destruct Hin as [H|[H|[H|[H|[H|[H|H]]]]]]; try discriminate. exact H.
      * intros path Hin. simpl in Hin.
        destruct Hin as [H|[H|[H|[H|[H|[H|H]]]]]]; try discriminate. exact H.
  - inversion Hrun; subst. clear Hrun. repeat split.
    + simpl. auto.
    + simpl in H. destruct H as [H|[H|[H|[H|H]]]]; try discriminate.
      destruct H.
    + simpl in H. destruct H as [H|[H|[H|[H|H]]]]; try discriminate.
      destruct H.
    + intros data Hd. discriminate.
    + intros command Hin. simpl in Hin.
      destruct Hin as [H|[H|[H|[H|H]]]]; try discriminate. exact H.
    + intros path Hin. simpl in Hin.
      destruct Hin as [H|[H|[H|[H|H]]]]; try discriminate. exact H.
Qed.

(** C9, witness: a short text in a world that obliges. *)
Lemma single_chunk_is_converted_directly_witness :
  speechCalls (snd (convertTextToSpeech obligingWorld sampleConfig
                      (lit "Hello world.") [])) = 1.
Proof.
  refine (proj1 (@single_chunk_is_converted_directly obligingWorld sampleConfig
                   (lit "Hello world.") []
                   (fst (convertTextToSpeech obligingWorld sampleConfig
                           (lit "Hello world.") []))
                   (snd (convertTextToSpeech obligingWorld sampleConfig
                           (lit "Hello world.") [])) _ _)).
  - vm_compute. reflexivity.
  - vm_compute. reflexivity.
Defined.

(** ** The claims about retries and order *)

Section Order.

Variable w : World.
Variable config : Config.
Variable nChunks : nat.

(** Any run of the loop: the conversions that returned, then either
    nothing more or the conversion that threw. *)
Lemma convertChunks_run : forall rest i paths h r ev,
  i + length rest = nChunks ->
  convertChunks w config nChunks i rest paths h = (r, ev) ->
  exists k segments,
    Forall2 (conversionSegment config nChunks)
      (firstn k (combine (seq i (length rest)) rest)) segments /\
    ((r = Returned (paths ++ map (tempPath config) (seq (i + 1) (length rest)))
      /\ k = length rest /\ ev = join [SetTimeout 1000] segments)
     \/
     (exists e chunk evc,
        r = Threw e /\ nth_error rest k = Some chunk /\
        ev = join [SetTimeout 1000]
               (segments ++ [convertingNotice nChunks (i + k) :: evc]) /\
        convertSingleChunk w config chunk (i + k + 1)
          (h ++ join [SetTimeout 1000]
                  (segments ++ [[convertingNotice nChunks (i + k)]]))
        = (Threw e, evc))).
Proof.
  induction rest as [|chunk rest IH]; intros i paths h r ev Hn H.
  - cbn [convertChunks] in H. unfold ret in H. inversion H; subst.
    exists 0, []. split; [constructor|]. left.
    cbn. rewrite app_nil_r. auto.
  - rewrite convertChunks_cons in H.
    destruct (convertSingleChunk w config chunk (i + 1) _) as [[p|e] evc] eqn:Hc.
    + destruct (convertChunks w config nChunks (S i) rest _ _) as [r' evr] eqn:Hr.
      injection H as <- <-.
      pose proof Hc as Hp. apply convertSingleChunk_events in Hp.
      destruct Hp as [_ [_ [_ ->]]].
      apply convertSingleChunk_shape in Hc. destruct Hc as [failed [data [-> F]]].
      cbn [length] in Hn.
      apply IH in Hr; [|lia]. destruct Hr as [k [segments [F2 Hcase]]].
      set (segment := convertingNotice nChunks i
                      :: ConsoleLog (ChunkInfo (i + 1) (truncatedText chunk)
                                       (length chunk))
                      :: failed ++ successfulEnd config chunk (i + 1) data).
      assert (Seg : conversionSegment config nChunks (i, chunk) segment)
        by (exists failed, data; split; [reflexivity | exact F]).
      exists (S k), (segment :: segments). split.
      { cbn [length seq combine firstn]. constructor; [exact Seg | exact F2]. }
      destruct Hcase as [[-> [-> ->]] | [e [c [evc [-> [Hk [-> Hf]]]]]]].
      * left. split; [|split; [reflexivity|]].
        -- cbn [length seq map]. rewrite <- app_assoc.
           replace (S i + 1) with (S (i + 1)) by lia. reflexivity.
        -- unfold pacing. destruct rest as [|c2 rest].
           ++ inversion F2; subst segments.
              replace (i <? nChunks - 1) with false
                by (symmetry; apply Nat.ltb_ge; simpl in Hn; lia).
              subst segment. cbn [join app]. rewrite !app_nil_r. reflexivity.
           ++ inversion F2; subst segments.
              replace (i <? nChunks - 1) with true
                by (symmetry; apply Nat.ltb_lt; simpl in Hn; lia).
              subst segment. cbn [join]. norm_app. reflexivity.
      * right. exists e, c, evc.
        assert (Lt : k < length rest)
          by (apply nth_error_Some; rewrite Hk; discriminate).
        assert (P : pacing nChunks i = [SetTimeout 1000]).
        { unfold pacing.
          replace (i <? nChunks - 1) with true
            by (symmetry; apply Nat.ltb_lt; lia). reflexivity. }
        assert (J : forall x, join [SetTimeout 1000] ((segment :: segments) ++ [x])
                              = segment ++ [SetTimeout 1000]
                                ++ join [SetTimeout 1000] (segments ++ [x])).
        { intros x. destruct segments; reflexivity. }
        replace (i + S k) with (S i + k) by lia.
        split; [reflexivity|]. split; [exact Hk|]. split.
        -- rewrite J, P. subst segment. norm_app. reflexivity.
        -- rewrite J. rewrite <- Hf. f_equal. rewrite P. subst segment.
           norm_app. reflexivity.
    + injection H as <- <-.
      exists 0, []. split; [constructor|]. right. exists e, chunk, evc.
      rewrite Nat.add_0_r. cbn [app join nth_error].
      split; [reflexivity|]. split; [reflexivity|]. split; [reflexivity|].
      exact Hc.
Qed.

End Order.

(** C8: the calls of the loop of [convertTextToSpeech] are the conversions
    of the first [k] chunks, in the order of their indices and each one
    complete, from the notice of the spinner to the writing of the
    fragment, before the next begins.  Either the loop returns: then [k] is
    the number of chunks, the loop returns their paths, and one wait of
    1000 ms stands between two conversions and none after the last.  Or
    the conversion of the chunk at [k] throws: then each of the [k]
    conversions before it was followed by one wait of 1000 ms, and the loop
    throws what that conversion throws and makes no call after it. *)
Theorem chunks_converted_one_after_the_other w config chunks h r ev :
  convertChunks w config (length chunks) 0 chunks [] h = (r, ev) ->
  exists k segments,
    Forall2 (conversionSegment config (length chunks))
      (firstn k (combine (seq 0 (length chunks)) chunks)) segments /\
    ((r = Returned (map (tempPath config) (seq 1 (length chunks)))
      /\ k = length chunks /\ ev = join [SetTimeout 1000] segments)
     \/
     (exists e chunk evc,
        r = Threw e /\ nth_error chunks k = Some chunk /\
        ev = join [SetTimeout 1000]
               (segments ++ [convertingNotice (length chunks) k :: evc]) /\
        convertSingleChunk w config chunk (k + 1)
          (h ++ join [SetTimeout 1000]
                  (segments ++ [[convertingNotice (length chunks) k]]))
        = (Threw e, evc))).
Proof.
  intros H. apply convertChunks_run in H; [|reflexivity]. exact H.
Qed.

(** C8, witness: three chunks.  When the service answers, the calls are
    three conversions, one wait between two of them; when it refuses the
    second chunk each time, they are the conversion of the first chunk, the
    wait, and the conversion that throws. *)
Lemma chunks_converted_one_after_the_other_witness :
  (exists segments,
     Forall2 (conversionSegment sampleConfig 3)
       [(0, lit "One."); (1, lit "Two."); (2, lit "Three.")] segments /\
     convertChunks obligingWorld sampleConfig 3 0 threeChunks [] []
     = (Returned (map (tempPath sampleConfig) [1; 2; 3]),
        join [SetTimeout 1000] segments))
  /\
  (exists segments evc,
     Forall2 (conversionSegment sampleConfig 3) [(0, lit "One.")] segments /\
     convertChunks refusingTwo sampleConfig 3 0 threeChunks [] []
     = (Threw rateLimitError,
        join [SetTimeout 1000] (segments ++ [convertingNotice 3 1 :: evc])) /\
     convertSingleChunk refusingTwo sampleConfig (lit "Two.") 2
       (join [SetTimeout 1000] (segments ++ [[convertingNotice 3 1]]))
     = (Threw rateLimitError, evc)).
Proof.
  split.
  - assert (Run : convertChunks obligingWorld sampleConfig (length threeChunks)
                    0 threeChunks [] []
                  = (Returned (map (tempPath sampleConfig) [1; 2; 3]),
                     snd (convertChunks obligingWorld sampleConfig 3 0
                            threeChunks [] [])))
      by (vm_compute; reflexivity).
    destruct (chunks_converted_one_after_the_other _ _ _ _ Run)
      as [k [segments [F [[_ [K E]] | [e [chunk [evc [R _]]]]]]]];
      [|discriminate R].
    exists segments. rewrite K in F. split; [exact F|].
    rewrite <- E. exact Run.
  - assert (Run : convertChunks refusingTwo sampleConfig (length threeChunks)
                    0 threeChunks [] []
                  = (Threw rateLimitError,
                     snd (convertChunks refusingTwo sampleConfig 3 0
                            threeChunks [] [])))
      by (vm_compute; reflexivity).
    destruct (chunks_converted_one_after_the_other _ _ _ _ Run)
      as [k [segments [F [[R _] | [e [chunk [evc [R [N [E C]]]]]]]]]];
      [discriminate R|].
    injection R as <-. change (length threeChunks) with 3 in F, E, C.
    destruct k as [|[|[|k]]]; [| | | destruct k; discriminate N];
      injection N as <-.
    + vm_compute in C. discriminate C.
    + exists segments, evc.
      split; [exact F|]. split; [|exact C].
      rewrite <- E. exact Run.
    + vm_compute in C. discriminate C.
Defined.



(** ** More about the chunker, the paths and the manifest *)

Section SolidTexts.

Lemma solid_cons c s :
  solid (c :: s) = true -> isWhiteSpace c = false /\ solid s = true.
Proof.
  unfold solid. cbn [forallb]. intros H. apply andb_prop in H.
  destruct H as [H1 H2]. apply negb_true_iff in H1. auto.
Qed.

Lemma solid_splitSentencesFrom s : solid s = true ->
  forall a b, splitSentencesFrom a b s = [s].
Proof.
  induction s as [|c s IH]; intros H a b; [reflexivity|].
  apply solid_cons in H. destruct H as [Hc Hs].
  cbn [splitSentencesFrom]. rewrite Hc, (IH Hs). reflexivity.
Qed.

Lemma solid_splitSpace s : solid s = true -> splitSpace s = [s].
Proof.
  induction s as [|c s IH]; intros H; [reflexivity|].
  apply solid_cons in H. destruct H as [Hc Hs].
  cbn [splitSpace]. rewrite (IH Hs).
  destruct (c =? SPACE)%N eqn:E; [|reflexivity].
  apply eqb_space_isWhiteSpace in E. congruence.
Qed.

Lemma solid_dropWhile s : solid s = true -> dropWhile isWhiteSpace s = s.
Proof.
  destruct s as [|c s]; [reflexivity|]. intros H.
  apply solid_cons in H. destruct H as [Hc _]. simpl. rewrite Hc. reflexivity.
Qed.

Lemma solid_rev s : solid s = true -> solid (rev s) = true.
Proof.
  unfold solid. rewrite !forallb_forall. intros H c Hin.
  apply H, in_rev, Hin.
Qed.

Lemma solid_trim s : solid s = true -> trim s = s.
Proof.
  intros H. unfold trim, trimStart, trimEnd.
  rewrite (solid_dropWhile _ H), (solid_dropWhile _ (solid_rev _ H)).
  apply rev_involutive.
Qed.

Lemma solid_skipn n s : solid s = true -> solid (skipn n s) = true.
Proof.
  unfold solid. rewrite !forallb_forall. intros H c Hin.
  apply H. rewrite <- (firstn_skipn n s). apply in_or_app. right. exact Hin.
Qed.

End SolidTexts.

(** X1: a text without white space that is longer than the limit is cut
    once, at the limit: the first [MAX_CHUNK_SIZE] characters, then all
    the others in one chunk. *)
Theorem chunkText_solid_cut_once text :
  solid text = true -> MAX_CHUNK_SIZE < length text ->
  chunkText text
  = [substringTo MAX_CHUNK_SIZE text; substringFrom MAX_CHUNK_SIZE text].
Proof.
  intros Hs L. unfold chunkText.
  replace (length text <=? MAX_CHUNK_SIZE) with false
    by (symmetry; apply Nat.leb_gt; exact L).
  unfold splitSentences. rewrite (solid_splitSentencesFrom _ Hs).
  cbn [fold_left]. unfold sentenceStep.
  replace (MAX_CHUNK_SIZE <? length text) with true
    by (symmetry; apply Nat.ltb_lt; exact L).
  cbn [truthy]. rewrite (solid_splitSpace _ Hs). cbn [fold_left].
  unfold wordStep. cbn [truthy app].
  replace (MAX_CHUNK_SIZE <? length (SPACE :: text)) with true
    by (symmetry; apply Nat.ltb_lt; simpl; lia).
  unfold substringTo, substringFrom.
  assert (Ls : length (skipn MAX_CHUNK_SIZE text) = length text - MAX_CHUNK_SIZE)
    by apply length_skipn.
  assert (Lf : length (firstn MAX_CHUNK_SIZE text) = MAX_CHUNK_SIZE)
    by (rewrite length_firstn; lia).
  pose proof MAX_CHUNK_SIZE_pos as P.
  destruct (skipn MAX_CHUNK_SIZE text) as [|c rest] eqn:Es;
    [simpl in Ls; lia|].
  cbn [truthy].
  rewrite <- Es, (solid_trim _ (solid_skipn MAX_CHUNK_SIZE _ Hs)), Es.
  destruct (firstn MAX_CHUNK_SIZE text) as [|d front] eqn:Ef;
    [simpl in Lf; lia|].
  reflexivity.
Qed.

(** X1, witness: 4001 letters. *)
Lemma chunkText_solid_cut_once_witness :
  chunkText (repeat 98%N 4001)
  = [substringTo MAX_CHUNK_SIZE (repeat 98%N 4001);
     substringFrom MAX_CHUNK_SIZE (repeat 98%N 4001)].
Proof.
  apply chunkText_solid_cut_once.
  - vm_compute. reflexivity.
  - apply Nat.ltb_lt. vm_compute. reflexivity.
Defined.

(** X2: when no run of the text between two spaces is longer than the
    limit, no chunk is longer than the limit. *)
Theorem chunkText_within_limit text :
  shortTokens text = true ->
  Forall (fun chunk => length chunk <= MAX_CHUNK_SIZE) (chunkText text).
Proof. apply chunkText_fits. Qed.

(** X2, witness: the three sentences. *)
Lemma chunkText_within_limit_witness :
  Forall (fun chunk => length chunk <= MAX_CHUNK_SIZE) (chunkText threeSentences).
Proof. apply chunkText_within_limit. vm_compute. reflexivity. Defined.

Section Paths.

Lemma lit_inj a b : lit a = lit b -> a = b.
Proof.
  revert b. induction a as [|x a IH]; intros [|y b] H; try discriminate.
  - reflexivity.
  - simpl in H. injection H as Hxy Hab.
    rewrite <- (ascii_N_embedding x), <- (ascii_N_embedding y), Hxy.
    f_equal. apply IH, Hab.
Qed.

Lemma showNat_decimal n :
  showNat n = lit (NilEmpty.string_of_uint (Nat.to_uint n)).
Proof. destruct n; reflexivity. Qed.

(** The decimal writing tells the numbers apart. *)
Lemma showNat_inj i j : showNat i = showNat j -> i = j.
Proof.
  rewrite !showNat_decimal. intros H. apply lit_inj in H.
  apply DecimalNat.Unsigned.to_uint_inj.
  assert (E : Some (Nat.to_uint i) = Some (Nat.to_uint j))
    by (rewrite <- !NilEmpty.usu, H; reflexivity).
  injection E as E. exact E.
Qed.

Lemma startsWith_app needle rest : startsWith needle (needle ++ rest) = true.
Proof.
  induction needle as [|c needle IH]; [destruct rest; reflexivity|].
  simpl. rewrite N.eqb_refl. exact IH.
Qed.

Lemma includes_infix needle front rest :
  includes needle (front ++ needle ++ rest) = true.
Proof.
  induction front as [|c front IH].
  - cbn [app]. destruct (needle ++ rest) eqn:E.
    + cbn [includes]. rewrite <- E, startsWith_app. reflexivity.
    + cbn [includes]. rewrite <- E, startsWith_app. reflexivity.
  - cbn [app includes]. rewrite IH. apply orb_true_r.
Qed.

End Paths.

(** X3: the fragments of a run have paths of their own: two chunks never
    share one, and none is the path of the final file or of the manifest,
    whatever the configuration. *)
Theorem tempPath_distinct config i j :
  (tempPath config i = tempPath config j -> i = j) /\
  tempPath config i <> outputPathOf config /\
  tempPath config i <> listPath.
Proof.
  unfold tempPath, outputPathOf. split; [|split].
  - intros H. apply app_inv_head in H. apply app_inv_head in H.
    apply app_inv_tail in H. apply showNat_inj, H.
  - intros H. apply app_inv_head in H. discriminate.
  - intros H.
    assert (I : includes (lit "_chunk_") listPath = true)
      by (rewrite <- H; apply includes_infix).
    vm_compute in I. discriminate.
Qed.

Section Manifest.

Variable sep : char.

Lemma splitOn_not_nil s : splitOn sep s <> [].
Proof.
  induction s as [|c s IH]; simpl; [discriminate|].
  destruct (c =? sep)%N; [discriminate|].
  destruct (splitOn sep s); discriminate.
Qed.

Lemma splitOn_free_app p rest :
  free sep p -> splitOn sep (p ++ sep :: rest) = p :: splitOn sep rest.
Proof.
  induction p as [|c p IH]; intros F.
  - cbn [app splitOn]. rewrite N.eqb_refl. reflexivity.
  - cbn [app splitOn].
    destruct (c =? sep)%N eqn:E.
    + apply N.eqb_eq in E. exfalso. apply F. left. exact E.
    + rewrite IH; [reflexivity|]. intros Hin. apply F. right. exact Hin.
Qed.

Lemma splitOn_free p : free sep p -> splitOn sep p = [p].
Proof.
  induction p as [|c p IH]; intros F; [reflexivity|].
  cbn [splitOn].
  destruct (c =? sep)%N eqn:E.
  - apply N.eqb_eq in E. exfalso. apply F. left. exact E.
  - rewrite IH; [reflexivity|]. intros Hin. apply F. right. exact Hin.
Qed.

Lemma splitOn_join ps :
  ps <> [] -> Forall (free sep) ps -> splitOn sep (join [sep] ps) = ps.
Proof.
  induction ps as [|p ps IH]; [congruence|]. intros _ F.
  inversion F; subst. destruct ps as [|q ps].
  - cbn [join]. apply splitOn_free. assumption.
  - change (join [sep] (p :: q :: ps)) with (p ++ sep :: join [sep] (q :: ps)).
    rewrite splitOn_free_app by assumption.
    rewrite IH; [reflexivity | discriminate | assumption].
Qed.

End Manifest.

(** X4: the manifest holds one line for each fragment, in the order of
    the fragments, when no path holds a line break. *)
Theorem manifest_lines chunkPaths :
  chunkPaths <> [] ->
  Forall (fun path => ~ In NEWLINE path) chunkPaths ->
  splitOn NEWLINE (listContent chunkPaths) = map manifestLine chunkPaths.
Proof.
  intros Hne F. unfold listContent.
  change (fun path : list N => lit "file '" ++ path ++ lit "'")
    with manifestLine.
  apply splitOn_join.
  - destruct chunkPaths; [congruence | discriminate].
  - apply Forall_map. eapply Forall_impl; [|exact F].
    intros p Hp Hin. unfold manifestLine in Hin.
    apply in_app_or in Hin. destruct Hin as [Hin|Hin];
      [vm_compute in Hin; intuition discriminate|].
    apply in_app_or in Hin. destruct Hin as [Hin|Hin]; [exact (Hp Hin)|].
    vm_compute in Hin. intuition discriminate.
Qed.

(** X4, witness: two fragments. *)
Lemma manifest_lines_witness :
  splitOn NEWLINE (listContent [lit "output_chunk_1.mp3"; lit "output_chunk_2.mp3"])
  = map manifestLine [lit "output_chunk_1.mp3"; lit "output_chunk_2.mp3"].
Proof.
  apply manifest_lines; [discriminate|].
  repeat constructor; vm_compute; intuition discriminate.
Defined.

(** ** The calls of a run, by kind *)

Section CallsOfARun.

Variable w : World.
Variable config : Config.

Lemma unlinked_app a b : unlinked (a ++ b) = unlinked a ++ unlinked b.
Proof. apply flat_map_app. Qed.

Lemma requestInputs_app a b :
  requestInputs (a ++ b) = requestInputs a ++ requestInputs b.
Proof. apply flat_map_app. Qed.

Lemma conversionCall_incl chunks chunks' c :
  incl chunks chunks' ->
  conversionCall config chunks c -> conversionCall config chunks' c.
Proof.
  intros I. destruct c; simpl; try tauto.
  intros [H1 [H2 [H3 H4]]]. repeat split; try assumption. apply I, H4.
Qed.

Lemma attemptConversion_calls text chunkIndex h r ev :
  attemptConversion w config text chunkIndex h = (r, ev) ->
  Forall (conversionCall config [text]) ev.
Proof.
  unfold attemptConversion, bind, speechCreate, writeFile, ret.
  destruct (speech_create w h _ _ _ _) as [buffer|e].
  - destruct (fs_writeFile w _ _ _) as [[]|e];
      intros H; inversion H; subst; repeat constructor; simpl; eauto.
  - intros H; inversion H; subst. repeat constructor; simpl; auto.
Qed.

Lemma retryLoop_calls text chunkIndex maxRetries :
  forall remaining attempt lastError h r ev,
    retryLoop w config text chunkIndex maxRetries remaining attempt lastError h
    = (r, ev) ->
    Forall (conversionCall config [text]) ev.
Proof.
  induction remaining as [|remaining IH]; intros attempt lastError h r ev H.
  - cbn [retryLoop] in H. unfold throw in H. inversion H. constructor.
  - cbn [retryLoop] in H. apply tryCatch_inv in H.
    destruct H as [[p [Ha _]] | [e [ev1 [ev2 [Ha [Hh ->]]]]]].
    + apply attemptConversion_calls in Ha. exact Ha.
    + apply attemptConversion_calls in Ha.
      apply bind_inv in Hh.
      destruct Hh as [[[] [ev3 [ev4 [Hw [Hr ->]]]]] | [e' [Hw _]]].
      * apply IH in Hr.
        assert (F3 : Forall (conversionCall config [text]) ev3).
        { destruct (attempt <? maxRetries).
          - unfold bind, emit in Hw. inversion Hw; subst.
            repeat constructor.
          - unfold ret in Hw. inversion Hw; subst. constructor. }
        apply Forall_app. split; [exact Ha|].
        apply Forall_app. split; [exact F3 | exact Hr].
      * destruct (attempt <? maxRetries); [|discriminate].
        unfold bind, emit in Hw. discriminate.
Qed.

Lemma convertSingleChunk_calls text chunkIndex h r ev :
  convertSingleChunk w config text chunkIndex h = (r, ev) ->
  Forall (conversionCall config [text]) ev.
Proof.
  unfold convertSingleChunk, convertSingleChunkWith. intros H.
  apply bind_inv in H.
  destruct H as [[[] [ev1 [ev2 [He [Hr ->]]]]] | [e [He _]]];
    [|unfold emit in He; discriminate].
  unfold emit in He. inversion He; subst.
  apply retryLoop_calls in Hr. constructor; [exact I | exact Hr].
Qed.

Lemma convertChunks_calls nChunks : forall rest i paths h r ev,
  convertChunks w config nChunks i rest paths h = (r, ev) ->
  Forall (conversionCall config rest) ev.
Proof.
  induction rest as [|chunk rest IH]; intros i paths h r ev H.
  - cbn [convertChunks] in H. unfold ret in H. inversion H. constructor.
  - rewrite convertChunks_cons in H.
    destruct (convertSingleChunk w config chunk (i + 1) _) as [[p|e] evc] eqn:Hc.
    + destruct (convertChunks w config nChunks (S i) rest _ _) as [r' evr] eqn:Hr.
      inversion H; subst. clear H.
      apply convertSingleChunk_calls in Hc. apply IH in Hr.
      constructor; [exact I|]. apply Forall_app. split.
      * eapply Forall_impl; [|exact Hc]. intros c.
        apply conversionCall_incl. intros x [<-|[]]. left. reflexivity.
      * apply Forall_app. split.
        -- unfold pacing. destruct (i <? nChunks - 1); repeat constructor.
        -- eapply Forall_impl; [|exact Hr]. intros c.
           apply conversionCall_incl. intros x Hx. right. exact Hx.
    + inversion H; subst. clear H. apply convertSingleChunk_calls in Hc.
      constructor; [exact I|].
      eapply Forall_impl; [|exact Hc]. intros c.
      apply conversionCall_incl. intros x [<-|[]]. left. reflexivity.
Qed.

(** The calls of a conversion delete nothing and run no command, and
    their requests are for the chunks. *)
Lemma conversionCalls_summary chunks ev :
  Forall (conversionCall config chunks) ev ->
  unlinked ev = [] /\ (forall command, ~ In (Exec command) ev) /\
  Forall (fun input => In input chunks) (requestInputs ev) /\
  forall model v input format, In (SpeechCreate model v input format) ev ->
    model = lit "tts-1" /\ v = voice config /\ format = audioFormat config.
Proof.
  induction 1 as [|c ev Hc _ [U [E [R S]]]].
  - split; [reflexivity|]. split; [intros command []|].
    split; [constructor | intros m v i f []].
  - destruct c; simpl in Hc; try contradiction;
      (split; [exact U|]; split;
       [intros command [Hx|Hx]; [discriminate | exact (E _ Hx)]|]).
    + destruct Hc as [H1 [H2 [H3 H4]]]. split.
      * cbn [requestInputs flat_map app]. constructor; [exact H4 | exact R].
      * intros m v i f [Hx|Hx]; [inversion Hx; subst; auto | exact (S _ _ _ _ Hx)].
    + split; [exact R|].
      intros m v i f [Hx|Hx]; [discriminate | exact (S _ _ _ _ Hx)].
    + split; [exact R|].
      intros m v i f [Hx|Hx]; [discriminate | exact (S _ _ _ _ Hx)].
    + split; [exact R|].
      intros m v i f [Hx|Hx]; [discriminate | exact (S _ _ _ _ Hx)].
    + split; [exact R|].
      intros m v i f [Hx|Hx]; [discriminate | exact (S _ _ _ _ Hx)].
Qed.

(** The deletions stop at the first one that throws. *)
Lemma forEach_unlink_any : forall paths h r ev,
  forEach (unlink w) paths h = (r, ev) ->
  exists k, ev = map Unlink (firstn k paths) /\
            (r = Returned tt -> ev = map Unlink paths).
Proof.
  induction paths as [|p paths IH]; intros h r ev H.
  - cbn [forEach] in H. unfold ret in H. inversion H; subst.
    exists 0. split; [reflexivity | reflexivity].
  - cbn [forEach] in H. apply bind_inv in H.
    destruct H as [[[] [ev1 [ev2 [Hu [Hr ->]]]]] | [e [Hu ->]]].
    + unfold unlink in Hu. injection Hu as _ <-.
      apply IH in Hr. destruct Hr as [k [-> Hall]].
      exists (S k). split; [reflexivity|].
      intros E. cbn [app map]. f_equal. apply (Hall E).
    + unfold unlink in Hu. injection Hu as _ <-.
      exists 1. split; [reflexivity | discriminate].
Qed.

Lemma unlinked_map_Unlink paths : unlinked (map Unlink paths) = paths.
Proof.
  induction paths as [|p paths IH]; [reflexivity|]. simpl. f_equal. exact IH.
Qed.

(** The merger, in any world: it makes no request; what it deletes is
    the manifest and then the fragments, as far as it gets, after the
    command; and when it returns it deleted them all. *)
Lemma mergeAudioFiles_calls chunkPaths outputPath format h r ev :
  mergeAudioFiles w chunkPaths outputPath format h = (r, ev) ->
  requestInputs ev = [] /\
  (forall model v input fmt, ~ In (SpeechCreate model v input fmt) ev) /\
  (exists k, unlinked ev = firstn k (listPath :: chunkPaths)) /\
  (unlinked ev <> [] -> In (Exec (ffmpegCmd outputPath)) ev) /\
  (r = Returned tt -> unlinked ev = listPath :: chunkPaths).
Proof.
  unfold mergeAudioFiles. intros H. apply bind_inv in H.
  destruct H as [[[] [ev1 [ev2 [Hw [Ht ->]]]]] | [e [Hw ->]]].
  2:{ unfold writeFile in Hw. injection Hw as _ <-.
      repeat split; try reflexivity.
      - intros m v i f [Hx|[]]. discriminate.
      - exists 0. reflexivity.
      - intros N. exfalso. apply N. reflexivity.
      - discriminate. }
  unfold writeFile in Hw. injection Hw as _ <-.
  apply tryCatch_inv in Ht.
  assert (Body : forall r' ev',
            (exec w (ffmpegCmd outputPath);;
             unlink w listPath;; forEach (unlink w) chunkPaths)
              (h ++ [WriteFile listPath (listContent chunkPaths)]) = (r', ev') ->
            exists k, ev' = Exec (ffmpegCmd outputPath)
                            :: map Unlink (firstn k (listPath :: chunkPaths))
                      /\ (r' = Returned tt ->
                          ev' = Exec (ffmpegCmd outputPath)
                                :: map Unlink (listPath :: chunkPaths))).
  { intros r' ev' Hb. apply bind_inv in Hb.
    destruct Hb as [[[] [e1 [e2 [He [Hc ->]]]]] | [e [He ->]]].
    2:{ unfold exec in He. injection He as _ <-. exists 0.
        split; [reflexivity | discriminate]. }
    unfold exec in He. injection He as _ <-.
    apply bind_inv in Hc.
    destruct Hc as [[[] [e3 [e4 [Hu [Hf ->]]]]] | [e [Hu ->]]].
    2:{ unfold unlink in Hu. injection Hu as _ <-. exists 1.
        split; [reflexivity | discriminate]. }
    unfold unlink in Hu. injection Hu as _ <-.
    apply forEach_unlink_any in Hf. destruct Hf as [k [-> Hall]].
    exists (S k). split; [reflexivity|].
    intros E. cbn [app map]. do 2 f_equal. apply (Hall E). }
  assert (Sum : forall k,
            let ev := [WriteFile listPath (listContent chunkPaths)]
                      ++ Exec (ffmpegCmd outputPath)
                         :: map Unlink (firstn k (listPath :: chunkPaths)) in
            requestInputs ev = [] /\
            (forall m v i f, ~ In (SpeechCreate m v i f) ev) /\
            unlinked ev = firstn k (listPath :: chunkPaths) /\
            In (Exec (ffmpegCmd outputPath)) ev).
  { intros k ev0. subst ev0. repeat split.
    - cbn [requestInputs flat_map app].
      induction (firstn k (listPath :: chunkPaths)); [reflexivity | exact IHl].
    - intros m v i f Hin. cbn [app] in Hin.
      destruct Hin as [Hx|[Hx|Hin]]; try discriminate.
      apply in_map_iff in Hin. destruct Hin as [x [Hx _]]. discriminate.
    - cbn [unlinked flat_map app]. apply unlinked_map_Unlink.
    - cbn [app]. right. left. reflexivity. }
  assert (Shape : exists k,
            ev2 = Exec (ffmpegCmd outputPath)
                  :: map Unlink (firstn k (listPath :: chunkPaths))
            /\ (r = Returned tt ->
                firstn k (listPath :: chunkPaths) = listPath :: chunkPaths)).
  { destruct Ht as [[[] [Hb ->]] | [e [e1 [e2 [Hb [Hh ->]]]]]].
    - apply Body in Hb. destruct Hb as [k [-> Hall]].
      exists k. split; [reflexivity|]. intros _.
      specialize (Hall eq_refl). injection Hall as Hall.
      apply (f_equal unlinked) in Hall.
      change (Unlink listPath :: map Unlink chunkPaths)
        with (map Unlink (listPath :: chunkPaths)) in Hall.
      rewrite !unlinked_map_Unlink in Hall. exact Hall.
    - apply Body in Hb. destruct Hb as [k [-> _]].
      unfold throw in Hh. injection Hh as <- <-.
      exists k. rewrite app_nil_r. split; [reflexivity | discriminate]. }
  destruct Shape as [k [-> Hall]].
  destruct (Sum k) as [R [NS [U E]]].
  split; [exact R|]. split; [exact NS|].
  split; [exists k; exact U|].
  split; [intros _; exact E|].
  intros Er. rewrite U. apply Hall, Er.
Qed.

End CallsOfARun.

Section RunOfTheOrchestrator.

Variable w : World.
Variable config : Config.

Lemma conversionCall_callOf chunks (files : jsstring -> Prop) c :
  (forall chunkIndex, files (tempPath config chunkIndex)) ->
  conversionCall config chunks c -> callOf config chunks files c.
Proof.
  intros F. destruct c; simpl; try tauto. intros [i ->]. apply F.
Qed.

Lemma quiet_callOf inputs files c : quiet c -> callOf config inputs files c.
Proof. destruct c; simpl; tauto. Qed.

Lemma quiet_unlinked ev :
  Forall quiet ev -> unlinked ev = [] /\ forall command, ~ In (Exec command) ev.
Proof.
  induction 1 as [|c ev Hc _ [U E]]; [split; [reflexivity | intros c []]|].
  destruct c; simpl in Hc; try contradiction;
    (split; [exact U | intros command [Hx|Hx]; [discriminate | exact (E _ Hx)]]).
Qed.

Lemma convertDirect_calls text outputPath h r ev :
  convertDirect w config text outputPath h = (r, ev) ->
  Forall (callOf config [text] (eq outputPath)) ev /\ unlinked ev = [] /\
  forall command, ~ In (Exec command) ev.
Proof.
  rewrite convertDirect_run. cbv zeta.
  destruct (speech_create w _ _ _ _ _) as [buffer|e]; intros H;
    injection H as _ <-.
  - split; [repeat constructor; simpl; auto|].
    split; [reflexivity|].
    intros command Hin. simpl in Hin. intuition discriminate.
  - split; [repeat constructor; simpl; auto|].
    split; [reflexivity|].
    intros command Hin. simpl in Hin. intuition discriminate.
Qed.

Lemma mergeAudioFiles_callOf chunkPaths outputPath format inputs h r ev :
  mergeAudioFiles w chunkPaths outputPath format h = (r, ev) ->
  Forall (callOf config inputs (eq listPath)) ev.
Proof.
  intros H. pose proof H as NS. apply mergeAudioFiles_calls in NS.
  destruct NS as [_ [NS _]].
  unfold mergeAudioFiles in H. apply bind_inv in H.
  assert (W : forall r1 ev1,
            writeFile w listPath (listContent chunkPaths) h = (r1, ev1) ->
            ev1 = [WriteFile listPath (listContent chunkPaths)])
    by (intros r1 ev1 Hw; unfold writeFile in Hw; injection Hw as _ <-;
        reflexivity).
  apply Forall_forall. intros c Hin.
  destruct c; simpl; try exact I.
  - exfalso. exact (NS _ _ _ _ Hin).
  - destruct H as [[[] [ev1 [ev2 [Hw [Ht ->]]]]] | [e [Hw ->]]].
    + apply W in Hw. subst ev1. destruct Hin as [Hx|Hin].
      * injection Hx as <- _. reflexivity.
      * exfalso. clear NS.
        assert (Q : forall r' ev',
                  (exec w (ffmpegCmd outputPath);;
                   unlink w listPath;; forEach (unlink w) chunkPaths)
                    (h ++ [WriteFile listPath (listContent chunkPaths)])
                  = (r', ev') ->
                  forall p d, ~ In (WriteFile p d) ev').
        { intros r' ev' Hb p d Hi. apply bind_inv in Hb.
          destruct Hb as [[[] [e1 [e2 [He [Hc ->]]]]] | [e [He ->]]].
          2:{ unfold exec in He. injection He as _ <-.
              destruct Hi as [Hx|[]]. discriminate. }
          unfold exec in He. injection He as _ <-.
          destruct Hi as [Hx|Hi]; [discriminate|].
          apply bind_inv in Hc.
          destruct Hc as [[[] [e3 [e4 [Hu [Hf ->]]]]] | [e [Hu ->]]].
          2:{ unfold unlink in Hu. injection Hu as _ <-.
              destruct Hi as [Hx|[]]. discriminate. }
          unfold unlink in Hu. injection Hu as _ <-.
          destruct Hi as [Hx|Hi]; [discriminate|].
          apply forEach_unlink_any in Hf. destruct Hf as [k [-> _]].
          apply in_map_iff in Hi. destruct Hi as [x [Hx _]]. discriminate. }
        apply tryCatch_inv in Ht.
        destruct Ht as [[[] [Hb ->]] | [e [e1 [e2 [Hb [Hh ->]]]]]].
        -- exact (Q _ _ Hb _ _ Hin).
        -- unfold throw in Hh. injection Hh as _ <-. rewrite app_nil_r in Hin.
           exact (Q _ _ Hb _ _ Hin).
    + apply W in Hw. subst ev. destruct Hin as [Hx|[]].
      injection Hx as <- _. reflexivity.
Qed.

Lemma callOf_weaken inputs inputs' (files files' : jsstring -> Prop) ev :
  incl inputs inputs' -> (forall p, files p -> files' p) ->
  Forall (callOf config inputs files) ev ->
  Forall (callOf config inputs' files') ev.
Proof.
  intros I F H. eapply Forall_impl; [|exact H].
  intros c. destruct c; simpl; try tauto.
  - intros [H1 [H2 [H3 H4]]]. repeat split; try assumption. apply I, H4.
  - apply F.
Qed.

Lemma convertInChunks_calls text chunks outputPath h r ev :
  convertInChunks w config text chunks outputPath h = (r, ev) ->
  Forall (callOf config chunks
            (fun path => path = listPath \/
                         exists chunkIndex, path = tempPath config chunkIndex))
         ev /\
  (exists k, unlinked ev
             = firstn k (listPath :: map (tempPath config)
                                       (seq 1 (length chunks)))) /\
  (unlinked ev <> [] -> In (Exec (ffmpegCmd outputPath)) ev) /\
  (r = Returned tt ->
   unlinked ev = listPath :: map (tempPath config) (seq 1 (length chunks))).
Proof.
  unfold convertInChunks. intros H.
  apply bind_inv in H.
  destruct H as [[[] [e1 [e2 [H1 [H ->]]]]] | [e [H1 _]]];
    [|unfold emit in H1; discriminate].
  unfold emit in H1. injection H1 as <-.
  apply bind_inv in H.
  destruct H as [[[] [e3 [e4 [H3 [H ->]]]]] | [e [H3 _]]];
    [|unfold emit in H3; discriminate].
  unfold emit in H3. injection H3 as <-.
  apply bind_inv in H.
  destruct H as [[paths [evl [e5 [Hl [H ->]]]]] | [e [Hl ->]]].
  - pose proof Hl as Hs. apply convertChunks_started in Hs.
    destruct Hs as [k [_ [_ [-> Hp]]]]. cbn [app Nat.add] in Hp. subst paths.
    apply convertChunks_calls in Hl.
    destruct (conversionCalls_summary Hl) as [U [E _]].
    apply bind_inv in H.
    destruct H as [[[] [e6 [evm [H6 [Hm ->]]]]] | [e [H6 _]]];
      [|unfold emit in H6; discriminate].
    unfold emit in H6. injection H6 as <-.
    pose proof (mergeAudioFiles_callOf _ _ _ chunks _ Hm) as Cm.
    apply mergeAudioFiles_calls in Hm.
    destruct Hm as [_ [NS [[k Uk] [Ex All]]]].
    split.
    + constructor; [exact I|]. constructor; [exact I|].
      apply Forall_app. split.
      * eapply Forall_impl; [|exact Hl]. intros c.
        apply conversionCall_callOf. intros i. right. exists i. reflexivity.
      * constructor; [exact I|].
        eapply callOf_weaken; [| |exact Cm].
        -- intros x Hx. exact Hx.
        -- intros p <-. left. reflexivity.
    + assert (Eu : forall a b c,
                 unlinked ([Spinner Text a] ++ [ConsoleLog b] ++ evl
                           ++ [Spinner Text c] ++ evm) = unlinked evm).
      { intros a b c. rewrite !unlinked_app, U. reflexivity. }
      rewrite Eu. split; [exists k; exact Uk|].
      split; [|exact All].
      intros N. specialize (Ex N). apply in_or_app. right.
      apply in_or_app. right. apply in_or_app. right.
      apply in_or_app. right. exact Ex.
  - apply convertChunks_calls in Hl.
    destruct (conversionCalls_summary Hl) as [U [E _]].
    split.
    + constructor; [exact I|]. constructor; [exact I|].
      eapply Forall_impl; [|exact Hl]. intros c.
      apply conversionCall_callOf. intros i. right. exists i. reflexivity.
    + assert (Eu : forall a b,
                 unlinked ([Spinner Text a] ++ [ConsoleLog b] ++ e4) = []).
      { intros a b. rewrite !unlinked_app, U. reflexivity. }
      rewrite Eu. split; [exists 0; reflexivity|].
      split; [intros N; exfalso; apply N; reflexivity | discriminate].
Qed.

Lemma tryBlock_calls text h r ev :
  tryBlock w config text h = (r, ev) ->
  Forall (callOf config (if length (chunkText text) =? 1 then [text]
                         else chunkText text)
            (filesOf config (length (chunkText text)))) ev /\
  (exists k, unlinked ev
             = firstn k (listPath :: map (tempPath config)
                                       (seq 1 (length (chunkText text))))) /\
  (unlinked ev <> [] -> In (Exec (ffmpegCmd (outputPathOf config))) ev) /\
  (r = Returned tt -> length (chunkText text) <> 1 ->
   unlinked ev
   = listPath :: map (tempPath config) (seq 1 (length (chunkText text)))).
Proof.
  unfold tryBlock, filesOf. intros H. apply bind_inv in H.
  destruct (length (chunkText text) =? 1) eqn:E1.
  - assert (B : forall rb evb,
              convertDirect w config text (outputPathOf config) h = (rb, evb) ->
              Forall (callOf config [text]
                        (fun path => path = outputPathOf config)) evb /\
              unlinked evb = [] /\
              forall command, ~ In (Exec command) evb).
    { intros rb evb Hb. apply convertDirect_calls in Hb.
      destruct Hb as [C rest]. split; [|exact rest].
      eapply callOf_weaken; [| |exact C];
        [intros x Hx; exact Hx | intros p <-; reflexivity]. }
    destruct H as [[[] [evb [evr [Hb [Hr ->]]]]] | [e [Hb ->]]].
    + apply B in Hb. destruct Hb as [Rq [U _]].
      apply reportSuccess_quiet in Hr.
      destruct (quiet_unlinked Hr) as [Ur _].
      rewrite unlinked_app, U, Ur.
      split; [apply Forall_app; split; [exact Rq|];
              eapply Forall_impl; [|exact Hr]; intros c; apply quiet_callOf|].
      split; [exists 0; reflexivity|].
      split; [intros N; exfalso; apply N; reflexivity|].
      apply Nat.eqb_eq in E1. intros _ N. congruence.
    + apply B in Hb. destruct Hb as [Rq [U _]]. rewrite U.
      split; [exact Rq|]. split; [exists 0; reflexivity|].
      split; [intros N; exfalso; apply N; reflexivity | discriminate].
  - destruct H as [[[] [evb [evr [Hb [Hr ->]]]]] | [e [Hb ->]]].
    + apply convertInChunks_calls in Hb. destruct Hb as [Rq [[k Uk] [Ex All]]].
      apply reportSuccess_quiet in Hr.
      destruct (quiet_unlinked Hr) as [Ur _].
      rewrite unlinked_app, Ur, app_nil_r.
      split; [apply Forall_app; split; [exact Rq|];
              eapply Forall_impl; [|exact Hr]; intros c; apply quiet_callOf|].
      split; [exists k; exact Uk|].
      split; [intros N; apply in_or_app; left; exact (Ex N)|].
      intros _ _. apply All. reflexivity.
    + apply convertInChunks_calls in Hb. destruct Hb as [Rq [[k Uk] [Ex All]]].
      split; [exact Rq|]. split; [exists k; exact Uk|].
      split; [exact Ex | discriminate].
Qed.

Lemma convertTextToSpeech_calls text h r ev :
  convertTextToSpeech w config text h = (r, ev) ->
  Forall (callOf config (if length (chunkText text) =? 1 then [text]
                         else chunkText text)
            (filesOf config (length (chunkText text)))) ev /\
  (exists k, unlinked ev
             = firstn k (listPath :: map (tempPath config)
                                       (seq 1 (length (chunkText text))))) /\
  (unlinked ev <> [] -> In (Exec (ffmpegCmd (outputPathOf config))) ev) /\
  (r = Returned tt -> length (chunkText text) <> 1 ->
   unlinked ev
   = listPath :: map (tempPath config) (seq 1 (length (chunkText text)))).
Proof.
  intros H. rewrite convertTextToSpeech_run in H.
  destruct (tryBlock w config text (h ++ [analyzing])) as [[[]|e] evt] eqn:Ht;
    injection H as <- <-; apply tryBlock_calls in Ht;
    destruct Ht as [Rq [[k Uk] [Ex All]]].
  - change (analyzing :: evt) with ([analyzing] ++ evt).
    rewrite unlinked_app. cbn [unlinked flat_map analyzing app].
    split; [constructor; [exact I | exact Rq]|].
    split; [exists k; exact Uk|].
    split; [intros N; right; exact (Ex N)|].
    intros _ N. apply All; [reflexivity | exact N].
  - change (analyzing :: evt ++ [conversionFailed])
      with ([analyzing] ++ evt ++ [conversionFailed]).
    rewrite !unlinked_app.
    cbn [unlinked flat_map analyzing conversionFailed app].
    rewrite app_nil_r.
    split; [constructor; [exact I|]; apply Forall_app; split;
            [exact Rq | repeat constructor]|].
    split; [exists k; exact Uk|].
    split; [intros N; right; apply in_or_app; left; exact (Ex N)|].
    discriminate.
Qed.

End RunOfTheOrchestrator.

(** X5: every request of a run is made with the model [tts-1] and the
    voice and the format of the configuration, and asks for the text
    itself when it is one chunk, for one of its chunks otherwise. *)
Theorem requests_of_a_run w config text h r ev model v input format :
  convertTextToSpeech w config text h = (r, ev) ->
  In (SpeechCreate model v input format) ev ->
  model = lit "tts-1" /\ v = voice config /\ format = audioFormat config /\
  In input (if length (chunkText text) =? 1 then [text] else chunkText text).
Proof.
  intros H Hin. apply convertTextToSpeech_calls in H.
  destruct H as [Rq _]. rewrite Forall_forall in Rq. exact (Rq _ Hin).
Qed.

(** X5, witness: the request for the second of three sentences. *)
Lemma requests_of_a_run_witness :
  lit "tts-1" = lit "tts-1" /\ lit "alloy" = voice sampleConfig /\
  lit "mp3" = audioFormat sampleConfig /\
  In secondSentence
    (if length (chunkText threeSentences) =? 1 then [threeSentences]
     else chunkText threeSentences).
Proof.
  apply (@requests_of_a_run obligingWorld sampleConfig threeSentences []
           (fst (convertTextToSpeech obligingWorld sampleConfig threeSentences []))
           (snd (convertTextToSpeech obligingWorld sampleConfig threeSentences []))
           (lit "tts-1") (lit "alloy") secondSentence (lit "mp3")).
  - apply surjective_pairing.
  - apply (nth_error_In _ 10). vm_compute. reflexivity.
Defined.

(** X6: a run deletes only the manifest and then the fragments, in this
    order and as far as it gets; it deletes nothing unless it ran the
    merge command; and a run of several chunks that returns deleted them
    all. *)
Theorem cleanup_of_a_run w config text h r ev :
  convertTextToSpeech w config text h = (r, ev) ->
  (exists k, unlinked ev
             = firstn k (listPath :: map (tempPath config)
                                       (seq 1 (length (chunkText text))))) /\
  (unlinked ev <> [] -> In (Exec (ffmpegCmd (outputPathOf config))) ev) /\
  (r = Returned tt -> length (chunkText text) <> 1 ->
   unlinked ev
   = listPath :: map (tempPath config) (seq 1 (length (chunkText text)))).
Proof.
  intros H. apply convertTextToSpeech_calls in H. tauto.
Qed.

(** X6, witness: the run of three chunks in a world that obliges. *)
Lemma cleanup_of_a_run_witness :
  exists k,
    unlinked (snd (convertTextToSpeech obligingWorld sampleConfig
                     threeSentences []))
    = firstn k (listPath :: map (tempPath sampleConfig)
                              (seq 1 (length (chunkText threeSentences)))).
Proof.
  refine (proj1 (@cleanup_of_a_run obligingWorld sampleConfig threeSentences []
                   (fst (convertTextToSpeech obligingWorld sampleConfig
                           threeSentences []))
                   (snd (convertTextToSpeech obligingWorld sampleConfig
                           threeSentences [])) _)).
  apply surjective_pairing.
Defined.

(** X7: when no run of the text between two spaces is longer than the
    limit, a request asks for [MAX_CHUNK_SIZE] characters at most, or it
    is the request of a run of one chunk, which asks for the text as it
    was given. *)
Theorem requests_within_limit w config text h r ev model v input format :
  shortTokens text = true ->
  convertTextToSpeech w config text h = (r, ev) ->
  In (SpeechCreate model v input format) ev ->
  length input <= MAX_CHUNK_SIZE \/
  (length (chunkText text) = 1 /\ input = text).
Proof.
  intros HS H Hin. apply convertTextToSpeech_calls in H.
  destruct H as [Rq _]. rewrite Forall_forall in Rq.
  destruct (Rq _ Hin) as [_ [_ [_ Hi]]].
  destruct (length (chunkText text) =? 1) eqn:E1.
  - right. apply Nat.eqb_eq in E1. destruct Hi as [<-|[]]. auto.
  - left. pose proof (chunkText_fits text HS) as F.
    rewrite Forall_forall in F. exact (F _ Hi).
Qed.

(** X7, witness: a short text. *)
Lemma requests_within_limit_witness :
  length (lit "Hi.") <= MAX_CHUNK_SIZE \/
  (length (chunkText (lit "Hi.")) = 1 /\ lit "Hi." = lit "Hi.").
Proof.
  apply (@requests_within_limit obligingWorld sampleConfig (lit "Hi.") []
           (fst (convertTextToSpeech obligingWorld sampleConfig (lit "Hi.") []))
           (snd (convertTextToSpeech obligingWorld sampleConfig (lit "Hi.") []))
           (lit "tts-1") (lit "alloy") (lit "Hi.") (lit "mp3")).
  - vm_compute. reflexivity.
  - apply surjective_pairing.
  - apply (nth_error_In _ 2). vm_compute. reflexivity.
Defined.

(** A text of 4000 characters followed by white space makes one chunk, and
    the run asks for all of it, white space included. *)
Example one_chunk_over_the_limit :
  let text := repeat 97%N 3999 ++ lit "." ++ repeat SPACE 200 in
  shortTokens text = true /\ length (chunkText text) = 1 /\
  length text = 4200.
Proof. vm_compute. repeat split. Qed.

(** X8: a run writes the audio file and nothing else when the text is one
    chunk; otherwise it writes the manifest and fragments and nothing
    else, the audio file being left to the merge command. *)
Theorem files_of_a_run w config text h r ev path data :
  convertTextToSpeech w config text h = (r, ev) ->
  In (WriteFile path data) ev ->
  filesOf config (length (chunkText text)) path.
Proof.
  intros H Hin. apply convertTextToSpeech_calls in H.
  destruct H as [Rq _]. rewrite Forall_forall in Rq. exact (Rq _ Hin).
Qed.

(** X8, witness: the audio file of a short text. *)
Lemma files_of_a_run_witness :
  length (chunkText (lit "Hi.")) = 1 /\
  filesOf sampleConfig (length (chunkText (lit "Hi."))) (lit "output.mp3").
Proof.
  split; [vm_compute; reflexivity|].
  apply (@files_of_a_run obligingWorld sampleConfig (lit "Hi.") []
           (fst (convertTextToSpeech obligingWorld sampleConfig (lit "Hi.") []))
           (snd (convertTextToSpeech obligingWorld sampleConfig (lit "Hi.") []))
           (lit "output.mp3") (lit "audio")).
  - apply surjective_pairing.
  - apply (nth_error_In _ 4). vm_compute. reflexivity.
Defined.

(** ** The fragment of a chunk *)

Section Fragment.

Variable w : World.
Variable config : Config.

(** The attempt that succeeds: the service answered the request, and the
    answer was written. *)
Lemma attemptConversion_returned text chunkIndex h p ev :
  attemptConversion w config text chunkIndex h = (Returned p, ev) ->
  exists buffer,
    ev = successfulEnd config text chunkIndex buffer /\
    speech_create w h (lit "tts-1") (voice config) text (audioFormat config)
    = Returned buffer /\
    fs_writeFile w
      (h ++ [SpeechCreate (lit "tts-1") (voice config) text
               (audioFormat config)])
      (tempPath config chunkIndex) buffer = Returned tt.
Proof.
  unfold attemptConversion, bind, speechCreate, writeFile, ret.
  destruct (speech_create w h _ _ _ _) as [buffer|e]; [|discriminate].
  destruct (fs_writeFile w _ _ _) as [[]|e] eqn:W; [|discriminate].
  intros H. injection H as _ <-. exists buffer. auto.
Qed.

Lemma retryLoop_returned text chunkIndex maxRetries :
  forall remaining attempt lastError h p ev,
    retryLoop w config text chunkIndex maxRetries remaining attempt lastError h
    = (Returned p, ev) ->
    exists failed buffer,
      ev = failed ++ successfulEnd config text chunkIndex buffer /\
      speech_create w (h ++ failed) (lit "tts-1") (voice config) text
        (audioFormat config) = Returned buffer /\
      fs_writeFile w
        (h ++ failed ++ [SpeechCreate (lit "tts-1") (voice config) text
                           (audioFormat config)])
        (tempPath config chunkIndex) buffer = Returned tt.
Proof.
  induction remaining as [|remaining IH]; intros attempt lastError h p ev H.
  - cbn [retryLoop] in H. unfold throw in H. discriminate.
  - cbn [retryLoop] in H. apply tryCatch_inv in H.
    destruct H as [[p' [Ha E]] | [e [ev1 [ev2 [Ha [Hh ->]]]]]].
    + apply attemptConversion_returned in Ha.
      destruct Ha as [buffer [-> [S W]]].
      exists [], buffer. rewrite app_nil_r. cbn [app]. auto.
    + apply bind_inv in Hh.
      destruct Hh as [[[] [ev3 [ev4 [Hw [Hr ->]]]]] | [e' [_ Hx]]];
        [|discriminate].
      apply IH in Hr. destruct Hr as [failed [buffer [-> [S W]]]].
      exists (ev1 ++ ev3 ++ failed), buffer.
      rewrite <- !app_assoc in *. auto.
Qed.

End Fragment.

(** X18: when the conversion of a chunk returns, it returns the path of
    the fragment of this chunk, and its last two calls are a request that
    the service answered and the writing, which succeeded, of that very
    answer to the fragment. *)
Theorem fragment_holds_the_answer w config text chunkIndex h p ev :
  convertSingleChunk w config text chunkIndex h = (Returned p, ev) ->
  p = tempPath config chunkIndex /\
  exists before buffer,
    ev = before ++ [SpeechCreate (lit "tts-1") (voice config) text
                      (audioFormat config);
                    WriteFile p buffer] /\
    speech_create w (h ++ before) (lit "tts-1") (voice config) text
      (audioFormat config) = Returned buffer /\
    fs_writeFile w
      (h ++ before ++ [SpeechCreate (lit "tts-1") (voice config) text
                         (audioFormat config)])
      p buffer = Returned tt.
Proof.
  intros H.
  assert (P : p = tempPath config chunkIndex).
  { pose proof H as H'. apply convertSingleChunk_events in H'.
    destruct H' as [_ [_ [_ H']]]. exact H'. }
  split; [exact P|]. subst p.
  unfold convertSingleChunk, convertSingleChunkWith in H.
  apply bind_inv in H.
  destruct H as [[[] [ev1 [ev2 [He [Hr ->]]]]] | [e [_ Hx]]]; [|discriminate].
  unfold emit in He. injection He as <-.
  apply retryLoop_returned in Hr. destruct Hr as [failed [buffer [-> [S W]]]].
  exists (ConsoleLog (ChunkInfo chunkIndex (truncatedText text) (length text))
          :: failed), buffer.
  rewrite <- !app_assoc in *. cbn [app] in *. auto.
Qed.

(** X18, witness: a chunk in a world that obliges. *)
Lemma fragment_holds_the_answer_witness :
  lit "output_chunk_1.mp3" = tempPath sampleConfig 1 /\
  exists before buffer,
    [ConsoleLog (ChunkInfo 1 (truncatedText (lit "Hi.")) (length (lit "Hi.")));
     SpeechCreate (lit "tts-1") (lit "alloy") (lit "Hi.") (lit "mp3");
     WriteFile (lit "output_chunk_1.mp3") (lit "audio")]
    = before ++ [SpeechCreate (lit "tts-1") (voice sampleConfig) (lit "Hi.")
                   (audioFormat sampleConfig);
                 WriteFile (lit "output_chunk_1.mp3") buffer] /\
    speech_create obligingWorld ([] ++ before) (lit "tts-1")
      (voice sampleConfig) (lit "Hi.") (audioFormat sampleConfig)
    = Returned buffer /\
    fs_writeFile obligingWorld
      ([] ++ before ++ [SpeechCreate (lit "tts-1") (voice sampleConfig)
                          (lit "Hi.") (audioFormat sampleConfig)])
      (lit "output_chunk_1.mp3") buffer = Returned tt.
Proof.
  apply (@fragment_holds_the_answer obligingWorld sampleConfig (lit "Hi.") 1 []
           (lit "output_chunk_1.mp3")
           [ConsoleLog (ChunkInfo 1 (truncatedText (lit "Hi."))
                          (length (lit "Hi.")));
            SpeechCreate (lit "tts-1") (lit "alloy") (lit "Hi.") (lit "mp3");
            WriteFile (lit "output_chunk_1.mp3") (lit "audio")]).
  vm_compute. reflexivity.
Defined.

(** ** The front end *)

Section FrontRunning.

Context {A B : Type}.

Lemma front_bind_inv (m : Front.t A) (k : A -> Front.t B) r ev :
  Front.bind m k = (r, ev) ->
  (exists a ev1 ev2, m = (Returned a, ev1) /\ k a = (r, ev2) /\ ev = ev1 ++ ev2)
  \/ (exists e, m = (Threw e, ev) /\ r = Threw e).
Proof.
  unfold Front.bind. destruct m as [[a|e] ev1].
  - destruct (k a) as [r2 ev2] eqn:E. intros H. injection H as <- <-.
    left. exists a, ev1, ev2. auto.
  - intros H. injection H as <- <-. right. exists e. auto.
Qed.

End FrontRunning.

Lemma eqbString_eq a : forall b, eqbString a b = true <-> a = b.
Proof.
  induction a as [|x a IH]; intros [|y b]; simpl; split; intros H;
    try reflexivity; try discriminate.
  - apply andb_true_iff in H. destruct H as [H1 H2].
    apply N.eqb_eq in H1. apply IH in H2. subst. reflexivity.
  - injection H as -> ->. rewrite N.eqb_refl. simpl. apply IH. reflexivity.
Qed.

Lemma arrayIncludes_In array s : arrayIncludes array s = true <-> In s array.
Proof.
  unfold arrayIncludes. rewrite existsb_exists. split.
  - intros [x [Hin E]]. apply eqbString_eq in E. subst. exact Hin.
  - intros Hin. exists s. split; [exact Hin | apply eqbString_eq; reflexivity].
Qed.

Section Questions.

Variable host : Host.
Variable options : options.t.
Variable env : Env.

Lemma truthyValue_orElse a b :
  truthyValue (orElse a b) = truthyValue a || truthyValue b.
Proof. unfold orElse. destruct (truthyValue a) eqn:E; [exact E | reflexivity]. Qed.

(** One setting: nothing is asked when it is given, and the question is
    the only step otherwise. *)
Lemma orAsk_steps value q r ev :
  orAsk host value q = (r, ev) ->
  ev = map Prompt (if truthyValue value then [] else [q]) /\
  (truthyValue value = true -> exists s, r = Returned s /\ value = Some s).
Proof.
  unfold orAsk, prompt, Front.ret.
  destruct value as [[|c s]|]; simpl; intros H; injection H as <- <-;
    (split; [reflexivity|]); try discriminate.
  intros _. exists (c :: s). auto.
Qed.

Lemma textOrFile_steps r ev :
  textOrFile host options = (r, ev) ->
  (sourceGiven options = true /\ ev = [] /\ exists s, r = Returned s) \/
  (sourceGiven options = false /\
   match r with
   | Returned (textSource, _, _) =>
       ev = map Prompt
              [AskTextSource;
               if eqbString textSource (lit "direct") then AskText
               else AskFilePath]
   | Threw _ =>
       ev = [Prompt AskTextSource] \/
       ev = [Prompt AskTextSource; Prompt AskText] \/
       ev = [Prompt AskTextSource; Prompt AskFilePath]
   end).
Proof.
  unfold textOrFile, sourceGiven, Front.ret, Front.bind, prompt.
  destruct (truthyValue (options.text options)).
  - intros H. injection H as <- <-. left. simpl. eauto.
  - destruct (truthyValue (options.file options)).
    + intros H. injection H as <- <-. left. simpl. eauto.
    + right. split; [reflexivity|].
      destruct (inquirer_prompt host AskTextSource) as [textSource|e].
      * destruct (eqbString textSource (lit "direct")) eqn:E.
        -- destruct (inquirer_prompt host AskText) as [text|e];
             injection H as <- <-; [rewrite E; reflexivity | auto].
        -- destruct (inquirer_prompt host AskFilePath) as [path|e];
             injection H as <- <-; [rewrite E; reflexivity | auto].
      * injection H as <- <-. auto.
Qed.

Lemma getConfiguration_steps r ev :
  getConfiguration host options env = (r, ev) ->
  exists textSource k,
    ev = map Prompt (firstn k (missing options env textSource)) /\
    match r with
    | Returned c => textSource = Configuration.textSource c /\
                    ev = map Prompt (missing options env textSource)
    | Threw _ => ev <> []
    end.
Proof.
  unfold getConfiguration. intros H.
  assert (K : keyGiven options env
              = truthyValue (orElse (options.apiKey options)
                               (orElse (OPENAI_API_KEY env)
                                  (READING_LAMP_API_KEY env))))
    by (rewrite !truthyValue_orElse, orb_assoc; reflexivity).
  assert (V : voiceGiven options env
              = truthyValue (orElse (options.voice options)
                               (READING_LAMP_VOICE env)))
    by (rewrite truthyValue_orElse; reflexivity).
  assert (F : formatGiven options env
              = truthyValue (orElse (options.audioFormat options)
                               (READING_LAMP_AUDIO_FORMAT env)))
    by (rewrite truthyValue_orElse; reflexivity).
  unfold missing. rewrite K, V, F. clear K V F.
  remember (if truthyValue (orElse (options.apiKey options)
                              (orElse (OPENAI_API_KEY env)
                                 (READING_LAMP_API_KEY env)))
            then [] else [AskApiKey]) as qk eqn:Eqk.
  remember (if truthyValue (orElse (options.voice options)
                              (READING_LAMP_VOICE env))
            then [] else [AskVoice]) as qv eqn:Eqv.
  remember (if truthyValue (orElse (options.audioFormat options)
                              (READING_LAMP_AUDIO_FORMAT env))
            then [] else [AskAudioFormat]) as qf eqn:Eqf.
  apply front_bind_inv in H.
  destruct H as [[key [e1 [ev1 [Hk [H ->]]]]] | [e [Hk ->]]].
  2:{ apply orAsk_steps in Hk. destruct Hk as [-> G].
      destruct (truthyValue (orElse (options.apiKey options) _)).
      - destruct (G eq_refl) as [s [Hx _]]. discriminate.
      - subst qk. exists [], 1. split; [reflexivity | discriminate]. }
  apply orAsk_steps in Hk. destruct Hk as [-> _]. rewrite <- Eqk.
  apply front_bind_inv in H.
  destruct H as [[[[source text] path] [e2 [ev2 [Hs [H ->]]]]] | [e [Hs ->]]].
  2:{ apply textOrFile_steps in Hs.
      destruct Hs as [[_ [_ [s Hx]]] | [G Hs]]; [discriminate|].
      rewrite G.
      destruct Hs as [-> | [-> | ->]].
      - exists [], (length qk + 1).
        split; [|intros N; apply app_eq_nil in N; destruct N; discriminate].
        rewrite firstn_app_2, map_app. reflexivity.
      - exists (lit "direct"), (length qk + 2).
        split; [|intros N; apply app_eq_nil in N; destruct N; discriminate].
        rewrite firstn_app_2, map_app. reflexivity.
      - exists [], (length qk + 2).
        split; [|intros N; apply app_eq_nil in N; destruct N; discriminate].
        rewrite firstn_app_2, map_app. reflexivity. }
  remember (if sourceGiven options then []
            else [AskTextSource;
                  if eqbString source (lit "direct") then AskText
                  else AskFilePath]) as qs eqn:Eqs.
  assert (S2 : e2 = map Prompt qs).
  { apply textOrFile_steps in Hs. subst qs.
    destruct Hs as [[G [-> _]] | [G Hs]];
      rewrite G; [reflexivity | exact Hs]. }
  clear Hs. subst e2.
  apply front_bind_inv in H.
  destruct H as [[v [e3 [ev3 [Hv [H ->]]]]] | [e [Hv ->]]].
  2:{ apply orAsk_steps in Hv. destruct Hv as [-> G].
      destruct (truthyValue (orElse (options.voice options) _)).
      { destruct (G eq_refl) as [s [Hx _]]. discriminate. }
      exists source, (length qk + (length qs + 1)). rewrite <- Eqs. subst qv.
      split; [rewrite !firstn_app_2, !map_app; reflexivity|].
      intros N. apply app_eq_nil in N. destruct N as [_ N].
      apply app_eq_nil in N. destruct N. discriminate. }
  apply orAsk_steps in Hv. destruct Hv as [-> _]. rewrite <- Eqv.
  apply front_bind_inv in H.
  destruct H as [[f [e4 [ev4 [Hf [H ->]]]]] | [e [Hf ->]]].
  2:{ apply orAsk_steps in Hf. destruct Hf as [-> G]. rewrite <- Eqf.
      exists source, (length (qk ++ qs ++ qv ++ qf)). rewrite <- Eqs.
      split; [rewrite firstn_all, !map_app; reflexivity|].
      destruct (truthyValue (orElse (options.audioFormat options) _)).
      { destruct (G eq_refl) as [s [Hx _]]. discriminate. }
      subst qf. intros N. apply app_eq_nil in N. destruct N as [_ N].
      apply app_eq_nil in N. destruct N as [_ N].
      apply app_eq_nil in N. destruct N. discriminate. }
  apply orAsk_steps in Hf. destruct Hf as [-> _]. rewrite <- Eqf.
  unfold Front.ret in H. injection H as <- <-.
  exists source, (length (qk ++ qs ++ qv ++ qf)). rewrite <- Eqs.
  rewrite firstn_all. rewrite !map_app, app_nil_r.
  split; [reflexivity|]. split; reflexivity.
Qed.

End Questions.

Lemma In_firstn {A} (x : A) : forall n l, In x (firstn n l) -> In x l.
Proof.
  induction n as [|n IH]; intros [|y l] H; simpl in H; try contradiction.
  destruct H as [->|H]; [left; reflexivity | right; exact (IH _ H)].
Qed.

(** X9: [getConfiguration] asks questions and does nothing else; it asks
    for the key, the source of the text, the voice or the format only when
    neither the command line nor the environment gives it; and when they
    give all four it asks nothing and returns. *)
Theorem questions_asked host options env r ev :
  getConfiguration host options env = (r, ev) ->
  Forall isPrompt ev /\
  (forall q, In (Prompt q) ev ->
     match q with
     | AskApiKey => keyGiven options env = false
     | AskTextSource | AskText | AskFilePath => sourceGiven options = false
     | AskVoice => voiceGiven options env = false
     | AskAudioFormat => formatGiven options env = false
     end) /\
  (keyGiven options env && sourceGiven options && voiceGiven options env
   && formatGiven options env = true ->
   ev = [] /\ exists c, r = Returned c).
Proof.
  intros H. apply getConfiguration_steps in H.
  destruct H as [source [k [-> Hr]]].
  split; [|split].
  - apply Forall_forall. intros s Hin. apply in_map_iff in Hin.
    destruct Hin as [q [<- _]]. exact I.
  - intros q Hin. apply in_map_iff in Hin.
    destruct Hin as [q' [Hq Hin]]. injection Hq as ->.
    apply In_firstn in Hin. unfold missing in Hin.
    destruct (keyGiven options env), (sourceGiven options),
      (voiceGiven options env), (formatGiven options env);
      simpl in Hin;
      repeat match goal with
             | H : _ \/ _ |- _ => destruct H
             | H : False |- _ => destruct H
             end; subst q;
      try (destruct (eqbString source _)); cbv iota; reflexivity.
  - intros G. apply andb_true_iff in G. destruct G as [G Gf].
    apply andb_true_iff in G. destruct G as [G Gv].
    apply andb_true_iff in G. destruct G as [Gk Gs].
    assert (M : missing options env source = [])
      by (unfold missing; rewrite Gk, Gs, Gv, Gf; reflexivity).
    rewrite M, firstn_nil in Hr. rewrite M, firstn_nil.
    split; [reflexivity|]. destruct r as [c|e]; [eauto|].
    exfalso. apply Hr. reflexivity.
Qed.

(** X9, witness: the voice and the format are given, the key and the
    source are asked for. *)
Lemma questions_asked_witness :
  Forall isPrompt (map Prompt [AskApiKey; AskTextSource; AskFilePath]) /\
  (forall q,
     In (Prompt q) (map Prompt [AskApiKey; AskTextSource; AskFilePath]) ->
     match q with
     | AskApiKey => keyGiven (opts voiceFlags) emptyEnv = false
     | AskTextSource | AskText | AskFilePath =>
         sourceGiven (opts voiceFlags) = false
     | AskVoice => voiceGiven (opts voiceFlags) emptyEnv = false
     | AskAudioFormat => formatGiven (opts voiceFlags) emptyEnv = false
     end) /\
  (keyGiven (opts voiceFlags) emptyEnv && sourceGiven (opts voiceFlags)
   && voiceGiven (opts voiceFlags) emptyEnv
   && formatGiven (opts voiceFlags) emptyEnv = true ->
   map Prompt [AskApiKey; AskTextSource; AskFilePath] = [] /\
   exists c, Returned voiceFlagsConfiguration = Returned c).
Proof.
  apply (@questions_asked sampleHost (opts voiceFlags) emptyEnv
           (Returned voiceFlagsConfiguration)
           (map Prompt [AskApiKey; AskTextSource; AskFilePath])).
  vm_compute. reflexivity.
Defined.

Section Configured.

Variable host : Host.
Variable options : options.t.
Variable env : Env.

Lemma truthyValue_Some v :
  truthyValue v = true -> exists s, v = Some s /\ s <> [].
Proof.
  destruct v as [[|c s]|]; simpl; try discriminate.
  intros _. exists (c :: s). split; [reflexivity | discriminate].
Qed.

Lemma textOrFile_result textSource text filePath ev :
  textOrFile host options = (Returned (textSource, text, filePath), ev) ->
  (if eqbString textSource (lit "direct")
   then (exists t, text = Some t) /\ filePath = None
   else text = None /\ exists p, filePath = Some p) /\
  (truthyValue (options.text options) = true ->
   textSource = lit "direct" /\ text = options.text options) /\
  (truthyValue (options.text options) = false ->
   truthyValue (options.file options) = true ->
   textSource = lit "file" /\ filePath = options.file options).
Proof.
  unfold textOrFile, Front.ret, Front.bind, prompt.
  destruct (truthyValue (options.text options)) eqn:Et.
  - intros H. injection H as <- <- <- <-.
    apply truthyValue_Some in Et. destruct Et as [t [Et _]].
    split; [|split]; [|auto|discriminate].
    rewrite Et. cbn. eauto.
  - destruct (truthyValue (options.file options)) eqn:Ef.
    + intros H. injection H as <- <- <- <-.
      apply truthyValue_Some in Ef. destruct Ef as [p [Ef _]].
      split; [|split]; [|discriminate|auto].
      rewrite Ef. cbn. eauto.
    + destruct (inquirer_prompt host AskTextSource) as [source|e];
        [|discriminate].
      destruct (eqbString source (lit "direct")) eqn:E.
      * destruct (inquirer_prompt host AskText) as [t|e]; [|discriminate].
        intros H. injection H as <- <- <- <-. rewrite E.
        split; [eauto|]. split; discriminate.
      * destruct (inquirer_prompt host AskFilePath) as [p|e]; [|discriminate].
        intros H. injection H as <- <- <- <-. rewrite E.
        split; [eauto|]. split; discriminate.
Qed.

(** What [getConfiguration] returns, property by property. *)
Lemma getConfiguration_result c ev :
  getConfiguration host options env = (Returned c, ev) ->
  exists ev1 ev2 ev3 ev4,
    orAsk host (orElse (options.apiKey options)
                  (orElse (OPENAI_API_KEY env) (READING_LAMP_API_KEY env)))
      AskApiKey = (Returned (apiKey (Configuration.settings c)), ev1) /\
    textOrFile host options
    = (Returned (Configuration.textSource c, Configuration.text c,
                 Configuration.filePath c), ev2) /\
    orAsk host (orElse (options.voice options) (READING_LAMP_VOICE env))
      AskVoice = (Returned (voice (Configuration.settings c)), ev3) /\
    orAsk host (orElse (options.audioFormat options)
                  (READING_LAMP_AUDIO_FORMAT env))
      AskAudioFormat = (Returned (audioFormat (Configuration.settings c)), ev4) /\
    output (Configuration.settings c)
    = showValue (orElse (Some (options.output options))
                   (orElse (READING_LAMP_OUTPUT env) (Some (lit "output")))).
Proof.
  unfold getConfiguration. intros H.
  apply front_bind_inv in H.
  destruct H as [[key [e1 [ev1 [Hk [H ->]]]]] | [e [_ Hx]]]; [|discriminate].
  apply front_bind_inv in H.
  destruct H as [[[[source text] path] [e2 [ev2 [Hs [H ->]]]]] | [e [_ Hx]]];
    [|discriminate].
  apply front_bind_inv in H.
  destruct H as [[v [e3 [ev3 [Hv [H ->]]]]] | [e [_ Hx]]]; [|discriminate].
  apply front_bind_inv in H.
  destruct H as [[f [e4 [ev4 [Hf [H ->]]]]] | [e [_ Hx]]]; [|discriminate].
  unfold Front.ret in H. injection H as <- <-.
  exists e1, e2, e3, e4. cbn [Configuration.settings Configuration.textSource
    Configuration.text Configuration.filePath apiKey voice audioFormat output].
  auto.
Qed.

End Configured.

(** X10: the configuration that [getConfiguration] returns holds a text and
    no file path when its source is ['direct'], a file path and no text
    otherwise; a text on the command line wins over a file, which is then
    not recorded. *)
Theorem source_of_the_text host options env c ev :
  getConfiguration host options env = (Returned c, ev) ->
  (if eqbString (Configuration.textSource c) (lit "direct")
   then (exists t, Configuration.text c = Some t) /\
        Configuration.filePath c = None
   else Configuration.text c = None /\
        exists p, Configuration.filePath c = Some p) /\
  (truthyValue (options.text options) = true ->
   Configuration.textSource c = lit "direct" /\
   Configuration.text c = options.text options /\
   Configuration.filePath c = None) /\
  (truthyValue (options.text options) = false ->
   truthyValue (options.file options) = true ->
   Configuration.textSource c = lit "file" /\
   Configuration.filePath c = options.file options).
Proof.
  intros H. apply getConfiguration_result in H.
  destruct H as [ev1 [ev2 [ev3 [ev4 [_ [Hs _]]]]]].
  apply textOrFile_result in Hs. destruct Hs as [W [T F]].
  split; [exact W|]. split; [|exact F].
  intros G. destruct (T G) as [E1 E2]. split; [exact E1|].
  split; [exact E2|]. rewrite E1 in W.
  change (eqbString (lit "direct") (lit "direct")) with true in W.
  apply W.
Qed.

(** X10, witness: a text and a file on the command line. *)
Lemma source_of_the_text_witness :
  (if eqbString (Configuration.textSource allFlagsConfiguration) (lit "direct")
   then (exists t, Configuration.text allFlagsConfiguration = Some t) /\
        Configuration.filePath allFlagsConfiguration = None
   else Configuration.text allFlagsConfiguration = None /\
        exists p, Configuration.filePath allFlagsConfiguration = Some p) /\
  (truthyValue (options.text (opts allFlags)) = true ->
   Configuration.textSource allFlagsConfiguration = lit "direct" /\
   Configuration.text allFlagsConfiguration = options.text (opts allFlags) /\
   Configuration.filePath allFlagsConfiguration = None) /\
  (truthyValue (options.text (opts allFlags)) = false ->
   truthyValue (options.file (opts allFlags)) = true ->
   Configuration.textSource allFlagsConfiguration = lit "file" /\
   Configuration.filePath allFlagsConfiguration
   = options.file (opts allFlags)).
Proof.
  apply (@source_of_the_text sampleHost (opts allFlags) emptyEnv
           allFlagsConfiguration []).
  vm_compute. reflexivity.
Defined.

(** X11: the name of the output is never empty; it is ['output'] when the
    command line gives none, whatever [READING_LAMP_OUTPUT] holds, which
    is read only when the name given on the command line is empty. *)
Theorem output_name host flags env c ev :
  getConfiguration host (opts flags) env = (Returned c, ev) ->
  output (Configuration.settings c) <> [] /\
  (argv.output flags = None ->
   output (Configuration.settings c) = lit "output") /\
  (forall name, argv.output flags = Some name -> name <> [] ->
                output (Configuration.settings c) = name) /\
  (argv.output flags = Some [] ->
   Some (output (Configuration.settings c))
   = orElse (READING_LAMP_OUTPUT env) (Some (lit "output"))).
Proof.
  intros H. apply getConfiguration_result in H.
  destruct H as [ev1 [ev2 [ev3 [ev4 [_ [_ [_ [_ ->]]]]]]]].
  unfold opts. cbn [options.output].
  destruct (argv.output flags) as [[|x name]|].
  - split; [|split; [discriminate|split]].
    2:{ intros n E N. injection E as <-. exfalso. apply N. reflexivity. }
    + destruct (READING_LAMP_OUTPUT env) as [[|y s]|]; discriminate.
    + intros _. destruct (READING_LAMP_OUTPUT env) as [[|y s]|]; reflexivity.
  - split; [discriminate|]. split; [discriminate|].
    split; [|discriminate]. intros n E _. injection E as <-. reflexivity.
  - split; [discriminate|]. split; [reflexivity|].
    split; discriminate.
Qed.

(** X11, witness: no name on the command line, one in the environment. *)
Lemma output_name_witness :
  output (Configuration.settings fileFlagsConfiguration) <> [] /\
  (argv.output fileFlags = None ->
   output (Configuration.settings fileFlagsConfiguration) = lit "output") /\
  (forall name, argv.output fileFlags = Some name -> name <> [] ->
                output (Configuration.settings fileFlagsConfiguration) = name) /\
  (argv.output fileFlags = Some [] ->
   Some (output (Configuration.settings fileFlagsConfiguration))
   = orElse (READING_LAMP_OUTPUT outputEnv) (Some (lit "output"))).
Proof.
  apply (@output_name sampleHost fileFlags outputEnv fileFlagsConfiguration []).
  vm_compute. reflexivity.
Defined.

Lemma startsWith_truthy prefix s :
  prefix <> [] -> startsWith prefix s = true -> truthy s = true.
Proof.
  destruct prefix as [|a p]; [intros N; exfalso; apply N; reflexivity|].
  intros _. destruct s; [discriminate | reflexivity].
Qed.

(** [validateConfiguration], check by check. *)
Lemma validateConfiguration_run host c :
  validateConfiguration host c =
  let s := Configuration.settings c in
  if negb (startsWith (lit "sk-") (apiKey s)) then (Threw invalidKey, [])
  else if negb (arrayIncludes VOICES (voice s)) then (Threw invalidVoice, [])
  else if negb (arrayIncludes AUDIO_FORMATS (audioFormat s)) then
    (Threw invalidFormat, [])
  else if eqbString (Configuration.textSource c) (lit "file") then
    (match fs_access host (Configuration.filePath c) with
     | Returned _ => Returned tt
     | Threw _ => Threw (fileNotFound (Configuration.filePath c))
     end,
     [Access (Configuration.filePath c)])
  else (Returned tt, []).
Proof.
  unfold validateConfiguration, Front.bind, Front.throw, Front.ret,
    Front.tryCatch, access. cbv zeta.
  destruct (startsWith (lit "sk-") (apiKey (Configuration.settings c))) eqn:K.
  2:{ rewrite orb_true_r. reflexivity. }
  rewrite (startsWith_truthy (prefix := lit "sk-")) by (discriminate || exact K).
  cbn [negb orb].
  destruct (arrayIncludes VOICES (voice (Configuration.settings c)));
    [|reflexivity].
  destruct (arrayIncludes AUDIO_FORMATS
              (audioFormat (Configuration.settings c))); [|reflexivity].
  cbn [negb].
  destruct (eqbString (Configuration.textSource c) (lit "file"));
    [|reflexivity].
  destruct (fs_access host (Configuration.filePath c)) as [[]|e]; reflexivity.
Qed.

(** X12: [validateConfiguration] returns exactly when the key starts with
    [sk-], the voice and the format are supported ones and, the source
    being ['file'], the file can be accessed; it looks at the file only
    after the key, the voice and the format passed, and at nothing when
    the source is not ['file']. *)
Theorem validation_passes_exactly_when host c r ev :
  validateConfiguration host c = (r, ev) ->
  (r = Returned tt <->
   startsWith (lit "sk-") (apiKey (Configuration.settings c)) = true /\
   In (voice (Configuration.settings c)) VOICES /\
   In (audioFormat (Configuration.settings c)) AUDIO_FORMATS /\
   (Configuration.textSource c = lit "file" ->
    fs_access host (Configuration.filePath c) = Returned tt)) /\
  (ev = [] \/ ev = [Access (Configuration.filePath c)]) /\
  (ev <> [] ->
   startsWith (lit "sk-") (apiKey (Configuration.settings c)) = true /\
   In (voice (Configuration.settings c)) VOICES /\
   In (audioFormat (Configuration.settings c)) AUDIO_FORMATS /\
   Configuration.textSource c = lit "file").
Proof.
  rewrite validateConfiguration_run. cbv zeta.
  destruct (startsWith (lit "sk-") (apiKey (Configuration.settings c))) eqn:K;
    cbn [negb].
  2:{ intros H. injection H as <- <-.
      split; [split; [discriminate | intros [N _]; discriminate]|].
      split; [left; reflexivity | intros N; exfalso; apply N; reflexivity]. }
  destruct (arrayIncludes VOICES (voice (Configuration.settings c))) eqn:V;
    cbn [negb].
  2:{ intros H. injection H as <- <-.
      split; [split; [discriminate|]|].
      - intros [_ [N _]]. apply arrayIncludes_In in N. congruence.
      - split; [left; reflexivity | intros N; exfalso; apply N; reflexivity]. }
  destruct (arrayIncludes AUDIO_FORMATS (audioFormat (Configuration.settings c)))
    eqn:F; cbn [negb].
  2:{ intros H. injection H as <- <-.
      split; [split; [discriminate|]|].
      - intros [_ [_ [N _]]]. apply arrayIncludes_In in N. congruence.
      - split; [left; reflexivity | intros N; exfalso; apply N; reflexivity]. }
  apply arrayIncludes_In in V. apply arrayIncludes_In in F.
  destruct (eqbString (Configuration.textSource c) (lit "file")) eqn:S.
  - apply eqbString_eq in S.
    destruct (fs_access host (Configuration.filePath c)) as [[]|e] eqn:A;
      intros H; injection H as <- <-.
    + split; [split; auto|]. split; [right; reflexivity | auto].
    + split; [split; [discriminate|]|].
      * intros [_ [_ [_ N]]]. specialize (N S). discriminate.
      * split; [right; reflexivity | auto].
  - intros H. injection H as <- <-.
    split; [split; [intros _|reflexivity]|].
    + repeat split; try assumption. intros N.
      apply eqbString_eq in N. congruence.
    + split; [left; reflexivity | intros N; exfalso; apply N; reflexivity].
Qed.

(** X12, witness: a file that can be accessed. *)
Lemma validation_passes_exactly_when_witness :
  (Returned tt = Returned tt <->
   startsWith (lit "sk-")
     (apiKey (Configuration.settings fileFlagsConfiguration)) = true /\
   In (voice (Configuration.settings fileFlagsConfiguration)) VOICES /\
   In (audioFormat (Configuration.settings fileFlagsConfiguration))
      AUDIO_FORMATS /\
   (Configuration.textSource fileFlagsConfiguration = lit "file" ->
    fs_access sampleHost (Configuration.filePath fileFlagsConfiguration)
    = Returned tt)) /\
  ([Access (Some (lit "story.txt"))] = [] \/
   [Access (Some (lit "story.txt"))]
   = [Access (Configuration.filePath fileFlagsConfiguration)]) /\
  ([Access (Some (lit "story.txt"))] <> [] ->
   startsWith (lit "sk-")
     (apiKey (Configuration.settings fileFlagsConfiguration)) = true /\
   In (voice (Configuration.settings fileFlagsConfiguration)) VOICES /\
   In (audioFormat (Configuration.settings fileFlagsConfiguration))
      AUDIO_FORMATS /\
   Configuration.textSource fileFlagsConfiguration = lit "file").
Proof.
  apply (@validation_passes_exactly_when sampleHost fileFlagsConfiguration
           (Returned tt) [Access (Some (lit "story.txt"))]).
  vm_compute. reflexivity.
Defined.

(** [getTextContent], step by step. *)
Lemma getTextContent_run host c :
  getTextContent host c =
  if eqbString (Configuration.textSource c) (lit "direct") then
    (Returned (Configuration.text c), [])
  else
    match path_resolve host (Configuration.filePath c) with
    | Threw e => (Threw e, [readingStart; readingFailed])
    | Returned path =>
        let warning :=
          unknownType (toLowerCase host (path_extname host path)) in
        match fs_readFile host path with
        | Threw e =>
            (Threw e,
             readingStart :: warning ++ [ReadFile path; readingFailed])
        | Returned content =>
            if truthy (trim content) then
              (Returned (Some content),
               readingStart :: warning
               ++ [ReadFile path;
                   Reading ReadingSucceed
                     (lit "File read successfully ("
                      ++ showNat (length content) ++ lit " characters)")])
            else
              (Threw fileIsEmpty,
               readingStart :: warning ++ [ReadFile path; readingFailed])
        end
    end.
Proof.
  unfold getTextContent, Front.bind, Front.tryCatch, Front.emit, Front.ret,
    Front.throw, readFile, unknownType.
  destruct (eqbString (Configuration.textSource c) (lit "direct"));
    [reflexivity|].
  destruct (path_resolve host (Configuration.filePath c)) as [path|e];
    [|reflexivity].
  cbv zeta.
  destruct (negb (truthyValue (property SUPPORTED_FORMATS _)));
    destruct (fs_readFile host path) as [content|e]; try reflexivity;
    destruct (truthy (trim content)); reflexivity.
Qed.

Lemma unknownType_preparing ext : Forall preparing (unknownType ext).
Proof.
  unfold unknownType. destruct (negb _); repeat constructor.
Qed.

Lemma getTextContent_steps host c r ev :
  getTextContent host c = (r, ev) -> Forall preparing ev.
Proof.
  rewrite getTextContent_run.
  destruct (eqbString (Configuration.textSource c) (lit "direct")).
  - intros H. injection H as _ <-. constructor.
  - destruct (path_resolve host (Configuration.filePath c)) as [path|e].
    + cbv zeta.
      pose proof (unknownType_preparing
                    (toLowerCase host (path_extname host path))) as W.
      destruct (fs_readFile host path) as [content|e];
        try destruct (truthy (trim content));
        intros H; injection H as _ <-;
        (constructor; [exact I|]); (apply Forall_app; split; [exact W|]);
        repeat constructor.
    + intros H. injection H as _ <-. repeat constructor.
Qed.

(** X13: a text given directly is returned as it is, unread and unchecked.
    The text of a file is what [fs.readFile] gives for the resolved path,
    returned whole when it has a character that is not white space, and
    refused as empty otherwise; the extension of the file changes nothing
    to this, and every failure is announced before it is thrown again. *)
Theorem text_of_the_source host c r ev :
  getTextContent host c = (r, ev) ->
  if eqbString (Configuration.textSource c) (lit "direct") then
    r = Returned (Configuration.text c) /\ ev = []
  else
    match r with
    | Returned text =>
        exists path content,
          path_resolve host (Configuration.filePath c) = Returned path /\
          fs_readFile host path = Returned content /\
          text = Some content /\ trim content <> [] /\
          In (ReadFile path) ev /\ ~ In readingFailed ev
    | Threw e =>
        last ev Banner = readingFailed /\
        (path_resolve host (Configuration.filePath c) = Threw e \/
         exists path,
           path_resolve host (Configuration.filePath c) = Returned path /\
           (fs_readFile host path = Threw e \/
            exists content,
              fs_readFile host path = Returned content /\
              trim content = [] /\ e = fileIsEmpty))
    end.
Proof.
  rewrite getTextContent_run.
  destruct (eqbString (Configuration.textSource c) (lit "direct")).
  { intros H. injection H as <- <-. auto. }
  destruct (path_resolve host (Configuration.filePath c)) as [path|e].
  2:{ intros H. injection H as <- <-. split; [reflexivity|].
      left. reflexivity. }
  cbv zeta.
  assert (L : forall tail, last (readingStart :: unknownType
                                   (toLowerCase host (path_extname host path))
                                 ++ [ReadFile path; tail]) Banner = tail).
  { intros tail. unfold unknownType. destruct (negb _); reflexivity. }
  destruct (fs_readFile host path) as [content|e] eqn:R.
  2:{ intros H. injection H as <- <-. split; [apply L|].
      right. exists path. auto. }
  destruct (trim content) as [|x t] eqn:T; cbn [truthy];
    intros H; injection H as <- <-.
  - split; [apply L|]. right. exists path. split; [reflexivity|].
    right. exists content. auto.
  - exists path, content. repeat split; try assumption.
    + rewrite T. discriminate.
    + right. apply in_or_app. right. left. reflexivity.
    + intros [N|N]; [discriminate|]. apply in_app_or in N.
      destruct N as [N|[N|[N|[]]]]; try discriminate.
      unfold unknownType in N. destruct (negb _); [|destruct N].
      destruct N as [N|[]]. discriminate.
Qed.

(** X13, witness: a file that holds a sentence. *)
Lemma text_of_the_source_witness :
  exists path content,
    path_resolve sampleHost (Configuration.filePath fileFlagsConfiguration)
    = Returned path /\
    fs_readFile sampleHost path = Returned content /\
    Some (lit "Once upon a time.") = Some content /\ trim content <> [] /\
    In (ReadFile path)
       [readingStart; ReadFile (lit "/home/story.txt");
        Reading ReadingSucceed (lit "File read successfully (17 characters)")]
    /\ ~ In readingFailed
          [readingStart; ReadFile (lit "/home/story.txt");
           Reading ReadingSucceed
             (lit "File read successfully (17 characters)")].
Proof.
  apply (@text_of_the_source sampleHost fileFlagsConfiguration
           (Returned (Some (lit "Once upon a time.")))
           [readingStart; ReadFile (lit "/home/story.txt");
            Reading ReadingSucceed
              (lit "File read successfully (17 characters)")]).
  vm_compute. reflexivity.
Defined.

Section Main.

Variable host : Host.
Variable options : options.t.
Variable env : Env.
Variable w : World.

Lemma mainBody_run :
  mainBody host options env w =
  match getConfiguration host options env with
  | (Threw e, ev1) => (Threw e, Banner :: ev1)
  | (Returned c, ev1) =>
      match validateConfiguration host c with
      | (Threw e, ev2) => (Threw e, Banner :: ev1 ++ ev2)
      | (Returned _, ev2) =>
          match getTextContent host c with
          | (Threw e, ev3) => (Threw e, Banner :: ev1 ++ ev2 ++ ev3)
          | (Returned text, ev3) =>
              match convert w (Configuration.settings c) text with
              | (Threw e, ev4) =>
                  (Threw e, Banner :: ev1 ++ ev2 ++ ev3 ++ ev4)
              | (Returned _, ev4) =>
                  (Returned tt,
                   Banner :: ev1 ++ ev2 ++ ev3 ++ ev4 ++ [Completed])
              end
          end
      end
  end.
Proof.
  unfold mainBody. unfold Front.bind at 1. unfold Front.emit at 1.
  unfold Front.bind at 1.
  destruct (getConfiguration host options env) as [[c|e] ev1]; [|reflexivity].
  unfold Front.bind at 1.
  destruct (validateConfiguration host c) as [[[]|e] ev2]; [|reflexivity].
  unfold Front.bind at 1.
  destruct (getTextContent host c) as [[text|e] ev3]; [|reflexivity].
  unfold Front.bind at 1.
  destruct (convert w (Configuration.settings c) text) as [[[]|e] ev4];
    reflexivity.
Qed.

Lemma getConfiguration_preparing r ev :
  getConfiguration host options env = (r, ev) -> Forall preparing ev.
Proof.
  intros H. apply getConfiguration_steps in H.
  destruct H as [source [k [-> _]]].
  apply Forall_forall. intros s Hin. apply in_map_iff in Hin.
  destruct Hin as [q [<- _]]. exact I.
Qed.

Lemma validateConfiguration_preparing c r ev :
  validateConfiguration host c = (r, ev) -> Forall preparing ev.
Proof.
  rewrite validateConfiguration_run. cbv zeta.
  repeat (destruct (negb _);
          [intros H; injection H as _ <-; constructor|]).
  destruct (eqbString _ _); intros H; injection H as _ <-;
    repeat constructor.
Qed.

Lemma preparing_working s : preparing s -> working s.
Proof. destruct s; simpl; tauto. Qed.

Lemma convert_working config text r ev :
  convert w config text = (r, ev) -> Forall working ev.
Proof.
  unfold convert. destruct text as [t|].
  - destruct (convertTextToSpeech w config t []) as [r' ev'].
    intros H. injection H as <- <-.
    apply Forall_forall. intros s Hin. apply in_map_iff in Hin.
    destruct Hin as [c [<- _]]. exact I.
  - intros H. injection H as <- <-. repeat constructor.
Qed.

(** The steps of the body of [main], part by part. *)
Lemma mainBody_steps r ev :
  mainBody host options env w = (r, ev) ->
  exists ev1 ev4,
    Forall preparing ev1 /\ Forall working ev4 /\
    ev = ev1 ++ ev4 ++ match r with Returned _ => [Completed] | Threw _ => [] end
    /\ (ev4 <> [] ->
        exists c e1 e2 text e3 r4,
          getConfiguration host options env = (Returned c, e1) /\
          validateConfiguration host c = (Returned tt, e2) /\
          getTextContent host c = (Returned text, e3) /\
          ev1 = Banner :: e1 ++ e2 ++ e3 /\
          convert w (Configuration.settings c) text = (r4, ev4)).
Proof.
  rewrite mainBody_run.
  destruct (getConfiguration host options env) as [[c|e] ev1] eqn:H1.
  2:{ intros H. injection H as <- <-. exists (Banner :: ev1), [].
      apply getConfiguration_preparing in H1.
      split; [constructor; [exact I | exact H1]|].
      split; [constructor|]. split; [rewrite !app_nil_r; reflexivity|].
      intros N. exfalso. apply N. reflexivity. }
  apply getConfiguration_preparing in H1.
  destruct (validateConfiguration host c) as [[[]|e] ev2] eqn:H2.
  2:{ intros H. injection H as <- <-. exists (Banner :: ev1 ++ ev2), [].
      apply validateConfiguration_preparing in H2.
      split; [constructor; [exact I | apply Forall_app; auto]|].
      split; [constructor|]. split; [rewrite !app_nil_r; reflexivity|].
      intros N. exfalso. apply N. reflexivity. }
  pose proof H2 as P2. apply validateConfiguration_preparing in P2.
  destruct (getTextContent host c) as [[text|e] ev3] eqn:H3.
  2:{ intros H. injection H as <- <-.
      exists (Banner :: ev1 ++ ev2 ++ ev3), [].
      apply getTextContent_steps in H3.
      split; [constructor; [exact I | repeat (apply Forall_app; split); auto]|].
      split; [constructor|].
      split; [rewrite !app_nil_r; reflexivity|].
      intros N. exfalso. apply N. reflexivity. }
  pose proof H3 as P3. apply getTextContent_steps in P3.
  assert (P : Forall preparing (Banner :: ev1 ++ ev2 ++ ev3))
    by (constructor; [exact I | repeat (apply Forall_app; split); auto]).
  destruct (convert w (Configuration.settings c) text) as [[[]|e] ev4] eqn:H4;
    intros H; injection H as <- <-;
    exists (Banner :: ev1 ++ ev2 ++ ev3), ev4;
    (split; [exact P|]);
    (split; [exact (convert_working _ _ H4)|]);
    (split; [cbn [app]; rewrite <- ?app_assoc, ?app_nil_r; reflexivity|]);
    intros _; eauto 12.
Qed.

End Main.

(** X14: [main] ends in one of two ways.  When no step throws, its last
    step is the line that tells the success, and the process is not made
    to exit.  Otherwise it reports one error, exits with the status 1
    and never tells a success.  Before that there is no report. *)
Theorem main_ends_once host options env w :
  exists steps,
    Forall working steps /\
    match fst (mainBody host options env w) with
    | Returned _ => main host options env w = steps ++ [Completed]
    | Threw _ =>
        exists message,
          main host options env w = steps ++ [ErrorLine message; Exit 1] \/
          main host options env w
          = steps ++ [UnexpectedErrorLine message; Exit 1]
    end.
Proof.
  unfold main.
  destruct (mainBody host options env w) as [r ev] eqn:H.
  apply mainBody_steps in H. destruct H as [ev1 [ev4 [P [W [-> _]]]]].
  assert (F : Forall working (ev1 ++ ev4)).
  { apply Forall_app. split; [|exact W].
    eapply Forall_impl; [|exact P]. intros s. apply preparing_working. }
  exists (ev1 ++ ev4). split; [exact F|].
  destruct r as [[]|[|code message]]; cbn [fst].
  - rewrite app_assoc. reflexivity.
  - eexists. right. rewrite !app_nil_r. reflexivity.
  - exists message. left. rewrite !app_nil_r. reflexivity.
Qed.

Section MainConversion.

Variable host : Host.
Variable options : options.t.
Variable env : Env.
Variable w : World.

(** A call of the pipeline is made by [convertTextToSpeech], called once
    the configuration was got and validated and the text was got. *)
Lemma main_conversion c0 :
  In (Conversion c0) (main host options env w) ->
  exists c e1 e2 text e3 r4 ev4,
    getConfiguration host options env = (Returned c, e1) /\
    validateConfiguration host c = (Returned tt, e2) /\
    getTextContent host c = (Returned text, e3) /\
    convert w (Configuration.settings c) text = (r4, ev4) /\
    In (Conversion c0) ev4.
Proof.
  unfold main.
  destruct (mainBody host options env w) as [r ev] eqn:H.
  apply mainBody_steps in H. destruct H as [ev1 [ev4 [P [W [-> G]]]]].
  intros Hin.
  assert (Hin4 : In (Conversion c0) ev4).
  { assert (Hin' : In (Conversion c0) (ev1 ++ ev4)).
    { destruct r as [[]|[|code message]].
      - rewrite app_assoc in Hin. apply in_app_or in Hin.
        destruct Hin as [Hin|[Hx|[]]]; [exact Hin | discriminate].
      - rewrite !app_nil_r in Hin. apply in_app_or in Hin.
        destruct Hin as [Hin|[Hx|[Hx|[]]]]; [exact Hin | discriminate..].
      - rewrite !app_nil_r in Hin. apply in_app_or in Hin.
        destruct Hin as [Hin|[Hx|[Hx|[]]]]; [exact Hin | discriminate..]. }
    apply in_app_or in Hin'. destruct Hin' as [Hin'|Hin']; [|exact Hin'].
    rewrite Forall_forall in P. apply P in Hin'. destruct Hin'. }
  destruct G as [c [e1 [e2 [text [e3 [r4 [G1 [G2 [G3 [_ G4]]]]]]]]]].
  { intros N. rewrite N in Hin4. destruct Hin4. }
  exists c, e1, e2, text, e3, r4, ev4. auto.
Qed.

Lemma convert_request config text r ev model v input format :
  convert w config text = (r, ev) ->
  In (Conversion (SpeechCreate model v input format)) ev ->
  exists t r' ev',
    text = Some t /\ convertTextToSpeech w config t [] = (r', ev') /\
    In (SpeechCreate model v input format) ev'.
Proof.
  unfold convert. destruct text as [t|].
  - destruct (convertTextToSpeech w config t []) as [r' ev'] eqn:E.
    intros H. injection H as <- <-. intros Hin.
    apply in_map_iff in Hin. destruct Hin as [c [Hc Hin]].
    injection Hc as ->. exists t, r', ev'. auto.
  - intros H. injection H as <- <-. intros [Hx|[Hx|[]]]; discriminate.
Qed.

Lemma validateConfiguration_returned c ev :
  validateConfiguration host c = (Returned tt, ev) ->
  startsWith (lit "sk-") (apiKey (Configuration.settings c)) = true /\
  In (voice (Configuration.settings c)) VOICES /\
  In (audioFormat (Configuration.settings c)) AUDIO_FORMATS /\
  (Configuration.textSource c = lit "file" ->
   fs_access host (Configuration.filePath c) = Returned tt).
Proof.
  rewrite validateConfiguration_run. cbv zeta.
  destruct (startsWith (lit "sk-") (apiKey (Configuration.settings c))) eqn:K;
    cbn [negb]; [|discriminate].
  destruct (arrayIncludes VOICES (voice (Configuration.settings c))) eqn:V;
    cbn [negb]; [|discriminate].
  destruct (arrayIncludes AUDIO_FORMATS (audioFormat (Configuration.settings c)))
    eqn:F; cbn [negb]; [|discriminate].
  apply arrayIncludes_In in V. apply arrayIncludes_In in F.
  destruct (eqbString (Configuration.textSource c) (lit "file")) eqn:S.
  - destruct (fs_access host (Configuration.filePath c)) as [[]|e];
      [|discriminate]. intros _. auto.
  - intros _. repeat split; try assumption. intros N.
    apply eqbString_eq in N. congruence.
Qed.

End MainConversion.

(** X15: [main] makes a request only with a configuration that passed the
    validation: the key starts with [sk-], the voice and the format of
    the request are those of the configuration and are supported ones,
    and the model is [tts-1]. *)
Theorem requests_only_when_valid host options env w model v input format :
  In (Conversion (SpeechCreate model v input format))
     (main host options env w) ->
  exists c ev,
    getConfiguration host options env = (Returned c, ev) /\
    startsWith (lit "sk-") (apiKey (Configuration.settings c)) = true /\
    model = lit "tts-1" /\
    v = voice (Configuration.settings c) /\ In v VOICES /\
    format = audioFormat (Configuration.settings c) /\
    In format AUDIO_FORMATS.
Proof.
  intros Hin. apply main_conversion in Hin.
  destruct Hin as [c [e1 [e2 [text [e3 [r4 [ev4 [G1 [G2 [G3 [G4 Hin]]]]]]]]]]].
  apply validateConfiguration_returned in G2.
  destruct G2 as [K [V [F _]]].
  eapply convert_request in Hin; [|exact G4].
  destruct Hin as [t [r' [ev' [_ [Hc Hin']]]]].
  apply convertTextToSpeech_calls in Hc. destruct Hc as [Rq _].
  rewrite Forall_forall in Rq. destruct (Rq _ Hin') as [-> [-> [-> _]]].
  exists c, e1. auto 10.
Qed.

Lemma getConfiguration_no_file host options env r ev :
  getConfiguration host options env = (r, ev) ->
  Forall (fun s => ~ fileStep s) ev.
Proof.
  intros H. apply getConfiguration_steps in H.
  destruct H as [src [k [-> _]]]. apply Forall_forall.
  intros s Hs. apply in_map_iff in Hs. destruct Hs as [q [<- _]].
  simpl. tauto.
Qed.

Lemma convert_no_file w config text r ev :
  convert w config text = (r, ev) -> Forall (fun s => ~ fileStep s) ev.
Proof.
  intros H. unfold convert in H. destruct text as [t|].
  - destruct (convertTextToSpeech w config t []) as [r' ev'].
    injection H as _ <-. apply Forall_forall.
    intros s Hs. apply in_map_iff in Hs. destruct Hs as [c' [<- _]].
    simpl. tauto.
  - injection H as _ <-. repeat constructor; simpl; tauto.
Qed.

(** X16: with a text on the command line, [main] looks at no file and
    reads none, were one given too, and its requests ask for this text
    or for chunks of it. *)
Theorem text_flag_reads_no_file host options env w :
  truthyValue (options.text options) = true ->
  Forall (fun s => ~ fileStep s) (main host options env w) /\
  (forall model v input format,
     In (Conversion (SpeechCreate model v input format))
        (main host options env w) ->
     exists text,
       options.text options = Some text /\
       In input (if length (chunkText text) =? 1 then [text]
                 else chunkText text)).
Proof.
  intros T. split.
  -     unfold main. rewrite mainBody_run.
    destruct (getConfiguration host options env) as [[c|e] ev1] eqn:H1.
    2:{ apply getConfiguration_no_file in H1.
        destruct e as [|code message];
          (constructor; [simpl; tauto|]);
          (apply Forall_app; split; [exact H1|]);
          repeat constructor; simpl; tauto. }
    pose proof H1 as P1. apply getConfiguration_no_file in P1.
    apply getConfiguration_result in H1.
    destruct H1 as [a1 [a2 [a3 [a4 [_ [Hs _]]]]]].
    apply textOrFile_result in Hs. destruct Hs as [_ [Hs _]].
    destruct (Hs T) as [Es Et].
    assert (E2 : snd (validateConfiguration host c) = []).
    { rewrite validateConfiguration_run. cbv zeta. rewrite Es.
      change (eqbString (lit "direct") (lit "file")) with false.
      repeat (destruct (negb _); [reflexivity|]). reflexivity. }
    assert (E3 : getTextContent host c = (Returned (Configuration.text c), [])).
    { rewrite getTextContent_run, Es. reflexivity. }
    rewrite E3.
    destruct (validateConfiguration host c) as [[[]|e] ev2]; cbn [snd] in E2;
      subst ev2.
    2:{ rewrite app_nil_r.
        destruct e as [|code message];
          (constructor; [simpl; tauto|]);
          (apply Forall_app; split; [exact P1|]);
          repeat constructor; simpl; tauto. }
    cbn [app].
    destruct (convert w (Configuration.settings c) (Configuration.text c))
      as [[[]|e] ev4] eqn:H4; apply convert_no_file in H4.
    + constructor; [simpl; tauto|].
      apply Forall_app; split; [exact P1|].
      apply Forall_app; split; [exact H4|].
      repeat constructor; simpl; tauto.
    + destruct e as [|code message];
        (constructor; [simpl; tauto|]);
        (apply Forall_app; split;
         [apply Forall_app; split; [exact P1 | exact H4]|]);
        repeat constructor; simpl; tauto.
  - intros model v input format Hin. apply main_conversion in Hin.
    destruct Hin as [c [e1 [e2 [text [e3 [r4 [ev4 [G1 [G2 [G3 [G4 Hin]]]]]]]]]]].
    apply getConfiguration_result in G1.
    destruct G1 as [a1 [a2 [a3 [a4 [_ [Hs _]]]]]].
    apply textOrFile_result in Hs. destruct Hs as [_ [Hs _]].
    destruct (Hs T) as [Es Et].
    rewrite getTextContent_run, Es in G3.
    change (eqbString (lit "direct") (lit "direct")) with true in G3.
    injection G3 as G3 _.
    eapply convert_request in Hin; [|exact G4].
    destruct Hin as [t [r' [ev' [Ht [Hc Hin']]]]].
    apply convertTextToSpeech_calls in Hc. destruct Hc as [Rq _].
    rewrite Forall_forall in Rq. destruct (Rq _ Hin') as [_ [_ [_ Hi]]].
    exists t. split; [congruence | exact Hi].
Qed.

(** X17: with a file on the command line and no text, [main] makes a
    request only once the file was found accessible and was read, its
    text having a character that is not white space; the request asks for
    this text or for a chunk of it, and never for nothing. *)
Theorem file_requests_are_not_empty host options env w model v input format :
  truthyValue (options.text options) = false ->
  truthyValue (options.file options) = true ->
  In (Conversion (SpeechCreate model v input format))
     (main host options env w) ->
  input <> [] /\
  exists path content,
    fs_access host (options.file options) = Returned tt /\
    path_resolve host (options.file options) = Returned path /\
    fs_readFile host path = Returned content /\
    trim content <> [] /\
    In input (if length (chunkText content) =? 1 then [content]
              else chunkText content).
Proof.
  intros T F Hin. apply main_conversion in Hin.
  destruct Hin as [c [e1 [e2 [text [e3 [r4 [ev4 [G1 [G2 [G3 [G4 Hin]]]]]]]]]]].
  apply getConfiguration_result in G1.
  destruct G1 as [a1 [a2 [a3 [a4 [_ [Hs _]]]]]].
  apply textOrFile_result in Hs. destruct Hs as [_ [_ Hs]].
  destruct (Hs T F) as [Es Ef].
  apply validateConfiguration_returned in G2.
  destruct G2 as [_ [_ [_ A]]]. specialize (A Es). rewrite Ef in A.
  rewrite getTextContent_run, Es, Ef in G3.
  change (eqbString (lit "file") (lit "direct")) with false in G3.
  cbv iota zeta in G3.
  destruct (path_resolve host (options.file options)) as [path|e];
    [|discriminate].
  destruct (fs_readFile host path) as [content|e] eqn:D; [|discriminate].
  destruct (trim content) as [|x rest] eqn:N'; cbn [truthy] in G3;
    [discriminate|].
  injection G3 as <- _.
  assert (N : trim content <> []) by (rewrite N'; discriminate).
  eapply convert_request in Hin; [|exact G4].
  destruct Hin as [t [r' [ev' [Ht [Hc Hin']]]]]. injection Ht as <-.
  apply convertTextToSpeech_calls in Hc. destruct Hc as [Rq _].
  rewrite Forall_forall in Rq. destruct (Rq _ Hin') as [_ [_ [_ Hi]]].
  assert (C : content <> []) by (intros ->; apply N; reflexivity).
  split.
  - destruct (length (chunkText content) =? 1).
    + destruct Hi as [<-|[]]. exact C.
    + pose proof (chunkText_chunks_nonempty C) as NE.
      rewrite Forall_forall in NE. exact (NE _ Hi).
  - exists path, content. auto.
Qed.

(** X17, witness: a file on the command line. *)
Lemma file_requests_are_not_empty_witness :
  lit "Once upon a time." <> [] /\
  exists path content,
    fs_access sampleHost (options.file (opts fileFlags)) = Returned tt /\
    path_resolve sampleHost (options.file (opts fileFlags)) = Returned path /\
    fs_readFile sampleHost path = Returned content /\
    trim content <> [] /\
    In (lit "Once upon a time.")
       (if length (chunkText content) =? 1 then [content]
        else chunkText content).
Proof.
  apply (@file_requests_are_not_empty sampleHost (opts fileFlags) emptyEnv
           obligingWorld (lit "tts-1") (lit "echo") (lit "Once upon a time.")
           (lit "mp3")).
  - reflexivity.
  - reflexivity.
  - vm_compute. auto 20.
Defined.

(** X16, witness: a text and a file on the command line. *)
Lemma text_flag_reads_no_file_witness :
  Forall (fun s => ~ fileStep s)
    (main sampleHost (opts allFlags) emptyEnv obligingWorld).
Proof.
  refine (proj1 (@text_flag_reads_no_file sampleHost (opts allFlags) emptyEnv
                   obligingWorld _)).
  reflexivity.
Defined.

(** X15, witness: every flag given. *)
Lemma requests_only_when_valid_witness :
  exists c ev,
    getConfiguration sampleHost (opts allFlags) emptyEnv = (Returned c, ev) /\
    startsWith (lit "sk-") (apiKey (Configuration.settings c)) = true /\
    lit "tts-1" = lit "tts-1" /\
    lit "echo" = voice (Configuration.settings c) /\ In (lit "echo") VOICES /\
    lit "mp3" = audioFormat (Configuration.settings c) /\
    In (lit "mp3") AUDIO_FORMATS.
Proof.
  apply (@requests_only_when_valid sampleHost (opts allFlags) emptyEnv
           obligingWorld (lit "tts-1") (lit "echo") (lit "Hi there.")
           (lit "mp3")).
  vm_compute. auto 20.
Defined.

(** The run of [main] with every flag given. *)
Example main_with_all_flags :
  main sampleHost (opts allFlags) emptyEnv obligingWorld
  = [Banner;
     Conversion (Spinner Start (lit "Analyzing text..."));
     Conversion (Spinner Text (lit "Converting text to speech..."));
     Conversion (SpeechCreate (lit "tts-1") (lit "echo") (lit "Hi there.")
                   (lit "mp3"));
     Conversion (Spinner Text (lit "Saving audio file..."));
     Conversion (WriteFile (lit "speech.mp3") (lit "audio"));
     Conversion (Spinner Succeed (lit "Audio saved to: speech.mp3"));
     Conversion (Stat (lit "speech.mp3"));
     Conversion (ConsoleLog (FileSize 5));
     Conversion (ConsoleLog (VoiceInfo (lit "echo")));
     Conversion (ConsoleLog (FormatInfo (lit "mp3")));
     Completed].
Proof. vm_compute. reflexivity. Qed.

(** The run of [main] with no flag: every question is asked, the file is
    looked at and read. *)
Example main_with_no_flag :
  main sampleHost (opts noFlags) emptyEnv obligingWorld
  = [Banner; Prompt AskApiKey; Prompt AskTextSource; Prompt AskFilePath;
     Prompt AskVoice; Prompt AskAudioFormat;
     Access (Some (lit "story.txt"));
     readingStart; ReadFile (lit "/home/story.txt");
     Reading ReadingSucceed (lit "File read successfully (17 characters)");
     Conversion (Spinner Start (lit "Analyzing text..."));
     Conversion (Spinner Text (lit "Converting text to speech..."));
     Conversion (SpeechCreate (lit "tts-1") (lit "nova")
                   (lit "Once upon a time.") (lit "wav"));
     Conversion (Spinner Text (lit "Saving audio file..."));
     Conversion (WriteFile (lit "output.wav") (lit "audio"));
     Conversion (Spinner Succeed (lit "Audio saved to: output.wav"));
     Conversion (Stat (lit "output.wav"));
     Conversion (ConsoleLog (FileSize 5));
     Conversion (ConsoleLog (VoiceInfo (lit "nova")));
     Conversion (ConsoleLog (FormatInfo (lit "wav")));
     Completed].
Proof. vm_compute. reflexivity. Qed.

(** A key that does not start with [sk-]: nothing is converted. *)
Example main_with_a_bad_key :
  main sampleHost
    (opts {| argv.apiKey := Some (lit "key"); argv.text := Some (lit "Hi.");
             argv.file := None; argv.voice := Some (lit "echo");
             argv.audioFormat := Some (lit "mp3"); argv.output := None |})
    emptyEnv obligingWorld
  = [Banner; ErrorLine (lit "Invalid OpenAI API key format"); Exit 1].
Proof. vm_compute. reflexivity. Qed.
